(** * Timeline engine of atlas-horizonte: a shallow embedding and its properties

    The embedded program is the timeline script (bounds, month coordinates,
    greedy stacking of overlapping periods, lane geometry, tooltip
    controller, HTML escaping).  JavaScript numbers that the script handles
    are month and pixel counts; they are modelled as integers extended with
    NaN.  Strings are sequences of code units. *)

From Stdlib Require Import ZArith List String Ascii Bool Lia Permutation.
From Stdlib Require Import QArith Qminmax Lqa.
Import ListNotations.
Local Open Scope Z_scope.

(** ** JavaScript numbers: integers and NaN *)

Module JS.

Inductive jsnum : Type :=
| NaN
| Num (z : Z).

Definition jsnum_eq_dec (a b : jsnum) : {a = b} + {a <> b}.
Proof. decide equality. apply Z.eq_dec. Defined.

Definition lift2 (f : Z -> Z -> Z) (a b : jsnum) : jsnum :=
  match a, b with
  | Num x, Num y => Num (f x y)
  | _, _ => NaN
  end.

Definition add := lift2 Z.add.
Definition sub := lift2 Z.sub.
Definition mul := lift2 Z.mul.
(** [Math.min] and [Math.max]: NaN as soon as one argument is NaN. *)
Definition min := lift2 Z.min.
Definition max := lift2 Z.max.

Definition cmp2 (f : Z -> Z -> bool) (a b : jsnum) : bool :=
  match a, b with
  | Num x, Num y => f x y
  | _, _ => false
  end.

(** Relational operators: every comparison with NaN is false. *)
Definition gt := cmp2 Z.gtb.
Definition lt := cmp2 Z.ltb.
Definition le := cmp2 Z.leb.
Definition ge := cmp2 Z.geb.

(** ToBoolean on a number: 0 and NaN are falsy. *)
Definition truthy (a : jsnum) : bool :=
  match a with
  | NaN => false
  | Num z => negb (z =? 0)
  end.

(** [a || b] on numbers. *)
Definition or (a b : jsnum) : jsnum := if truthy a then a else b.

Definition isFinite (a : jsnum) : bool :=
  match a with NaN => false | Num _ => true end.

(** Values read from the JSON payload, as far as the script looks at them:
    a string, or something that is not a string. *)
Inductive jsval : Type :=
| JUndefined
| JNull
| JStr (s : string).

(** [String(v)] and template interpolation. *)
Definition toString (v : jsval) : string :=
  match v with
  | JUndefined => "undefined"
  | JNull => "null"
  | JStr s => s
  end.

(** Exceptions: the only one the script can raise is a TypeError (a method
    called on a value that has none). *)
Inductive exn : Type := TypeError.

Inductive result (A : Type) : Type :=
| Ok (a : A)
| Throw (e : exn).
Arguments Ok {A} a.
Arguments Throw {A} e.

Definition bind {A B} (m : result A) (k : A -> result B) : result B :=
  match m with
  | Ok a => k a
  | Throw e => Throw e
  end.

Fixpoint mapM {A B} (f : A -> result B) (l : list A) : result (list B) :=
  match l with
  | [] => Ok []
  | x :: t => bind (f x) (fun y => bind (mapM f t) (fun ys => Ok (y :: ys)))
  end.

End JS.

Notation "x <- m ;; k" := (JS.bind m (fun x => k))
  (at level 61, m at next level, right associativity).

Import JS.

(** ** Strings: splitting, numeric conversion, decimal printing *)

Module Str.

Local Open Scope string_scope.

Definition chr (n : nat) : ascii := ascii_of_nat n.
Definition dquote : ascii := chr 34.
Definition squote : ascii := chr 39.
Definition str1 (c : ascii) : string := String c EmptyString.

(** [s.split(sep)] for a one-character separator: never an empty array. *)
Fixpoint split (sep : ascii) (s : string) : list string :=
  match s with
  | EmptyString => [EmptyString]
  | String c t =>
      if Ascii.eqb c sep then EmptyString :: split sep t
      else match split sep t with
           | [] => [str1 c]
           | w :: ws => String c w :: ws
           end
  end.

Definition isSpace (c : ascii) : bool :=
  let n := nat_of_ascii c in
  ((9 <=? n) && (n <=? 13))%nat || (n =? 32)%nat.

Fixpoint trimStart (s : string) : string :=
  match s with
  | String c t => if isSpace c then trimStart t else s
  | EmptyString => EmptyString
  end.

Fixpoint rev (s : string) : string :=
  match s with
  | EmptyString => EmptyString
  | String c t => rev t ++ str1 c
  end.

Definition trim (s : string) : string := rev (trimStart (rev (trimStart s))).

Definition digit (c : ascii) : option Z :=
  let n := nat_of_ascii c in
  if ((48 <=? n) && (n <=? 57))%nat then Some (Z.of_nat n - 48) else None.

Fixpoint digits (acc : Z) (s : string) : option Z :=
  match s with
  | EmptyString => Some acc
  | String c t =>
      match digit c with
      | Some d => digits (10 * acc + d) t
      | None => None
      end
  end.

Definition unsigned (s : string) : jsnum :=
  match s with
  | EmptyString => NaN
  | _ => match digits 0 s with Some z => Num z | None => NaN end
  end.

(** [Number(s)] on the decimal integer literals a date component is written
    with: surrounding white space is dropped, the empty string is 0, an
    optional sign may precede the digits; anything else is NaN.  Only ASCII
    white space is dropped, and literals with a fraction, an exponent or a
    radix prefix, and the word Infinity, are outside what is modelled: they
    read as NaN here. *)
Definition Number (s : string) : jsnum :=
  match trim s with
  | EmptyString => Num 0
  | String "+" t => unsigned t
  | String "-" t => JS.sub (Num 0) (unsigned t)
  | t => unsigned t
  end.

Definition digitChar (d : Z) : ascii := chr (48 + Z.to_nat d).

Fixpoint posDigits (fuel : nat) (n : Z) (acc : string) : string :=
  match fuel with
  | O => acc
  | S f =>
      let acc' := String (digitChar (n mod 10)) acc in
      if (n / 10 =? 0)%Z then acc' else posDigits f (n / 10) acc'
  end.

(** Number-to-string for an integer or NaN, as a template literal prints it. *)
Definition ofZ (z : Z) : string :=
  if (z <? 0)%Z
  then String "-" (posDigits (S (Z.to_nat (Z.log2 (- z)))) (- z) EmptyString)
  else posDigits (S (Z.to_nat (Z.log2 z))) z EmptyString.

Definition ofNum (a : jsnum) : string :=
  match a with
  | NaN => "NaN"
  | Num z => ofZ z
  end.

End Str.

(** ** Calendar dates

    A [Date] built from year, month and day numbers is either invalid or a
    day of the proleptic Gregorian calendar, counted from 1970-01-01.  The
    script only builds dates at local midnight and only reads their local
    year and month; a [Day] is that local calendar day.  The time zone is
    outside the model: where a zone skipped a calendar day (a move across
    the date line), the Date built for the skipped day reads back as the
    day after, and the range of valid dates is taken on local days.  What
    is proved of dates is stated on the Date that [parseDate] returns, not
    on the text of the date. *)

Module Cal.

(** Day number of the civil date [y]-[m]-[d], with [m] in 1..12. *)
Definition daysFromCivil (y m d : Z) : Z :=
  let y' := if m <=? 2 then y - 1 else y in
  let era := y' / 400 in
  let yoe := y' - era * 400 in
  let mp := if m <=? 2 then m + 9 else m - 3 in
  let doy := (153 * mp + 2) / 5 + d - 1 in
  let doe := yoe * 365 + yoe / 4 - yoe / 100 + doy in
  era * 146097 + doe - 719468.

(** Year and zero-based month of a day number. *)
Definition civilFromDays (z : Z) : Z * Z :=
  let z' := z + 719468 in
  let era := z' / 146097 in
  let doe := z' - era * 146097 in
  let yoe := (doe - doe / 1460 + doe / 36524 - doe / 146096) / 365 in
  let doy := doe - (365 * yoe + yoe / 4 - yoe / 100) in
  let mp := (5 * doy + 2) / 153 in
  let m := if mp <? 10 then mp + 3 else mp - 9 in
  let y := yoe + era * 400 in
  ((if m <=? 2 then y + 1 else y), m - 1).

Inductive Date : Type :=
| InvalidDate
| Day (n : Z).

(** The time range of a Date: 100,000,000 days either side of the epoch. *)
Definition maxDay : Z := 100000000.

(** [new Date(year, month, day)]: a year from 0 to 99 means 1900 + year;
    the month overflows into the year and the day into the month. *)
Definition newDate (year month day : jsnum) : Date :=
  match year, month, day with
  | Num y, Num m, Num d =>
      let yr := if (0 <=? y) && (y <=? 99) then 1900 + y else y in
      let n := daysFromCivil (yr + m / 12) (m mod 12 + 1) 1 + d - 1 in
      if Z.abs n <=? maxDay then Day n else InvalidDate
  | _, _, _ => InvalidDate
  end.

Definition getFullYear (d : Date) : jsnum :=
  match d with
  | InvalidDate => NaN
  | Day n => Num (fst (civilFromDays n))
  end.

Definition getMonth (d : Date) : jsnum :=
  match d with
  | InvalidDate => NaN
  | Day n => Num (snd (civilFromDays n))
  end.

End Cal.

Import Cal.

(** ** The timeline script *)

Definition START_YEAR_DEFAULT : Z := 1997.
Definition MONTH_PX : Z := 18.
Definition LANE_BAR_H : Z := 28.
Definition STACK_GAP : Z := 6.

(** What the script reads from its surroundings: the calendar year at load
    time ([new Date().getFullYear()]) and the number that [parseFloat] finds
    in the [--month-width] style property, taken to be a whole number of
    pixels or NaN; a width with a fraction is outside the model. *)
Record Env : Type := mkEnv {
  END_YEAR_DEFAULT : Z;
  monthWidthStyle : jsnum
}.

(** An element of an array that destructuring may find missing. *)
Definition elemOr (d : jsnum) (o : option jsnum) : jsnum :=
  match o with Some v => v | None => d end.

(** [parseDate]: [const [y, m, d] = s.split("-").map(Number);
    return new Date(y, m - 1, d || 1)].  A value without a [split] method
    raises a TypeError; a missing component is [undefined], which is NaN in
    arithmetic and falsy. *)
Definition parseDate (s : jsval) : result Date :=
  match s with
  | JStr str =>
      let parts := map Str.Number (Str.split "-" str) in
      let y := elemOr NaN (nth_error parts 0) in
      let m := elemOr NaN (nth_error parts 1) in
      let d := elemOr NaN (nth_error parts 2) in
      Ok (newDate y (JS.sub m (Num 1)) (JS.or d (Num 1)))
  | _ => Throw TypeError
  end.

Definition months : list string :=
  ["ene"; "feb"; "mar"; "abr"; "may"; "jun";
   "jul"; "ago"; "sep"; "oct"; "nov"; "dic"]%string.

(** [months[i]], interpolated: [undefined] when [i] is no index. *)
Definition monthName (i : jsnum) : string :=
  match i with
  | Num z =>
      if z <? 0 then "undefined"%string
      else nth (Z.to_nat z) months "undefined"%string
  | NaN => "undefined"%string
  end.

Definition formatMY (s : jsval) : result string :=
  d <- parseDate s ;;
  Ok (monthName (getMonth d) ++ " " ++ Str.ofNum (getFullYear d))%string.

Definition monthIndex (d : Date) (startYear : jsnum) : jsnum :=
  JS.add (JS.mul (JS.sub (getFullYear d) startYear) (Num 12)) (getMonth d).

Definition totalMonths (startYear endYear : jsnum) : jsnum :=
  JS.mul (JS.add (JS.sub endYear startYear) (Num 1)) (Num 12).

Definition getMonthWidth (env : Env) : jsnum :=
  if JS.isFinite (monthWidthStyle env) then monthWidthStyle env else Num 18.

(** The width given to the canvas, in pixels. *)
Definition setCanvasWidth (env : Env) (startYear endYear : jsnum) : jsnum :=
  JS.add (JS.mul (totalMonths startYear endYear) (getMonthWidth env)) (Num 20).

(** One period of office (a "cargo") as the payload gives it. [temas] is
    [None] when the field is missing or is not an array. *)
Record Item : Type := mkItem {
  inicio : jsval;
  fin : jsval;
  nivel : jsval;
  label : jsval;
  persona : jsval;
  institucion : jsval;
  temas : option (list jsval)
}.

Record Bounds : Type := mkBounds {
  startYear : jsnum;
  endYear : jsnum
}.

Fixpoint foldM {A S} (f : S -> A -> result S) (l : list A) (s : S) : result S :=
  match l with
  | [] => Ok s
  | x :: t => s' <- f s x ;; foldM f t s'
  end.

(** One turn of the [forEach] of [getTimelineBounds] on (minYear, maxYear). *)
Definition widen (acc : jsnum * jsnum) (it : Item) : result (jsnum * jsnum) :=
  s <- parseDate (inicio it) ;;
  e <- parseDate (fin it) ;;
  Ok (JS.min (fst acc) (getFullYear s), JS.max (snd acc) (getFullYear e)).

Definition getTimelineBounds (env : Env) (items : list Item) : result Bounds :=
  let startYear := Num START_YEAR_DEFAULT in
  let endYear := Num (END_YEAR_DEFAULT env) in
  match items with
  | [] => Ok (mkBounds startYear endYear)
  | _ =>
      acc <- foldM widen items (endYear, startYear) ;;
      Ok (mkBounds (JS.min startYear (fst acc)) (JS.max endYear (snd acc)))
  end.

(** An item with its month coordinates; [_row] is [None] until the stacking
    loop assigns it. *)
Record Seg : Type := mkSeg {
  it : Item;
  _start : jsnum;
  _end : jsnum;
  _row : option nat
}.

Definition toSeg (startYear : jsnum) (i : Item) : result Seg :=
  s <- parseDate (inicio i) ;;
  e <- parseDate (fin i) ;;
  Ok (mkSeg i (monthIndex s startYear) (monthIndex e startYear) None).

(** The comparator of the sort: [a._start - b._start || a._end - b._end]. *)
Definition compareSegs (a b : Seg) : jsnum :=
  JS.or (JS.sub (_start a) (_start b)) (JS.sub (_end a) (_end b)).

(** [Array.prototype.sort] with a comparator.  A NaN from the comparator
    counts as 0.  The sort is stable; it is modelled as the insertion sort
    that takes the elements from left to right and moves each one back past
    the elements that compare greater.  When the comparator is a consistent
    order on the elements, the result is the one sorted, stable arrangement,
    whatever the engine.  When it is not (NaN keys), the language leaves the
    order to the engine, and the insertion gives one order among those an
    engine may give: for such input only what holds of every order is
    stated. *)
Module ArraySort.
Section Sort.
Context {A : Type} (comparefn : A -> A -> jsnum).

Definition sortCompare (x y : A) : Z :=
  match comparefn x y with
  | NaN => 0
  | Num v => v
  end.

(** [racc] is the sorted prefix, last element first. *)
Fixpoint insertBack (x : A) (racc : list A) : list A :=
  match racc with
  | [] => [x]
  | y :: t =>
      if sortCompare y x >? 0 then y :: insertBack x t else x :: racc
  end.

Definition sort (l : list A) : list A :=
  rev (fold_left (fun racc x => insertBack x racc) l []).
End Sort.
End ArraySort.

Definition setRow (r : nat) (s : Seg) : Seg :=
  mkSeg (it s) (_start s) (_end s) (Some r).

(** The inner loop of [stackOverlaps] together with the [if (!placed)] that
    follows it: scan the rows from index [r] on, take the first whose end the
    start exceeds, else push a new row.  Returns the row and the new ends. *)
Fixpoint assignRow (s e : jsnum) (rowsEnd : list jsnum) (r : nat)
  : nat * list jsnum :=
  match rowsEnd with
  | [] => (r, [e])
  | x :: rest =>
      if JS.gt s x then (r, e :: rest)
      else let (r', rest') := assignRow s e rest (S r) in (r', x :: rest')
  end.

(** The outer loop: the segments in order, threading [rowsEnd]. *)
Fixpoint stackLoop (segs : list Seg) (rowsEnd : list jsnum)
  : list Seg * list jsnum :=
  match segs with
  | [] => ([], rowsEnd)
  | s :: rest =>
      let (r, rowsEnd') := assignRow (_start s) (_end s) rowsEnd 0 in
      let (placed, final) := stackLoop rest rowsEnd' in
      (setRow r s :: placed, final)
  end.

Record Stacked : Type := mkStacked {
  segs : list Seg;
  rowCount : nat
}.

Definition stackOverlaps (items : list Item) (startYear : jsnum)
  : result Stacked :=
  mapped <- mapM (toSeg startYear) items ;;
  let sorted := ArraySort.sort compareSegs mapped in
  let (placed, rowsEnd) := stackLoop sorted [] in
  Ok (mkStacked placed (List.length rowsEnd)).

(** *** Markup *)

Local Open Scope string_scope.

Definition nl : string := Str.str1 (Str.chr 10).
Definition dq : string := Str.str1 Str.dquote.

(** An attribute inside a tag: the name, an equals sign, the quoted value. *)
Definition attr (name value : string) : string := name ++ "=" ++ dq ++ value ++ dq.

(** The replacement of one character by [escapeHtml]. *)
Definition escapeChar (c : ascii) : string :=
  if Ascii.eqb c "&" then "&amp;"
  else if Ascii.eqb c "<" then "&lt;"
  else if Ascii.eqb c ">" then "&gt;"
  else if Ascii.eqb c Str.dquote then "&quot;"
  else if Ascii.eqb c Str.squote then "&#039;"
  else Str.str1 c.

Fixpoint escapeString (s : string) : string :=
  match s with
  | EmptyString => EmptyString
  | String c t => escapeChar c ++ escapeString t
  end.

(** [escapeHtml]: the argument as a string, with each of the five
    characters ampersand, less-than, greater-than, double quote and
    apostrophe replaced by its entity. *)
Definition escapeHtml (s : jsval) : string := escapeString (toString s).

Fixpoint join (l : list string) : string :=
  match l with
  | [] => EmptyString
  | x :: t => x ++ join t
  end.

(** The markup of one topic of the tooltip. *)
Definition pill (tema : jsval) : string :=
  "<span " ++ attr "class" "tooltip-pill" ++ ">" ++ escapeHtml tema ++ "</span>".

(** The template of the tooltip, with the two formatted dates. [temas] is
    the array that [handleShow] passes, already an array. *)
Definition tooltipMarkup (title sub : string) (nivel : jsval)
    (from to : string) (temas : list jsval) : string :=
  let topicsHtml :=
    match temas with
    | _ :: _ =>
        nl ++ "        <div " ++ attr "class" "tooltip-topics" ++ ">" ++
        nl ++ "          <div " ++ attr "class" "tooltip-topics-title" ++ ">Temas</div>" ++
        nl ++ "          <div " ++ attr "class" "tooltip-meta" ++ ">" ++
        nl ++ "            " ++
        join (map pill temas) ++
        nl ++ "          </div>" ++
        nl ++ "        </div>" ++
        nl ++ "      "
    | [] =>
        nl ++ "        <div " ++ attr "class" "tooltip-topics" ++ ">" ++
        nl ++ "          <div " ++ attr "class" "tooltip-topics-title" ++ ">Temas</div>" ++
        nl ++ "          <div " ++ attr "class" "tooltip-empty" ++ ">Sin temas vinculados</div>" ++
        nl ++ "        </div>" ++
        nl ++ "      "
    end in
  nl ++ "      <div " ++ attr "class" "tooltip-title" ++ ">" ++
    escapeHtml (JStr title) ++ "</div>" ++
  nl ++ "      <div " ++ attr "class" "tooltip-subtitle" ++ ">" ++
    escapeHtml (JStr sub) ++ "</div>" ++
  nl ++ "      <div " ++ attr "class" "tooltip-meta" ++ ">" ++
  nl ++ "        <span " ++ attr "class" "tooltip-pill" ++ ">" ++
    escapeHtml nivel ++ "</span>" ++
  nl ++ "        <span " ++ attr "class" "tooltip-pill" ++ ">" ++
    from ++ " – " ++ to ++ "</span>" ++
  nl ++ "      </div>" ++
  nl ++ "      " ++ topicsHtml ++
  nl ++ "    ".

(** [buildTooltipContent]: the template, once [formatMY] has given both
    dates. *)
Definition buildTooltipContent (title sub : string) (nivel inicio fin : jsval)
    (temas : list jsval) : result string :=
  from <- formatMY inicio ;;
  to <- formatMY fin ;;
  Ok (tooltipMarkup title sub nivel from to temas).

(** *** Lanes and bars *)

(** A bar of a lane: its place, its markup and what its handlers pass to
    [showTip].  [bar_id] tells the bars of a lane apart, as the identity of
    the element does. *)
Record Bar : Type := mkBar {
  bar_id : nat;
  bar_left : jsnum;
  bar_top : jsnum;
  bar_width : jsnum;
  bar_innerHTML : string;
  tooltipTitle : string;
  tooltipSub : string;
  tip_nivel : jsval;
  tip_inicio : jsval;
  tip_fin : jsval;
  tip_temas : list jsval
}.

Record Lane : Type := mkLane {
  laneTitle : string;
  minHeight : jsnum;
  bars : list Bar
}.

(** [it._row] in arithmetic: [undefined] is NaN. *)
Definition rowNumber (r : option nat) : jsnum :=
  match r with
  | Some n => Num (Z.of_nat n)
  | None => NaN
  end.

Definition isPersona (mode : string) : bool := String.eqb mode "persona".

(** The body of the loop of [renderLane] for one segment. *)
Definition renderBar (mode : string) (id : nat) (s : Seg) : Bar :=
  let startX := JS.add (Num 10) (JS.mul (_start s) (Num MONTH_PX)) in
  let endX := JS.add (Num 10) (JS.mul (JS.add (_end s) (Num 1)) (Num MONTH_PX)) in
  let w := JS.max (Num MONTH_PX) (JS.sub (JS.sub endX startX) (Num 2)) in
  let y := JS.add (Num 6)
             (JS.mul (rowNumber (_row s)) (Num (LANE_BAR_H + STACK_GAP))) in
  let i := it s in
  let main := if isPersona mode then toString (label i) else toString (persona i) in
  let sub := if isPersona mode then toString (institucion i)
             else toString (label i) ++ " · " ++ toString (persona i) in
  let html :=
    nl ++ "        <span " ++ attr "class" "bar-tag" ++ ">" ++
      escapeHtml (nivel i) ++ "</span>" ++
    nl ++ "        <div " ++ attr "class" "bar-text" ++ ">" ++
    nl ++ "          <b " ++ attr "title" (escapeHtml (JStr main)) ++ ">" ++
      escapeHtml (JStr main) ++ "</b>" ++
    nl ++ "          <span " ++ attr "title" (escapeHtml (JStr sub)) ++ ">" ++
      escapeHtml (JStr sub) ++ "</span>" ++
    nl ++ "        </div>" ++
    nl ++ "      " in
  let tooltipTitle := if isPersona mode then toString (label i) else toString (persona i) in
  let tooltipSub := if isPersona mode then toString (institucion i) else toString (label i) in
  let temas := match temas i with Some l => l | None => [] end in
  mkBar id startX y w html tooltipTitle tooltipSub (nivel i) (inicio i) (fin i) temas.

Fixpoint renderBars (mode : string) (id : nat) (l : list Seg) : list Bar :=
  match l with
  | [] => []
  | s :: t => renderBar mode id s :: renderBars mode (S id) t
  end.

Definition renderLane (title subtitle : string) (items : list Item)
    (mode : string) (startYear : jsnum) : result Lane :=
  st <- stackOverlaps items startYear ;;
  let neededH :=
    JS.max (Num 90)
      (JS.add (JS.mul (Num (Z.of_nat (rowCount st))) (Num (LANE_BAR_H + STACK_GAP)))
              (Num 10)) in
  Ok (mkLane ("<strong>" ++ title ++ "</strong><small>" ++ subtitle ++ "</small>")
             neededH (renderBars mode 0 (segs st))).

(** *** A rendering pass *)

Record Entity : Type := mkEntity {
  nombre : jsval;
  cargos : option (list Item)
}.

Inductive RowsContent : Type :=
| EmptyState (message : string)
| LaneRows (lane : Lane).

(** What a pass of [renderTimeline] leaves on the page. *)
Record View : Type := mkView {
  headline : string;
  subhead : string;
  currentStartYear : jsnum;
  currentEndYear : jsnum;
  canvasWidth : jsnum;
  rows : RowsContent;
  scrollLeft : option jsnum
}.

Definition scrollNearYear (env : Env) (year startYear : jsnum) : jsnum :=
  let idx := JS.mul (JS.sub year startYear) (Num 12) in
  JS.max (Num 0) (JS.sub (JS.mul idx (getMonthWidth env)) (Num 200)).

(** [x || "Sin nombre"] on a name. *)
Definition nameOr (v : jsval) (d : string) : string :=
  match v with
  | JStr EmptyString => d
  | JStr s => s
  | _ => d
  end.

(** [renderTimeline], given the selected entity kind and the entity that
    [list.find] returned, if any.  Of [buildGrid] the view keeps the canvas
    width; the grid lines, the year labels and the list of options are not
    part of it. *)
Definition renderTimeline (env : Env) (type : string) (selected : option Entity)
  : result View :=
  match selected with
  | None =>
      let s := Num START_YEAR_DEFAULT in
      let e := Num (END_YEAR_DEFAULT env) in
      Ok (mkView "Timeline" "Selecciona una entidad para ver cargos por periodo"
            s e (setCanvasWidth env s e)
            (EmptyState "Selecciona una entidad para visualizar sus periodos.")
            None)
  | Some sel =>
      let selectedName := nameOr (nombre sel) "Sin nombre" in
      let head := "Timeline · " ++ selectedName in
      let subh := if isPersona type
                  then "Cargos ocupados (apilado cuando hay empalmes)"
                  else "Personas y cargos por periodo dentro de la institución" in
      let items := match cargos sel with Some l => l | None => [] end in
      b <- getTimelineBounds env items ;;
      let w := setCanvasWidth env (startYear b) (endYear b) in
      match items with
      | [] =>
          Ok (mkView head subh (startYear b) (endYear b) w
                (EmptyState "Esta entidad todavía no tiene cargos con fechas completas.")
                None)
      | _ =>
          lane <- (if isPersona type
                   then renderLane "Cargos"
                          "Barras = periodos de cargos · meses visibles"
                          items "persona" (startYear b)
                   else renderLane "Ocupación de cargos"
                          "Barras = personas en el tiempo · apilado si se empalman"
                          items "institucion" (startYear b)) ;;
          Ok (mkView head subh (startYear b) (endYear b) w (LaneRows lane)
                (Some (scrollNearYear env (JS.add (startYear b) (Num 10)) (startYear b))))
      end
  end.

Local Close Scope string_scope.

(** *** The tooltip controller *)

Module Tooltip.

(** A bounding rectangle, in pixels.  Coordinates are rationals.  The
    script computes in binary64: comparisons, [Math.min] and [Math.max] are
    exact there as here, sums and differences are rounded there and exact
    here, so nothing is stated that depends on the value of a sum or a
    difference. *)
Record Rect : Type := mkRect {
  left : Q; top : Q; right : Q; bottom : Q; width : Q; height : Q
}.

(** What [getBoundingClientRect] answers when a frame callback runs. *)
Record Layout : Type := mkLayout {
  panelRect : Rect;
  barRect : nat -> Rect;
  tooltipRect : Rect
}.

(** The variables of the controller and the tooltip element, with the
    frame callbacks that the script has requested and that have not run
    yet.  [lastHandle] is the last handle that [requestAnimationFrame]
    gave out; handles count up from 1. *)
Record Tip : Type := mkTip {
  activeBar : option nat;
  show : bool;
  ariaHidden : bool;
  innerHTML : string;
  styleLeftTop : option (Q * Q);
  rafId : option nat;
  pending : list nat;
  lastHandle : nat
}.

Definition setActiveBar (v : option nat) (t : Tip) : Tip :=
  mkTip v (show t) (ariaHidden t) (innerHTML t) (styleLeftTop t) (rafId t)
        (pending t) (lastHandle t).
Definition setShow (v : bool) (t : Tip) : Tip :=
  mkTip (activeBar t) v (ariaHidden t) (innerHTML t) (styleLeftTop t) (rafId t)
        (pending t) (lastHandle t).
Definition setAriaHidden (v : bool) (t : Tip) : Tip :=
  mkTip (activeBar t) (show t) v (innerHTML t) (styleLeftTop t) (rafId t)
        (pending t) (lastHandle t).
Definition setInnerHTML (v : string) (t : Tip) : Tip :=
  mkTip (activeBar t) (show t) (ariaHidden t) v (styleLeftTop t) (rafId t)
        (pending t) (lastHandle t).
Definition setStyle (v : Q * Q) (t : Tip) : Tip :=
  mkTip (activeBar t) (show t) (ariaHidden t) (innerHTML t) (Some v) (rafId t)
        (pending t) (lastHandle t).
Definition setRafId (v : option nat) (t : Tip) : Tip :=
  mkTip (activeBar t) (show t) (ariaHidden t) (innerHTML t) (styleLeftTop t) v
        (pending t) (lastHandle t).

(** [requestAnimationFrame]: a new handle, and one more callback waiting. *)
Definition requestAnimationFrame (t : Tip) : nat * Tip :=
  let h := S (lastHandle t) in
  (h, mkTip (activeBar t) (show t) (ariaHidden t) (innerHTML t) (styleLeftTop t)
            (rafId t) (pending t ++ [h]) h).

(** [if (rafId)]: a handle is a number, 0 is falsy. *)
Definition truthyHandle (r : option nat) : bool :=
  match r with
  | Some h => negb (Nat.eqb h 0)
  | None => false
  end.

Definition scheduleTooltipPosition (t : Tip) : Tip :=
  if truthyHandle (rafId t) then t
  else let (h, t') := requestAnimationFrame t in setRafId (Some h) t'.

(** The statements of [hideTip], one state after the other. *)
Definition hideTipSteps (t : Tip) : list Tip :=
  let t1 := setShow false t in
  let t2 := setAriaHidden true t1 in
  let t3 := setActiveBar None t2 in
  [t1; t2; t3].

Definition hideTip (t : Tip) : Tip := last (hideTipSteps t) t.

(** The statements of [showTip]; building the content may throw, after the
    anchor has been set. *)
Definition showTipSteps (b : Bar) (t : Tip) : list Tip * option exn :=
  let t1 := setActiveBar (Some (bar_id b)) t in
  match buildTooltipContent (tooltipTitle b) (tooltipSub b) (tip_nivel b)
          (tip_inicio b) (tip_fin b) (tip_temas b) with
  | Throw e => ([t1], Some e)
  | Ok html =>
      let t2 := setInnerHTML html t1 in
      let t3 := setShow true t2 in
      let t4 := setAriaHidden false t3 in
      let t5 := scheduleTooltipPosition t4 in
      ([t1; t2; t3; t4; t5], None)
  end.

Definition Qlt_bool (a b : Q) : bool := negb (Qle_bool b a).

Definition clamp (value min max : Q) : Q := Qmax min (Qmin max value).

Definition updateTooltipPosition (lay : Layout) (t : Tip) : Tip :=
  match activeBar t with
  | None => t
  | Some a =>
      if negb (show t) then t
      else
        let p := panelRect lay in
        let b := barRect lay a in
        if Qlt_bool (right b) (left p) || Qlt_bool (right p) (left b) ||
           Qlt_bool (bottom b) (top p) || Qlt_bool (bottom p) (top b)
        then hideTip t
        else
          let padding := 12%Q in
          let tr := tooltipRect lay in
          let x := (left b - left p + width b / 2 - width tr / 2)%Q in
          let y := (top b - top p - height tr - 10)%Q in
          let y := if Qlt_bool y padding then (bottom b - top p + 10)%Q else y in
          let x := clamp x padding (width p - width tr - padding)%Q in
          let y := clamp y padding (height p - height tr - padding)%Q in
          setStyle (x, y) t
  end.

(** The callback given to [requestAnimationFrame]. *)
Definition frameCallback (lay : Layout) (t : Tip) : Tip :=
  updateTooltipPosition lay (setRafId None t).

(** A frame: the callbacks that wait are taken off the list and run. *)
Definition animationFrame (lay : Layout) (t : Tip) : Tip :=
  let waiting := pending t in
  let t0 := mkTip (activeBar t) (show t) (ariaHidden t) (innerHTML t)
                  (styleLeftTop t) (rafId t) [] (lastHandle t) in
  fold_left (fun s _ => frameCallback lay s) waiting t0.

(** What can happen to the controller. [KeyDown] is a key pressed on a bar
    (the document sees it too), [DocKeyDown] a key pressed elsewhere;
    [PointerDown] tells whether the pointer went down on a bar; [Render] is
    a new rendering pass. *)
Inductive Event : Type :=
| MouseEnter (b : Bar)
| MouseLeave (b : Bar)
| Focus (b : Bar)
| Blur (b : Bar)
| Click (b : Bar)
| KeyDown (b : Bar) (key : string)
| DocKeyDown (key : string)
| PointerDown (onBar : bool)
| Scroll
| Resize
| AnimationFrame (lay : Layout)
| Render.

Definition isEscape (key : string) : bool := String.eqb key "Escape".
Definition isActivation (key : string) : bool :=
  String.eqb key "Enter" || String.eqb key " ".

(** The states that the handlers of an event go through, in order. *)
Definition steps (t : Tip) (ev : Event) : list Tip :=
  match ev with
  | MouseEnter b | Focus b => fst (showTipSteps b t)
  | MouseLeave _ | Blur _ => hideTipSteps t
  | Click b =>
      if match activeBar t with
         | Some a => Nat.eqb a (bar_id b)
         | None => false
         end && show t
      then hideTipSteps t
      else fst (showTipSteps b t)
  | KeyDown b key =>
      let onBar := if isActivation key then fst (showTipSteps b t) else [] in
      let t' := last onBar t in
      onBar ++ (if isEscape key then hideTipSteps t' else [])
  | DocKeyDown key => if isEscape key then hideTipSteps t else []
  | PointerDown onBar =>
      if negb (show t) then []
      else if onBar then [] else hideTipSteps t
  | Scroll | Resize => [scheduleTooltipPosition t]
  | AnimationFrame lay => [animationFrame lay t]
  | Render => hideTipSteps t
  end.

Definition step (t : Tip) (ev : Event) : Tip := last (steps t ev) t.

Definition run (t : Tip) (evs : list Event) : Tip := fold_left step evs t.

(** The controller when the script has just been loaded. *)
Definition initial (handles : nat) : Tip :=
  mkTip None false true EmptyString None None [] handles.

(** The two states of the tooltip. *)
Inductive Phase : Type :=
| HIDDEN
| SHOWN (anchor : nat).

Definition phase (t : Tip) : Phase :=
  match activeBar t with
  | Some a => if show t then SHOWN a else HIDDEN
  | None => HIDDEN
  end.

End Tooltip.

(** Closed month ranges [[_start, _end]] that share a month; ranges that
    touch at one month share it. *)
Definition overlaps (a b : Seg) : bool :=
  JS.le (_start a) (_end b) && JS.le (_start b) (_end a).

(** The range of [a] contains month [m]. *)
Definition covers (m : Z) (a : Seg) : bool :=
  JS.le (_start a) (Num m) && JS.le (Num m) (_end a).

(** How many of the segments are open at month [m]. *)
Definition depthAt (m : Z) (l : list Seg) : nat :=
  List.length (filter (covers m) l).

(** ** Reasoning about JavaScript comparisons *)

Ltac js_unfold :=
  unfold overlaps, covers, compareSegs, JS.gt, JS.lt, JS.le, JS.ge, JS.cmp2,
    JS.add, JS.sub, JS.mul, JS.min, JS.max, JS.lift2, JS.or, JS.truthy,
    JS.isFinite in *.

Ltac js_bool :=
  repeat match goal with
  | H : Num _ = Num _ |- _ => inversion H; clear H
  | H : negb _ = true |- _ => apply negb_true_iff in H
  | H : negb _ = false |- _ => apply negb_false_iff in H
  | H : _ && _ = true |- _ => apply andb_true_iff in H; destruct H
  | H : _ && _ = false |- _ => apply andb_false_iff in H; destruct H
  | H : (_ >? _) = true |- _ => rewrite Z.gtb_ltb in H; apply Z.ltb_lt in H
  | H : (_ >? _) = false |- _ => rewrite Z.gtb_ltb in H; apply Z.ltb_ge in H
  | H : (_ <? _) = true |- _ => apply Z.ltb_lt in H
  | H : (_ <? _) = false |- _ => apply Z.ltb_ge in H
  | H : (_ <=? _) = true |- _ => apply Z.leb_le in H
  | H : (_ <=? _) = false |- _ => apply Z.leb_gt in H
  | H : (_ =? _) = true |- _ => apply Z.eqb_eq in H
  | H : (_ =? _) = false |- _ => apply Z.eqb_neq in H
  end;
  rewrite ?andb_true_iff, ?andb_false_iff, ?Z.gtb_ltb, ?Z.ltb_lt, ?Z.ltb_ge,
    ?Z.leb_le, ?Z.leb_gt.

(** Case analysis on every number in sight, then integer arithmetic. *)
Ltac js_solve :=
  intros; js_unfold;
  repeat match goal with
  | |- context [match ?x with NaN => _ | Num _ => _ end] =>
      destruct x eqn:?; simpl in *
  | H : context [match ?x with NaN => _ | Num _ => _ end] |- _ =>
      destruct x eqn:?; simpl in *
  | H : context [if ?b then _ else _] |- _ => destruct b eqn:?; simpl in *
  | |- context [if ?b then _ else _] => destruct b eqn:?; simpl in *
  end;
  try congruence; js_bool; try lia; try (intuition (congruence || lia)).

Section ComparisonFacts.
Implicit Types a b c : jsnum.

Lemma gt_le_false a b : JS.gt a b = true -> JS.le a b = false.
Proof. js_solve. Qed.

Lemma gt_trans_le a b c :
  JS.gt a b = true -> JS.le a c = true -> JS.gt c b = true.
Proof. js_solve. Qed.

Lemma gt_via_proper a b c d :
  JS.gt a b = true -> JS.gt a c = false -> JS.gt d c = true ->
  JS.gt d b = true.
Proof. js_solve. Qed.

End ComparisonFacts.

(** ** The row scan *)

Section AssignRow.
Variables s e : jsnum.

(** What one scan does, for a scan that starts at row [k]. *)
Lemma assignRow_from rowsEnd : forall k r rowsEnd',
  assignRow s e rowsEnd k = (r, rowsEnd') ->
  exists i, r = (k + i)%nat /\ (i <= List.length rowsEnd)%nat /\
    nth_error rowsEnd' i = Some e /\
    (forall j, j <> i -> nth_error rowsEnd' j = nth_error rowsEnd j) /\
    (forall x, nth_error rowsEnd i = Some x -> JS.gt s x = true) /\
    (forall j x, (j < i)%nat -> nth_error rowsEnd j = Some x ->
                 JS.gt s x = false).
Proof.
  induction rowsEnd as [|x rest IH]; intros k r rowsEnd' H; simpl in H.
  - inversion H; subst. exists 0%nat.
    split; [lia|]. split; [simpl; lia|]. split; [reflexivity|].
    split; [|split].
    + intros [|[|j]] Hj; try congruence; reflexivity.
    + intros x Hx. discriminate.
    + intros j x Hj. lia.
  - destruct (JS.gt s x) eqn:Hgt.
    + inversion H; subst. exists 0%nat.
      split; [lia|]. split; [simpl; lia|]. split; [reflexivity|].
      split; [|split].
      * intros [|j] Hj; [congruence | reflexivity].
      * intros y Hy. simpl in Hy. congruence.
      * intros j y Hj. lia.
    + destruct (assignRow s e rest (S k)) as [r1 rest1] eqn:Hrec.
      inversion H; subst.
      destruct (IH _ _ _ Hrec) as (i & -> & Hlen & Hi & Hother & Hgt' & Hlt).
      exists (S i).
      split; [lia|]. split; [simpl; lia|]. split; [exact Hi|].
      split; [|split].
      * intros [|j] Hj; [reflexivity | apply Hother; congruence].
      * intros y Hy. simpl in Hy. auto.
      * intros [|j] y Hj Hy; simpl in Hy.
        -- congruence.
        -- apply (Hlt j); [lia | assumption].
Qed.

Lemma assignRow_spec rowsEnd r rowsEnd' :
  assignRow s e rowsEnd 0 = (r, rowsEnd') ->
  (r <= List.length rowsEnd)%nat /\
  nth_error rowsEnd' r = Some e /\
  (forall j, j <> r -> nth_error rowsEnd' j = nth_error rowsEnd j) /\
  (forall x, nth_error rowsEnd r = Some x -> JS.gt s x = true) /\
  (forall j x, (j < r)%nat -> nth_error rowsEnd j = Some x ->
               JS.gt s x = false).
Proof.
  intros H. destruct (assignRow_from _ _ _ _ H) as (i & -> & Hrest).
  exact Hrest.
Qed.

(** A scan never closes a row: the list of ends keeps its length or
    grows by the one row that was opened. *)
Lemma assignRow_length rowsEnd r rowsEnd' :
  assignRow s e rowsEnd 0 = (r, rowsEnd') ->
  List.length rowsEnd' = Nat.max (List.length rowsEnd) (S r).
Proof.
  intros H. destruct (assignRow_spec _ _ _ H) as (Hr & Hnth & Hother & _).
  assert (Hlt : (r < List.length rowsEnd')%nat)
    by (apply nth_error_Some; congruence).
  destruct (Nat.lt_ge_cases (List.length rowsEnd') (Nat.max (List.length rowsEnd) (S r)))
    as [Hc|Hc].
  - (* too short: some old row would be lost *)
    assert (Hlost : nth_error rowsEnd' (List.length rowsEnd') = None)
      by (apply nth_error_None; lia).
    rewrite Hother in Hlost by lia.
    apply nth_error_None in Hlost. lia.
  - destruct (Nat.eq_dec (List.length rowsEnd') (Nat.max (List.length rowsEnd) (S r)))
      as [|Hne]; [assumption|].
    assert (Hin : (Nat.max (List.length rowsEnd) (S r) < List.length rowsEnd')%nat) by lia.
    apply nth_error_Some in Hin. rewrite Hother in Hin by lia.
    exfalso. apply Hin. apply nth_error_None. lia.
Qed.
End AssignRow.

(** ** The stacking loop *)

(** Two segments of an order of treatment go together when the earlier one
    does not end before it starts, or does not start after the later one. *)
Definition compat (a b : Seg) : Prop :=
  JS.gt (_start a) (_end a) = false \/ JS.le (_start a) (_start b) = true.

(** In a row, the later segment starts after the earlier one has ended. *)
Definition startsAfter (a b : Seg) : Prop :=
  _row a = _row b -> JS.gt (_start b) (_end a) = true.

Section StackLoop.

Lemma stackLoop_cons s rest rowsEnd placed final :
  stackLoop (s :: rest) rowsEnd = (placed, final) ->
  exists r rowsEnd' placed',
    assignRow (_start s) (_end s) rowsEnd 0 = (r, rowsEnd') /\
    stackLoop rest rowsEnd' = (placed', final) /\
    placed = setRow r s :: placed'.
Proof.
  simpl. destruct (assignRow _ _ rowsEnd 0) as [r rowsEnd'] eqn:Ha.
  destruct (stackLoop rest rowsEnd') as [placed' final'] eqn:Hl.
  intros H; inversion H; subst. eauto 6.
Qed.

(** The loop keeps every segment, in order, and only fills in the row. *)
Lemma stackLoop_shape l : forall rowsEnd placed final,
  stackLoop l rowsEnd = (placed, final) ->
  Forall2 (fun s p => exists r, p = setRow r s) l placed.
Proof.
  induction l as [|s rest IH]; intros rowsEnd placed final H.
  - inversion H; subst. constructor.
  - apply stackLoop_cons in H.
    destruct H as (r & rowsEnd' & placed' & _ & Hl & ->).
    constructor; eauto.
Qed.

Lemma stackLoop_In l rowsEnd placed final y :
  stackLoop l rowsEnd = (placed, final) -> In y placed ->
  exists y0 r, In y0 l /\ y = setRow r y0.
Proof.
  intros H Hy. apply stackLoop_shape in H.
  induction H as [|s p l' placed' [r Hp] _ IH]; simpl in *; [contradiction|].
  destruct Hy as [<-|Hy]; [eauto|].
  destruct (IH Hy) as (y0 & r' & Hin & ->). eauto.
Qed.

(** Rows are never closed, and every segment gets a row that exists at
    the end. *)
Lemma stackLoop_rows l : forall rowsEnd placed final,
  stackLoop l rowsEnd = (placed, final) ->
  (List.length rowsEnd <= List.length final)%nat /\
  Forall (fun y => exists r, _row y = Some r /\ (r < List.length final)%nat)
         placed.
Proof.
  induction l as [|s rest IH]; intros rowsEnd placed final H.
  - inversion H; subst. split; [lia | constructor].
  - apply stackLoop_cons in H.
    destruct H as (r & rowsEnd' & placed' & Ha & Hl & ->).
    destruct (IH _ _ _ Hl) as [Hlen Hall].
    apply assignRow_length in Ha.
    split; [lia|]. constructor; [|exact Hall].
    exists r. split; [reflexivity | lia].
Qed.

(** Whatever the loop puts in a row that was already open starts after the
    end that row had. *)
Lemma stackLoop_after_end l : forall rowsEnd placed final,
  stackLoop l rowsEnd = (placed, final) ->
  ForallOrdPairs compat l ->
  forall y r x, In y placed -> _row y = Some r ->
    nth_error rowsEnd r = Some x -> JS.gt (_start y) x = true.
Proof.
  induction l as [|s rest IH]; intros rowsEnd placed final H Hc y r x Hy Hr Hx.
  - inversion H; subst. contradiction.
  - apply stackLoop_cons in H.
    destruct H as (r0 & rowsEnd' & placed' & Ha & Hl & ->).
    inversion Hc as [|? ? Hs Hrest]; subst.
    destruct (assignRow_spec _ _ _ _ _ Ha) as (_ & Hnew & Hother & Hgt & _).
    destruct Hy as [<-|Hy].
    + simpl in Hr. inversion Hr; subst. simpl. eauto.
    + destruct (Nat.eq_dec r r0) as [->|Hne].
      * assert (Hy' : JS.gt (_start y) (_end s) = true)
          by (eapply IH; eauto).
        destruct (stackLoop_In _ _ _ _ _ Hl Hy) as (y0 & ry & Hin & ->).
        simpl in *. rewrite Forall_forall in Hs.
        destruct (Hs _ Hin) as [Hproper|Hle].
        -- eapply gt_via_proper; eauto.
        -- eapply gt_trans_le; eauto.
      * eapply IH; eauto. rewrite Hother; auto.
Qed.

(** Within a row, each segment starts after the end of every earlier one. *)
Lemma stackLoop_chain l : forall rowsEnd placed final,
  stackLoop l rowsEnd = (placed, final) ->
  ForallOrdPairs compat l ->
  ForallOrdPairs startsAfter placed.
Proof.
  induction l as [|s rest IH]; intros rowsEnd placed final H Hc.
  - inversion H; subst. constructor.
  - apply stackLoop_cons in H.
    destruct H as (r0 & rowsEnd' & placed' & Ha & Hl & ->).
    inversion Hc as [|? ? Hs Hrest]; subst.
    destruct (assignRow_spec _ _ _ _ _ Ha) as (_ & Hnew & _).
    constructor; [|eauto].
    apply Forall_forall. intros y Hy Hrow. simpl in *.
    eapply stackLoop_after_end; eauto.
Qed.
End StackLoop.

(** ** The sort *)

Section SortFacts.
Context {A : Type} (cmp : A -> A -> jsnum).

Lemma insertBack_perm x racc :
  Permutation (ArraySort.insertBack cmp x racc) (x :: racc).
Proof.
  induction racc as [|y t IH]; simpl; [reflexivity|].
  destruct (ArraySort.sortCompare cmp y x >? 0); [|reflexivity].
  rewrite IH. apply perm_swap.
Qed.

Lemma sort_perm l : Permutation (ArraySort.sort cmp l) l.
Proof.
  unfold ArraySort.sort. rewrite <- Permutation_rev.
  assert (G : forall racc,
    Permutation (fold_left (fun racc x => ArraySort.insertBack cmp x racc) l racc)
                (l ++ racc)).
  { induction l as [|x t IH]; intros racc; simpl; [reflexivity|].
    rewrite IH, insertBack_perm. symmetry. apply Permutation_middle. }
  rewrite G, app_nil_r. reflexivity.
Qed.

(** With an order [R] that the comparator decides, the result is sorted. *)
Variable R : A -> A -> Prop.
Hypothesis R_trans : forall a b c, R a b -> R b c -> R a c.

Lemma insertBack_sorted x racc :
  (forall y, In y racc -> ArraySort.sortCompare cmp y x > 0 -> R x y) ->
  (forall y, In y racc -> ArraySort.sortCompare cmp y x <= 0 -> R y x) ->
  ForallOrdPairs (fun a b => R b a) racc ->
  ForallOrdPairs (fun a b => R b a) (ArraySort.insertBack cmp x racc).
Proof.
  intros Hgt Hle Hs. induction Hs as [|y t Hy Ht IH]; simpl.
  - constructor; constructor.
  - destruct (ArraySort.sortCompare cmp y x >? 0) eqn:Hc.
    + apply Z.gtb_lt in Hc. constructor.
      * apply Forall_forall. intros z Hz.
        apply (Permutation_in _ (insertBack_perm x t)) in Hz.
        destruct Hz as [<-|Hz].
        -- apply Hgt; [left; reflexivity | lia].
        -- rewrite Forall_forall in Hy. auto.
      * apply IH; intros z Hz; [apply Hgt | apply Hle]; right; assumption.
    + rewrite Z.gtb_ltb in Hc. apply Z.ltb_ge in Hc.
      assert (Hyx : R y x) by (apply Hle; [left; reflexivity | assumption]).
      constructor; [|constructor; assumption].
      constructor; [assumption|].
      rewrite Forall_forall in Hy |- *. intros z Hz. eauto.
Qed.
End SortFacts.

Section OrderedPairs.
Context {A : Type}.

Lemma FOP_app (R : A -> A -> Prop) l1 l2 :
  ForallOrdPairs R l1 -> ForallOrdPairs R l2 ->
  (forall a b, In a l1 -> In b l2 -> R a b) ->
  ForallOrdPairs R (l1 ++ l2).
Proof.
  intros H1 H2 H12. induction H1 as [|a l Ha Hl IH]; simpl; [assumption|].
  constructor.
  - apply Forall_app. split; [assumption|].
    apply Forall_forall. intros b Hb. apply H12; [left; reflexivity | assumption].
  - apply IH. intros x y Hx Hy. apply H12; [right|]; assumption.
Qed.

Lemma FOP_rev (R : A -> A -> Prop) l :
  ForallOrdPairs (fun a b => R b a) l -> ForallOrdPairs R (rev l).
Proof.
  induction 1 as [|a l Ha Hl IH]; simpl; [constructor|].
  apply FOP_app; [assumption | constructor; constructor |].
  intros x y Hx [<-|[]]. apply in_rev in Hx.
  rewrite Forall_forall in Ha. auto.
Qed.

Lemma FOP_impl (R S : A -> A -> Prop) l :
  (forall a b, In a l -> In b l -> R a b -> S a b) ->
  ForallOrdPairs R l -> ForallOrdPairs S l.
Proof.
  intros HRS H. induction H as [|a l Ha Hl IH]; constructor.
  - rewrite Forall_forall in Ha |- *. intros b Hb.
    apply HRS; [left; reflexivity | right; assumption | auto].
  - apply IH. intros x y Hx Hy. apply HRS; right; assumption.
Qed.

Lemma FOP_of_Forall (P : A -> Prop) (R : A -> A -> Prop) l :
  (forall a b, P a -> R a b) -> Forall P l -> ForallOrdPairs R l.
Proof.
  intros HPR H. induction H as [|a l Ha Hl IH]; constructor; [|assumption].
  apply Forall_forall. auto.
Qed.

(** Pairs of positions, the earlier one first. *)
Lemma FOP_nth (R : A -> A -> Prop) l :
  ForallOrdPairs R l ->
  forall i j a b, (i < j)%nat -> nth_error l i = Some a ->
    nth_error l j = Some b -> R a b.
Proof.
  induction 1 as [|x l Hx Hl IH]; intros i j a b Hij Hi Hj.
  - destruct i; discriminate.
  - destruct j as [|j]; [lia|]. simpl in Hj. destruct i as [|i]; simpl in Hi.
    + inversion Hi; subst. rewrite Forall_forall in Hx.
      apply Hx. eapply nth_error_In; eauto.
    + apply (IH i j); auto with arith.
Qed.
End OrderedPairs.

Section SortSorted.
Context {A : Type} (cmp : A -> A -> jsnum).
Variable P : A -> Prop.
Variable R : A -> A -> Prop.
Hypothesis R_trans : forall a b c, R a b -> R b c -> R a c.
Hypothesis cmp_gt : forall x y, P x -> P y ->
  ArraySort.sortCompare cmp y x > 0 -> R x y.
Hypothesis cmp_le : forall x y, P x -> P y ->
  ArraySort.sortCompare cmp y x <= 0 -> R y x.

Lemma sort_sorted l : Forall P l -> ForallOrdPairs R (ArraySort.sort cmp l).
Proof.
  intros Hl. unfold ArraySort.sort. apply FOP_rev.
  assert (G : forall racc, Forall P racc ->
    ForallOrdPairs (fun a b => R b a) racc ->
    ForallOrdPairs (fun a b => R b a)
      (fold_left (fun racc x => ArraySort.insertBack cmp x racc) l racc)).
  { induction Hl as [|x t Hx Ht IH]; intros racc Hracc Hs; simpl; [assumption|].
    rewrite Forall_forall in Hracc.
    apply IH.
    - apply Forall_forall. intros y Hy.
      apply (Permutation_in _ (insertBack_perm cmp x racc)) in Hy.
      destruct Hy as [<-|Hy]; auto.
    - apply insertBack_sorted; auto. }
  apply G; constructor.
Qed.
End SortSorted.

Definition startsNoLater (a b : Seg) : Prop :=
  JS.le (_start a) (_start b) = true.

Definition numericStart (s : Seg) : Prop := JS.isFinite (_start s) = true.

(** Segments whose starts are all numbers come out of the sort in order of
    start. *)
Lemma sort_by_start l :
  Forall numericStart l ->
  ForallOrdPairs startsNoLater (ArraySort.sort compareSegs l).
Proof.
  apply sort_sorted; unfold numericStart, startsNoLater, ArraySort.sortCompare.
  - intros a b c. js_solve.
  - intros x y. js_solve.
  - intros x y. js_solve.
Qed.

(** ** Stacking: rows hold disjoint ranges *)

Definition notInverted (s : Seg) : Prop := JS.gt (_start s) (_end s) = false.

(** A start that is not after the end, both being numbers. *)
Definition proper (s : Seg) : Prop := JS.le (_start s) (_end s) = true.

Lemma proper_numericStart s : proper s -> numericStart s.
Proof. unfold proper, numericStart. js_solve. Qed.

(** No two positions of the list carry the same row and ranges that share a
    month. *)
Definition rowsDisjoint (l : list Seg) : Prop :=
  forall i j a b, i <> j ->
    nth_error l i = Some a -> nth_error l j = Some b ->
    _row a = _row b -> overlaps a b = false.

Lemma stackOverlaps_unfold items sy mapped :
  mapM (toSeg sy) items = Ok mapped ->
  stackOverlaps items sy =
    Ok (mkStacked (fst (stackLoop (ArraySort.sort compareSegs mapped) []))
          (List.length (snd (stackLoop (ArraySort.sort compareSegs mapped) [])))).
Proof.
  intros H. unfold stackOverlaps. rewrite H. simpl.
  destruct (stackLoop _ _); reflexivity.
Qed.

Lemma startsAfter_disjoint l : ForallOrdPairs startsAfter l -> rowsDisjoint l.
Proof.
  intros H i j a b Hij Hi Hj Hrow.
  destruct (Nat.lt_ge_cases i j) as [Hlt|Hge].
  - pose proof (FOP_nth _ _ H i j a b Hlt Hi Hj Hrow) as Hgt.
    unfold overlaps. rewrite (gt_le_false _ _ Hgt). apply andb_false_r.
  - assert (Hlt : (j < i)%nat) by lia.
    pose proof (FOP_nth _ _ H j i b a Hlt Hj Hi (eq_sym Hrow)) as Hgt.
    unfold overlaps. rewrite (gt_le_false _ _ Hgt). reflexivity.
Qed.

Lemma compat_of_sorted l :
  ForallOrdPairs startsNoLater l -> ForallOrdPairs compat l.
Proof. apply FOP_impl. intros a b _ _ H. right. exact H. Qed.

Lemma compat_of_notInverted l :
  Forall notInverted l -> ForallOrdPairs compat l.
Proof. apply FOP_of_Forall. intros a b H. left. exact H. Qed.

Lemma sort_Forall (P : Seg -> Prop) l :
  Forall P l -> Forall P (ArraySort.sort compareSegs l).
Proof.
  intros H. rewrite Forall_forall in *. intros x Hx. apply H.
  eapply Permutation_in; [apply sort_perm | exact Hx].
Qed.

Lemma stacking_order_compat mapped :
  Forall numericStart mapped \/ Forall notInverted mapped ->
  ForallOrdPairs compat (ArraySort.sort compareSegs mapped).
Proof.
  intros [H|H].
  - apply compat_of_sorted, sort_by_start, H.
  - apply compat_of_notInverted, sort_Forall, H.
Qed.

(** A record with string dates and nothing else. *)
Definition period (a b : string) : Item :=
  mkItem (JStr a) (JStr b) JUndefined JUndefined JUndefined JUndefined None.

(** *** Intervals of the data model *)

(** A record is an interval when both of its dates parse and its start month
    is not after its end month, as it is whenever the start date is not
    after the end date ([isInterval_of_dates] below). *)
Definition isInterval (i : Item) : bool :=
  match parseDate (inicio i), parseDate (fin i) with
  | Ok s, Ok e => JS.le (monthIndex s (Num 0)) (monthIndex e (Num 0))
  | _, _ => false
  end.

(** The month coordinates that [stackOverlaps] gives a record. *)
Definition monthRange (sy : jsnum) (i : Item) : result (jsnum * jsnum) :=
  s <- toSeg sy i ;; Ok (_start s, _end s).

(** The segment carries the coordinates of its record. *)
Definition ofItsRecord (sy : jsnum) (s : Seg) : Prop :=
  monthRange sy (it s) = Ok (_start s, _end s).

Lemma isInterval_toSeg sy i :
  isInterval i = true ->
  exists s, toSeg (Num sy) i = Ok s /\ it s = i /\ proper s /\
    ofItsRecord (Num sy) s.
Proof.
  unfold isInterval, ofItsRecord, monthRange, toSeg.
  destruct (parseDate (inicio i)) as [d1|] eqn:E1; [|discriminate].
  destruct (parseDate (fin i)) as [d2|] eqn:E2; [|discriminate].
  destruct d1 as [|n1]; [discriminate|].
  destruct d2 as [|n2]; [destruct (civilFromDays n1); discriminate|].
  intros H. cbn [JS.bind]. eexists. split; [reflexivity|].
  cbn [it _start _end]. split; [reflexivity|].
  split; [|rewrite E1, E2; reflexivity].
  unfold proper. cbn [_start _end].
  unfold monthIndex, getFullYear, getMonth in *.
  cbn [JS.add JS.sub JS.mul JS.lift2 JS.le JS.cmp2] in *.
  apply Z.leb_le in H. apply Z.leb_le. lia.
Qed.

Lemma mapM_toSeg_intervals sy items :
  forallb isInterval items = true ->
  exists mapped, mapM (toSeg (Num sy)) items = Ok mapped /\
    map it mapped = items /\ Forall proper mapped /\
    Forall (ofItsRecord (Num sy)) mapped.
Proof.
  induction items as [|i t IH]; cbn [forallb]; intros H.
  - exists []. repeat split; constructor.
  - apply andb_true_iff in H. destruct H as [Hi Ht].
    destruct (isInterval_toSeg sy i Hi) as (s & Es & Eit & Hp & Hr).
    destruct (IH Ht) as (mapped & Em & Emap & Hall & Hrec).
    exists (s :: mapped). cbn [mapM]. rewrite Es, Em. cbn [JS.bind].
    split; [reflexivity|]. split; [cbn [map]; congruence|].
    split; constructor; assumption.
Qed.

(** The loop keeps the records and their coordinates. *)
Lemma placed_keeps l placed :
  Forall2 (fun s p => exists r, p = setRow r s) l placed ->
  map it placed = map it l /\
  forall P : Seg -> Prop,
    (forall s r, P s -> P (setRow r s)) -> Forall P l -> Forall P placed.
Proof.
  induction 1 as [|s p l' placed' [r ->] _ [IH1 IH2]].
  - split; [reflexivity | auto].
  - split; [cbn [map setRow it]; congruence|].
    intros P HP Hl. inversion Hl; subst. constructor; [apply HP; assumption|].
    apply IH2; assumption.
Qed.

(** What [stackOverlaps] returns on intervals: the records, each with its
    coordinates, in order of start month. *)
Lemma stackOverlaps_intervals items sy :
  forallb isInterval items = true ->
  exists mapped placed final,
    mapM (toSeg (Num sy)) items = Ok mapped /\
    map it mapped = items /\ Forall proper mapped /\
    Forall (ofItsRecord (Num sy)) mapped /\
    stackLoop (ArraySort.sort compareSegs mapped) [] = (placed, final) /\
    stackOverlaps items (Num sy) = Ok (mkStacked placed (List.length final)) /\
    Permutation (map it placed) items /\
    Forall (ofItsRecord (Num sy)) placed.
Proof.
  intros H.
  destruct (mapM_toSeg_intervals sy items H) as (mapped & Hm & Hit & Hp & Hrec).
  destruct (stackLoop (ArraySort.sort compareSegs mapped) []) as [placed final] eqn:Hl.
  exists mapped, placed, final.
  split; [exact Hm|]. split; [exact Hit|]. split; [exact Hp|].
  split; [exact Hrec|]. split; [exact Hl|].
  split; [rewrite (stackOverlaps_unfold _ _ _ Hm), Hl; reflexivity|].
  destruct (placed_keeps _ _ (stackLoop_shape _ _ _ _ Hl)) as [Hkeep HP].
  split.
  - rewrite Hkeep, <- Hit. apply Permutation_map, sort_perm.
  - apply HP; [intros s r Hs; exact Hs | apply sort_Forall, Hrec].
Qed.

(** Claim C1.  For every list of intervals and every start year,
    [stackOverlaps] returns the records, each with the month coordinates of
    its dates, and no two segments with the same row have ranges that share
    a month; ranges touching at one month count as sharing it. *)
Theorem stackOverlaps_rows_disjoint items sy :
  forallb isInterval items = true ->
  exists st, stackOverlaps items (Num sy) = Ok st /\
    Permutation (map it (segs st)) items /\
    Forall (ofItsRecord (Num sy)) (segs st) /\
    rowsDisjoint (segs st).
Proof.
  intros H.
  destruct (stackOverlaps_intervals items sy H)
    as (mapped & placed & final & Hm & Hit & Hp & Hrec & Hl & Hst & Hperm & Hrecp).
  eexists. split; [exact Hst|]. cbn [segs].
  split; [exact Hperm|]. split; [exact Hrecp|].
  apply startsAfter_disjoint.
  eapply stackLoop_chain; [exact Hl|].
  apply compat_of_sorted, sort_by_start.
  eapply Forall_impl; [apply proper_numericStart | exact Hp].
Qed.

Definition overlappingPair : list Item :=
  [period "2010-01-01" "2012-01-01"; period "2011-01-01" "2013-01-01"].

Lemma stackOverlaps_rows_disjoint_witness :
  exists st, stackOverlaps overlappingPair (Num 1997) = Ok st /\
    Permutation (map it (segs st)) overlappingPair /\
    Forall (ofItsRecord (Num 1997)) (segs st) /\
    rowsDisjoint (segs st).
Proof.
  apply (stackOverlaps_rows_disjoint overlappingPair 1997). reflexivity.
Defined.

Definition coordinates (r : result Stacked) : list (jsnum * jsnum * option nat) :=
  match r with
  | Ok st => map (fun x => (_start x, _end x, _row x)) (segs st)
  | Throw _ => []
  end.

(** Two periods that overlap get rows 0 and 1; three that follow one
    another, given out of order, all get row 0. *)
Example stackOverlaps_two_overlapping :
  coordinates (stackOverlaps overlappingPair (Num 1997)) =
    [(Num 156, Num 180, Some 0%nat); (Num 168, Num 192, Some 1%nat)].
Proof. reflexivity. Qed.

Example stackOverlaps_three_in_a_row :
  coordinates (stackOverlaps [period "2005-01-01" "2006-12-01";
                              period "2001-01-01" "2002-12-01";
                              period "2003-01-01" "2004-12-01"] (Num 1997)) =
    [(Num 48, Num 71, Some 0%nat); (Num 72, Num 95, Some 0%nat);
     (Num 96, Num 119, Some 0%nat)].
Proof. reflexivity. Qed.

(** ** Stacking: the number of rows is the greatest depth *)

Section Depth.
Variable m : Z.

Lemma depthAt_app l1 l2 :
  depthAt m (l1 ++ l2) = (depthAt m l1 + depthAt m l2)%nat.
Proof. unfold depthAt. rewrite filter_app, length_app. reflexivity. Qed.

Lemma covers_overlaps a b :
  covers m a = true -> covers m b = true -> overlaps a b = true.
Proof. js_solve. Qed.

(** Segments open at a common month sit in different rows. *)
Lemma covering_rows_NoDup l :
  ForallOrdPairs startsAfter l -> NoDup (map _row (filter (covers m) l)).
Proof.
  induction 1 as [|a l Ha Hl IH]; simpl; [constructor|].
  destruct (covers m a) eqn:Hcov; [|assumption].
  simpl. constructor; [|assumption].
  intros Hin. apply in_map_iff in Hin. destruct Hin as (b & Hrow & Hb).
  apply filter_In in Hb. destruct Hb as [Hb Hcovb].
  rewrite Forall_forall in Ha.
  pose proof (Ha b Hb (eq_sym Hrow)) as Hgt.
  pose proof (covers_overlaps _ _ Hcov Hcovb) as Hov.
  unfold overlaps in Hov. rewrite (gt_le_false _ _ Hgt), andb_false_r in Hov.
  discriminate.
Qed.

Lemma rows_below n l :
  Forall (fun y => exists r, _row y = Some r /\ (r < n)%nat) l ->
  incl (map _row (filter (covers m) l)) (map Some (seq 0 n)).
Proof.
  intros H o Ho. apply in_map_iff in Ho. destruct Ho as (y & <- & Hy).
  apply filter_In in Hy. destruct Hy as [Hy _].
  rewrite Forall_forall in H. destruct (H y Hy) as (r & -> & Hr).
  apply in_map, in_seq. lia.
Qed.

Lemma depth_le_rows n l :
  ForallOrdPairs startsAfter l ->
  Forall (fun y => exists r, _row y = Some r /\ (r < n)%nat) l ->
  (depthAt m l <= n)%nat.
Proof.
  intros Hc Hr. unfold depthAt.
  pose proof (NoDup_incl_length (covering_rows_NoDup l Hc) (rows_below n l Hr))
    as H.
  rewrite !length_map, length_seq in H. exact H.
Qed.

(** One segment open at [m] in each of [n] rows makes the depth at least
    [n]. *)
Lemma rows_le_depth n l :
  (forall r, (r < n)%nat ->
     exists y, In y l /\ _row y = Some r /\ covers m y = true) ->
  (n <= depthAt m l)%nat.
Proof.
  intros H. unfold depthAt.
  assert (Hnd : NoDup (map (@Some nat) (seq 0 n))).
  { apply Finite.Injective_map_NoDup; [|apply seq_NoDup].
    intros x y Hxy. congruence. }
  assert (Hincl : incl (map (@Some nat) (seq 0 n))
                       (map _row (filter (covers m) l))); cycle 1.
  { pose proof (NoDup_incl_length Hnd Hincl) as HL.
    rewrite !length_map, length_seq in HL. exact HL. }
  - intros o Ho. apply in_map_iff in Ho. destruct Ho as (r & <- & Hr).
    apply in_seq in Hr. destruct (H r) as (y & Hy & Hrow & Hcov); [lia|].
    rewrite <- Hrow. apply in_map, filter_In. auto.
Qed.
End Depth.

(** Every open row ends with a segment already placed in it, a proper one
    that starts no later than what is still to come. *)
Definition rowTops (pre : list Seg) (rowsEnd : list jsnum) (rest : list Seg)
  : Prop :=
  forall r x, nth_error rowsEnd r = Some x ->
    exists y, In y pre /\ _row y = Some r /\ _end y = x /\ proper y /\
              Forall (startsNoLater y) rest.

Lemma new_row_depth pre rowsEnd s rest z r rowsEnd' :
  rowTops pre rowsEnd (s :: rest) ->
  proper s -> _start s = Num z ->
  assignRow (_start s) (_end s) rowsEnd 0 = (r, rowsEnd') ->
  r = List.length rowsEnd ->
  (S (List.length rowsEnd) <= depthAt z (pre ++ [setRow r s]))%nat.
Proof.
  intros Htops Hs Hz Ha ->. apply rows_le_depth. intros r Hr.
  destruct (assignRow_spec _ _ _ _ _ Ha) as (_ & _ & _ & _ & Hscan).
  destruct (Nat.eq_dec r (List.length rowsEnd)) as [->|Hne].
  - exists (setRow (List.length rowsEnd) s). split; [|split].
    + apply in_or_app. right. left. reflexivity.
    + reflexivity.
    + unfold proper in Hs. unfold covers. simpl. rewrite Hz in *.
      js_solve.
  - assert (Hlt : (r < List.length rowsEnd)%nat) by lia.
    destruct (nth_error rowsEnd r) as [x|] eqn:Hx;
      [|apply nth_error_None in Hx; lia].
    destruct (Htops r x Hx) as (y & Hy & Hrow & Hend & Hproper & Hle).
    exists y. split; [apply in_or_app; left; exact Hy|]. split; [exact Hrow|].
    pose proof (Hscan r x Hlt Hx) as Hngt.
    inversion Hle as [|? ? Hys _]; subst.
    unfold startsNoLater in Hys. unfold proper in Hproper. unfold covers.
    rewrite Hz in *. js_solve.
Qed.

Lemma stackLoop_depth rest : forall pre rowsEnd placed final,
  stackLoop rest rowsEnd = (placed, final) ->
  ForallOrdPairs startsNoLater rest -> Forall proper rest ->
  rowTops pre rowsEnd rest ->
  (exists m, (List.length rowsEnd <= depthAt m pre)%nat) ->
  exists m, (List.length final <= depthAt m (pre ++ placed))%nat.
Proof.
  induction rest as [|s rest IH]; intros pre rowsEnd placed final H Hsorted Hprop Htops Hdepth.
  - inversion H; subst. rewrite app_nil_r. exact Hdepth.
  - apply stackLoop_cons in H.
    destruct H as (r & rowsEnd' & placed' & Ha & Hl & ->).
    inversion Hsorted as [|? ? Hs Hrest]; subst.
    inversion Hprop as [|? ? Hps Hprest]; subst.
    destruct (assignRow_spec _ _ _ _ _ Ha) as (Hr & Hnew & Hother & _).
    pose proof (assignRow_length _ _ _ _ _ Ha) as Hlen.
    replace (pre ++ setRow r s :: placed') with ((pre ++ [setRow r s]) ++ placed')
      by (rewrite <- app_assoc; reflexivity).
    apply (IH _ rowsEnd'); auto.
    + (* the tops of the rows after this step *)
      intros r' x Hx. destruct (Nat.eq_dec r' r) as [->|Hne].
      * exists (setRow r s). rewrite Hnew in Hx. inversion Hx; subst.
        split; [apply in_or_app; right; left; reflexivity|].
        repeat split; auto.
      * rewrite Hother in Hx by assumption.
        destruct (Htops r' x Hx) as (y & Hy & Hrow & Hend & Hproper & Hle).
        exists y. split; [apply in_or_app; left; exact Hy|].
        inversion Hle; subst. repeat split; auto.
    + (* the depth reached so far *)
      destruct (Nat.eq_dec r (List.length rowsEnd)) as [Heq|Hne].
      * assert (Hz : exists z, _start s = Num z).
        { unfold proper in Hps. destruct (_start s); [js_solve | eauto]. }
        destruct Hz as [z Hz]. exists z.
        replace (List.length rowsEnd') with (S (List.length rowsEnd)) by lia.
        eapply new_row_depth; eauto.
      * destruct Hdepth as [m Hm]. exists m.
        rewrite depthAt_app. lia.
Qed.

(** The depth on segments whose starts are not after their ends. *)
Lemma stackLoop_rowCount_is_depth sorted placed final :
  stackLoop sorted [] = (placed, final) ->
  ForallOrdPairs startsNoLater sorted -> Forall proper sorted ->
  (forall m, (depthAt m placed <= List.length final)%nat) /\
  (exists m, depthAt m placed = List.length final).
Proof.
  intros Hl Hsorted Hproper.
  assert (Hchain : ForallOrdPairs startsAfter placed).
  { eapply stackLoop_chain; [exact Hl | apply compat_of_sorted, Hsorted]. }
  destruct (stackLoop_rows _ _ _ _ Hl) as [_ Hrows].
  assert (Hle : forall m, (depthAt m placed <= List.length final)%nat).
  { intros m. apply depth_le_rows; assumption. }
  split; [exact Hle|].
  destruct (stackLoop_depth _ [] [] placed final Hl Hsorted Hproper) as [m Hmge].
  - intros r x Hx. destruct r; discriminate.
  - exists 0. simpl. lia.
  - exists m. simpl in Hmge. specialize (Hle m). lia.
Qed.

(** The record is open at month [m]: its range of months, counted from
    January of [sy], contains [m]. *)
Definition itemCovers (sy : jsnum) (m : Z) (i : Item) : bool :=
  match monthRange sy i with
  | Ok (a, e) => JS.le a (Num m) && JS.le (Num m) e
  | Throw _ => false
  end.

(** How many of the records are open at month [m]. *)
Definition openAt (sy : jsnum) (m : Z) (items : list Item) : nat :=
  List.length (filter (itemCovers sy m) items).

Lemma depthAt_perm m l l' : Permutation l l' -> depthAt m l = depthAt m l'.
Proof.
  unfold depthAt. induction 1 as [|x l1 l2 _ IH|x y l1|l1 l2 l3 _ IH1 _ IH2];
    cbn [filter].
  - reflexivity.
  - destruct (covers m x); cbn [List.length]; congruence.
  - destruct (covers m x), (covers m y); reflexivity.
  - congruence.
Qed.

Lemma depthAt_placed m l placed :
  Forall2 (fun s p => exists r, p = setRow r s) l placed ->
  depthAt m placed = depthAt m l.
Proof.
  unfold depthAt. induction 1 as [|s p l' placed' [r ->] _ IH]; [reflexivity|].
  cbn [filter]. change (covers m (setRow r s)) with (covers m s).
  destruct (covers m s); cbn [List.length]; congruence.
Qed.

Lemma depthAt_records sy m l :
  Forall (ofItsRecord sy) l -> depthAt m l = openAt sy m (map it l).
Proof.
  unfold depthAt, openAt. induction 1 as [|s l' Hs _ IH]; [reflexivity|].
  cbn [map filter]. unfold itemCovers at 1. unfold ofItsRecord in Hs. rewrite Hs.
  fold (covers m s).
  destruct (covers m s); cbn [List.length]; congruence.
Qed.

Lemma openAt_perm sy m l l' : Permutation l l' -> openAt sy m l = openAt sy m l'.
Proof.
  unfold openAt. induction 1 as [|x l1 l2 _ IH|x y l1|l1 l2 l3 _ IH1 _ IH2];
    cbn [filter].
  - reflexivity.
  - destruct (itemCovers sy m x); cbn [List.length]; congruence.
  - destruct (itemCovers sy m x), (itemCovers sy m y); reflexivity.
  - congruence.
Qed.

(** Claim C2.  For every list of intervals and every start year,
    [stackOverlaps] returns the records, and its [rowCount] is the greatest
    number of records open at one month: no month has more records open
    than there are rows, and some month has exactly that many. *)
Theorem stackOverlaps_rowCount_is_depth items sy :
  forallb isInterval items = true ->
  exists st, stackOverlaps items (Num sy) = Ok st /\
    Permutation (map it (segs st)) items /\
    (forall m, (openAt (Num sy) m items <= rowCount st)%nat) /\
    (exists m, openAt (Num sy) m items = rowCount st).
Proof.
  intros H.
  destruct (stackOverlaps_intervals items sy H)
    as (mapped & placed & final & Hm & Hit & Hp & Hrec & Hl & Hst & Hperm & Hrecp).
  eexists. split; [exact Hst|]. cbn [segs rowCount].
  split; [exact Hperm|].
  assert (Hopen : forall m, openAt (Num sy) m items = depthAt m placed).
  { intros m. rewrite (depthAt_records (Num sy) m placed Hrecp).
    apply openAt_perm. symmetry. exact Hperm. }
  destruct (stackLoop_rowCount_is_depth _ _ _ Hl) as [Hle [m Hm']].
  - apply sort_by_start.
    eapply Forall_impl; [apply proper_numericStart | exact Hp].
  - apply sort_Forall, Hp.
  - split; [intros m0; rewrite Hopen; apply Hle|].
    exists m. rewrite Hopen. exact Hm'.
Qed.

Lemma stackOverlaps_rowCount_is_depth_witness :
  exists st, stackOverlaps overlappingPair (Num 1997) = Ok st /\
    Permutation (map it (segs st)) overlappingPair /\
    (forall m, (openAt (Num 1997) m overlappingPair <= rowCount st)%nat) /\
    (exists m, openAt (Num 1997) m overlappingPair = rowCount st).
Proof.
  apply (stackOverlaps_rowCount_is_depth overlappingPair 1997). reflexivity.
Defined.

(** ** The bounds of the timeline *)

(** The start year and the end year of a record, as the loop of
    [getTimelineBounds] reads them. *)
Definition years (i : Item) : result (jsnum * jsnum) :=
  s <- parseDate (inicio i) ;;
  e <- parseDate (fin i) ;;
  Ok (getFullYear s, getFullYear e).

(** Both dates of the record are strings that parse to a date. *)
Definition validDates (i : Item) : Prop :=
  exists ys ye, years i = Ok (Num ys, Num ye).

Definition startOf (i : Item) : jsnum :=
  match years i with Ok p => fst p | Throw _ => NaN end.

Definition endOf (i : Item) : jsnum :=
  match years i with Ok p => snd p | Throw _ => NaN end.

Definition throws (i : Item) : Prop := years i = Throw TypeError.

Lemma throws_dec i : {throws i} + {~ throws i}.
Proof.
  unfold throws. destruct (years i) as [p|[]]; [right; discriminate | left; reflexivity].
Defined.

Lemma widen_years acc i :
  widen acc i =
    (p <- years i ;; Ok (JS.min (fst acc) (fst p), JS.max (snd acc) (snd p))).
Proof.
  unfold widen, years.
  destruct (parseDate (inicio i)); simpl; [|reflexivity].
  destruct (parseDate (fin i)); reflexivity.
Qed.

(** Folding [Math.min] or [Math.max] over the years of a list. *)
Section Extremum.
Variable op : Z -> Z -> Z.
Variable ord : Z -> Z -> Prop.
Variable f : Item -> jsnum.
Hypothesis op_choice : forall a b, op a b = a \/ op a b = b.
Hypothesis op_l : forall a b, ord (op a b) a.
Hypothesis op_r : forall a b, ord (op a b) b.
Hypothesis ord_refl : forall a, ord a a.
Hypothesis ord_trans : forall a b c, ord a b -> ord b c -> ord a c.
Hypothesis ord_antisym : forall a b, ord a b -> ord b a -> a = b.

Definition over (l : list Item) (a : jsnum) : jsnum :=
  fold_left (fun acc x => JS.lift2 op acc (f x)) l a.

(** [z] is the extremum of [a] and of the numbers that [f] gives on [l]. *)
Definition extremum (z a : Z) (l : list Item) : Prop :=
  ord z a /\
  (forall x w, In x l -> f x = Num w -> ord z w) /\
  (z = a \/ exists x, In x l /\ f x = Num z).

Lemma over_NaN l : over l NaN = NaN.
Proof. induction l; simpl; auto. Qed.

Lemma over_has_NaN l : forall a,
  Exists (fun x => f x = NaN) l -> over l a = NaN.
Proof.
  induction l as [|x t IH]; intros a H; inversion H; subst; simpl.
  - rewrite H1. destruct a; apply over_NaN.
  - apply IH. assumption.
Qed.

Lemma over_numbers l : forall a,
  Forall (fun x => exists w, f x = Num w) l ->
  exists z, over l (Num a) = Num z /\ extremum z a l.
Proof.
  induction l as [|x t IH]; intros a H; simpl.
  - exists a. split; [reflexivity|]. repeat split; auto. intros x w [].
  - inversion H as [|? ? [w Hw] Ht]; subst. rewrite Hw. simpl.
    destruct (IH (op a w) Ht) as (z & Hz & Hord & Hall & Hex).
    exists z. split; [exact Hz|]. split; [|split].
    + eauto.
    + intros y v [<-|Hy] Hv; [|eauto].
      rewrite Hw in Hv. inversion Hv; subst. eauto.
    + destruct Hex as [->|(y & Hy & Hfy)].
      * destruct (op_choice a w) as [->| ->]; [left; reflexivity|].
        right. exists x. split; [left; reflexivity | exact Hw].
      * right. exists y. split; [right; exact Hy | exact Hfy].
Qed.

Lemma extremum_unique z z' a l l' :
  (forall x, In x l <-> In x l') ->
  extremum z a l -> extremum z' a l' -> z = z'.
Proof.
  intros Hsame (Ha & Hall & Hex) (Ha' & Hall' & Hex').
  apply ord_antisym.
  - destruct Hex' as [->|(y & Hy & Hfy)]; [assumption|].
    apply (Hall y); [apply Hsame; assumption | assumption].
  - destruct Hex as [->|(y & Hy & Hfy)]; [assumption|].
    apply (Hall' y); [apply Hsame; assumption | assumption].
Qed.

(** More elements can only push the extremum further. *)
Lemma extremum_mono z z' a l l' :
  (forall x, In x l -> In x l') ->
  extremum z a l -> extremum z' a l' -> ord z' z.
Proof.
  intros Hsub (Ha & Hall & Hex) (Ha' & Hall' & Hex').
  destruct Hex as [->|(y & Hy & Hfy)]; [assumption|].
  apply (Hall' y); auto.
Qed.

(** The fold depends on the elements of the list only. *)
Lemma over_same_elements l l' a :
  (forall x, In x l <-> In x l') -> over l a = over l' a.
Proof.
  intros Hsame. destruct a as [|a]; [rewrite !over_NaN; reflexivity|].
  destruct (Exists_dec (fun x => f x = NaN) l) as [Hn|Hn];
    [intros x; apply jsnum_eq_dec| |].
  - rewrite (over_has_NaN l _ Hn). symmetry. apply over_has_NaN.
    apply Exists_exists in Hn. apply Exists_exists.
    destruct Hn as (x & Hx & Hfx). exists x. split; [apply Hsame|]; assumption.
  - assert (Hnum : forall k, (forall x, In x k -> In x l) ->
                             Forall (fun x => exists w, f x = Num w) k).
    { intros k Hk. apply Forall_forall. intros x Hx.
      destruct (f x) as [|w] eqn:Hfx; [|eauto].
      exfalso. apply Hn. apply Exists_exists. exists x. split; auto. }
    destruct (over_numbers l a (Hnum l (fun x H => H))) as (z & Hz & Hext).
    destruct (over_numbers l' a (Hnum l' (fun x H => proj2 (Hsame x) H)))
      as (z' & Hz' & Hext').
    rewrite Hz, Hz'. f_equal. eapply extremum_unique; eauto.
Qed.
End Extremum.

Definition minStart := over Z.min startOf.
Definition maxEnd := over Z.max endOf.

Lemma foldM_widen_throw l : forall acc,
  Exists throws l -> foldM widen l acc = Throw TypeError.
Proof.
  induction l as [|x t IH]; intros acc H; inversion H; subst; simpl.
  - rewrite widen_years. unfold throws in *. rewrite H1. reflexivity.
  - rewrite widen_years. destruct (years x) as [p|[]]; simpl; auto.
Qed.

Lemma foldM_widen_ok l : forall a b,
  Forall (fun x => ~ throws x) l ->
  foldM widen l (a, b) = Ok (minStart l a, maxEnd l b).
Proof.
  induction l as [|x t IH]; intros a b H; simpl; [reflexivity|].
  inversion H as [|? ? Hx Ht]; subst.
  rewrite widen_years. unfold minStart, maxEnd, startOf, endOf, throws in *.
  simpl. destruct (years x) as [p|[]] eqn:Hy; [|congruence].
  simpl. rewrite IH by assumption. reflexivity.
Qed.

Lemma validDates_no_throw l :
  Forall validDates l -> Forall (fun x => ~ throws x) l.
Proof.
  apply Forall_impl. intros x (ys & ye & H). unfold throws. congruence.
Qed.

Lemma validDates_startOf l :
  Forall validDates l -> Forall (fun x => exists w, startOf x = Num w) l.
Proof.
  apply Forall_impl. intros x (ys & ye & H). unfold startOf. rewrite H. simpl. eauto.
Qed.

Lemma validDates_endOf l :
  Forall validDates l -> Forall (fun x => exists w, endOf x = Num w) l.
Proof.
  apply Forall_impl. intros x (ys & ye & H). unfold endOf. rewrite H. simpl. eauto.
Qed.

Definition defaultBounds (env : Env) : Bounds :=
  mkBounds (Num START_YEAR_DEFAULT) (Num (END_YEAR_DEFAULT env)).

Lemma getTimelineBounds_nonempty env items :
  items <> [] ->
  getTimelineBounds env items =
    (acc <- foldM widen items
              (Num (END_YEAR_DEFAULT env), Num START_YEAR_DEFAULT) ;;
     Ok (mkBounds (JS.min (Num START_YEAR_DEFAULT) (fst acc))
                  (JS.max (Num (END_YEAR_DEFAULT env)) (snd acc)))).
Proof. destruct items; [congruence | reflexivity]. Qed.

(** The bounds of a list of records with valid dates: the least of 1997,
    the current year and the start years; the greatest of the current year,
    1997 and the end years. *)
Lemma getTimelineBounds_valid env items :
  items <> [] -> Forall validDates items ->
  exists lo hi,
    getTimelineBounds env items = Ok (mkBounds (Num (Z.min 1997 lo)) (Num (Z.max (END_YEAR_DEFAULT env) hi))) /\
    extremum Z.le startOf lo (END_YEAR_DEFAULT env) items /\
    extremum Z.ge endOf hi 1997 items.
Proof.
  intros Hne Hv.
  assert (Hlo : exists lo,
            over Z.min startOf items (Num (END_YEAR_DEFAULT env)) = Num lo /\
            extremum Z.le startOf lo (END_YEAR_DEFAULT env) items)
    by (apply over_numbers;
        solve [intros; lia | apply validDates_startOf; assumption]).
  assert (Hhi : exists hi,
            over Z.max endOf items (Num 1997) = Num hi /\
            extremum Z.ge endOf hi 1997 items)
    by (apply over_numbers;
        solve [intros; lia | apply validDates_endOf; assumption]).
  destruct Hlo as (lo & Hlo & Elo). destruct Hhi as (hi & Hhi & Ehi).
  exists lo, hi. split; [|split; assumption].
  rewrite getTimelineBounds_nonempty by assumption.
  rewrite (foldM_widen_ok _ _ _ (validDates_no_throw _ Hv)).
  unfold minStart, maxEnd, START_YEAR_DEFAULT.
  cbv beta iota delta [JS.bind fst snd]. rewrite Hlo, Hhi. reflexivity.
Qed.

(** The range [b'] contains the range [b]. *)
Definition within (b b' : Bounds) : Prop :=
  JS.le (startYear b') (startYear b) = true /\
  JS.le (endYear b) (endYear b') = true.

Lemma same_elements_nil (l : list Item) :
  (forall x, In x [] <-> In x l) -> l = [].
Proof.
  destruct l as [|y t]; [reflexivity|]. intros H.
  destruct (proj2 (H y) (or_introl eq_refl)).
Qed.

Lemma getTimelineBounds_same_elements env l l' :
  (forall x, In x l <-> In x l') ->
  getTimelineBounds env l = getTimelineBounds env l'.
Proof.
  intros Hsame.
  destruct l as [|y t] eqn:El.
  { rewrite (same_elements_nil _ Hsame). reflexivity. }
  assert (Hne : l <> []) by (subst; discriminate).
  assert (Hne' : l' <> []).
  { intros ->. rewrite <- El in Hsame. destruct l; [congruence|].
    destruct (proj1 (Hsame i) (or_introl eq_refl)). }
  rewrite <- El in *. clear El y t.
  rewrite !getTimelineBounds_nonempty by assumption.
  destruct (Exists_dec throws l throws_dec) as [Ht|Ht].
  - rewrite (foldM_widen_throw l _ Ht), foldM_widen_throw; [reflexivity|].
    apply Exists_exists in Ht. apply Exists_exists.
    destruct Ht as (x & Hx & Hthrow). exists x. split; [apply Hsame|]; assumption.
  - assert (Hok : forall k, (forall x, In x k -> In x l) ->
                            Forall (fun x => ~ throws x) k).
    { intros k Hk. apply Forall_forall. intros x Hx Hthrow. apply Ht.
      apply Exists_exists. exists x. split; auto. }
    rewrite (foldM_widen_ok l), (foldM_widen_ok l');
      [| apply Hok; intros x; apply Hsame | apply Hok; auto].
    unfold minStart, maxEnd.
    assert (Emin : over Z.min startOf l (Num (END_YEAR_DEFAULT env)) =
                   over Z.min startOf l' (Num (END_YEAR_DEFAULT env)))
      by (apply (over_same_elements Z.min Z.le); solve [intros; lia | assumption]).
    assert (Emax : over Z.max endOf l (Num START_YEAR_DEFAULT) =
                   over Z.max endOf l' (Num START_YEAR_DEFAULT))
      by (apply (over_same_elements Z.max Z.ge); solve [intros; lia | assumption]).
    rewrite Emin, Emax. reflexivity.
Qed.

Lemma getTimelineBounds_adds env l1 x l2 :
  Forall validDates (l1 ++ x :: l2) ->
  exists b b', getTimelineBounds env (l1 ++ l2) = Ok b /\
    getTimelineBounds env (l1 ++ x :: l2) = Ok b' /\ within b b'.
Proof.
  intros Hv.
  assert (Hv0 : Forall validDates (l1 ++ l2)).
  { apply Forall_app in Hv. destruct Hv as [H1 H2]. inversion H2; subst.
    apply Forall_app. auto. }
  assert (Hsub : forall y, In y (l1 ++ l2) -> In y (l1 ++ x :: l2)).
  { intros y Hy. apply in_app_or in Hy. apply in_or_app. simpl. tauto. }
  destruct (getTimelineBounds_valid env (l1 ++ x :: l2)) as (lo' & hi' & Hb' & Elo' & Ehi');
    [destruct l1; discriminate | assumption |].
  remember (l1 ++ l2) as l0 eqn:El0. destruct l0 as [|y t].
  - exists (defaultBounds env). eexists.
    split; [reflexivity|]. split; [exact Hb'|].
    unfold within, defaultBounds, START_YEAR_DEFAULT. simpl. js_solve.
  - destruct (getTimelineBounds_valid env (y :: t)) as (lo & hi & Hb & Elo & Ehi);
      [discriminate | assumption |].
    eexists. eexists. split; [exact Hb|]. split; [exact Hb'|].
    pose proof (extremum_mono Z.le startOf _ _ _ _ _ Hsub Elo Elo') as Hlo.
    pose proof (extremum_mono Z.ge endOf _ _ _ _ _ Hsub Ehi Ehi') as Hhi.
    unfold within. simpl. js_solve.
Qed.

(** Claim C5.  For records whose start and end dates all parse, as those of
    intervals do, [getTimelineBounds] only widens the default window: the start year it
    returns is at most 1997 and the end year at least the current year;
    adding such a record anywhere in the list never narrows the range.  For
    the empty list it returns exactly 1997 and the current year.  For any
    records at all, the result depends only on which records are in the
    list, not on their order or on repetitions. *)
Theorem getTimelineBounds_only_widens env :
  (forall items, Forall validDates items ->
     exists b, getTimelineBounds env items = Ok b /\
       JS.le (startYear b) (Num 1997) = true /\
       JS.le (Num (END_YEAR_DEFAULT env)) (endYear b) = true) /\
  getTimelineBounds env [] =
    Ok (mkBounds (Num 1997) (Num (END_YEAR_DEFAULT env))) /\
  (forall l1 x l2, Forall validDates (l1 ++ x :: l2) ->
     exists b b', getTimelineBounds env (l1 ++ l2) = Ok b /\
       getTimelineBounds env (l1 ++ x :: l2) = Ok b' /\ within b b') /\
  (forall l l', (forall x, In x l <-> In x l') ->
     getTimelineBounds env l = getTimelineBounds env l').
Proof.
  split; [|split; [reflexivity|split]].
  - intros items Hv. destruct items as [|x t].
    + exists (defaultBounds env). split; [reflexivity|].
      unfold defaultBounds, START_YEAR_DEFAULT. simpl. js_solve.
    + destruct (getTimelineBounds_valid env (x :: t)) as (lo & hi & Hb & _);
        [discriminate | assumption |].
      eexists. split; [exact Hb|]. simpl. js_solve.
  - apply getTimelineBounds_adds.
  - apply getTimelineBounds_same_elements.
Qed.

Definition env2026 : Env := mkEnv 2026 NaN.

Lemma getTimelineBounds_only_widens_witness :
  (exists b, getTimelineBounds env2026 overlappingPair = Ok b /\
     JS.le (startYear b) (Num 1997) = true /\
     JS.le (Num 2026) (endYear b) = true) /\
  (exists b b',
     getTimelineBounds env2026 [period "2010-01-01" "2012-01-01"] = Ok b /\
     getTimelineBounds env2026
       [period "2010-01-01" "2012-01-01"; period "1990-03-01" "2030-01-01"] = Ok b' /\
     within b b').
Proof.
  destruct (getTimelineBounds_only_widens env2026) as (Ha & _ & Hc & _).
  split.
  - apply (Ha overlappingPair).
    constructor; [exists 2010, 2012; reflexivity|].
    constructor; [exists 2011, 2013; reflexivity|]. constructor.
  - apply (Hc [period "2010-01-01" "2012-01-01"]
              (period "1990-03-01" "2030-01-01") []).
    constructor; [exists 2010, 2012; reflexivity|].
    constructor; [exists 1990, 2030; reflexivity|]. constructor.
Defined.

(** ** The width of the canvas *)

(** The width as the specification words it: ten pixels, the months, twenty
    pixels. *)
Definition specCanvasWidth (startYear endYear monthWidthPx : Z) : Z :=
  10 + ((endYear - startYear + 1) * 12) * monthWidthPx + 20.

(** Claim C4, as amended.  The canvas width for a year range is
    totalMonths * monthWidthPx + 20 pixels, with
    totalMonths = (endYear - startYear + 1) * 12 and monthWidthPx the
    configured month width (18 when none is configured); for 2000, 2001 and
    18 it is 452. *)
Theorem setCanvasWidth_value :
  (forall cur startYear endYear monthWidthPx,
     totalMonths (Num startYear) (Num endYear) =
       Num ((endYear - startYear + 1) * 12) /\
     setCanvasWidth (mkEnv cur (Num monthWidthPx)) (Num startYear) (Num endYear) =
       Num ((endYear - startYear + 1) * 12 * monthWidthPx + 20) /\
     setCanvasWidth (mkEnv cur NaN) (Num startYear) (Num endYear) =
       Num ((endYear - startYear + 1) * 12 * 18 + 20)) /\
  (forall cur, setCanvasWidth (mkEnv cur (Num 18)) (Num 2000) (Num 2001) = Num 452).
Proof. split; [intros; repeat split | reflexivity]. Qed.

(** Claim C4 as stated fails: for 2000, 2001 and 18 the width is 452, ten
    pixels less than the 462 of the claim. *)
Lemma setCanvasWidth_not_462 :
  setCanvasWidth (mkEnv 2026 (Num 18)) (Num 2000) (Num 2001) = Num 452 /\
  specCanvasWidth 2000 2001 18 = 462 /\
  setCanvasWidth (mkEnv 2026 (Num 18)) (Num 2000) (Num 2001) <>
    Num (specCanvasWidth 2000 2001 18).
Proof. split; [reflexivity | split; [reflexivity | discriminate]]. Qed.

(** ** The geometry of the bars *)

Definition barLeft (s : Seg) : jsnum :=
  JS.add (Num 10) (JS.mul (_start s) (Num 18)).

(** The width with the right edge measured from the same origin as the
    left edge: 10 + (end + 1) * 18. *)
Definition barWidth (s : Seg) : jsnum :=
  JS.max (Num 18)
    (JS.sub (JS.sub (JS.add (Num 10) (JS.mul (JS.add (_end s) (Num 1)) (Num 18)))
                    (barLeft s))
            (Num 2)).

Definition barTop (s : Seg) : jsnum :=
  JS.add (Num 6) (JS.mul (rowNumber (_row s)) (Num (28 + 6))).

(** The width as the specification words it. *)
Definition specBarWidth (monthWidthPx : Z) (s : Seg) : jsnum :=
  JS.max (Num monthWidthPx)
    (JS.sub (JS.sub (JS.mul (JS.add (_end s) (Num 1)) (Num monthWidthPx))
                    (JS.add (Num 10) (JS.mul (_start s) (Num monthWidthPx))))
            (Num 2)).

Definition placedAs (s : Seg) (b : Bar) : Prop :=
  bar_left b = barLeft s /\ bar_width b = barWidth s /\ bar_top b = barTop s.

Lemma renderBars_geometry mode l : forall id,
  Forall2 placedAs l (renderBars mode id l).
Proof.
  induction l as [|s t IH]; intros id; simpl; constructor; auto.
  repeat split.
Qed.

Lemma renderLane_inv title subtitle items mode sy lane :
  renderLane title subtitle items mode sy = Ok lane ->
  exists st, stackOverlaps items sy = Ok st /\
             bars lane = renderBars mode 0 (segs st).
Proof.
  unfold renderLane. destruct (stackOverlaps items sy) as [st|]; simpl;
    [|discriminate].
  intros H; inversion H; subst. eauto.
Qed.

(** Claim C8, as amended.  The bars of a lane are the segments of the
    stacking, one for one and in order, and at the month width of 18 pixels
    the bar of a segment has left = 10 + start * 18,
    width = max(18, 10 + (end + 1) * 18 - left - 2) and
    top = 6 + row * (28 + 6); with numbers for the coordinates, the width is
    max(18, (end - start + 1) * 18 - 2). *)
Theorem renderLane_bar_geometry title subtitle items mode sy lane :
  renderLane title subtitle items mode sy = Ok lane ->
  exists st, stackOverlaps items sy = Ok st /\
    Forall2 placedAs (segs st) (bars lane) /\
    Forall2 (fun s b => forall st_ en r,
               _start s = Num st_ -> _end s = Num en -> _row s = Some r ->
               bar_left b = Num (10 + st_ * 18) /\
               bar_width b = Num (Z.max 18 ((en - st_ + 1) * 18 - 2)) /\
               bar_top b = Num (6 + Z.of_nat r * 34))
            (segs st) (bars lane).
Proof.
  intros H. destruct (renderLane_inv _ _ _ _ _ _ H) as (st & Hst & Hbars).
  exists st. split; [exact Hst|]. rewrite Hbars.
  split; [apply renderBars_geometry|].
  eapply Forall2_impl; [|apply renderBars_geometry].
  intros s b (Hl & Hw & Ht) st_ en r Hs He Hr.
  rewrite Hl, Hw, Ht. unfold barWidth, barLeft, barTop.
  rewrite Hs, He, Hr.
  unfold JS.add, JS.mul, JS.sub, JS.max, JS.lift2, rowNumber.
  repeat split; f_equal; lia.
Qed.

Lemma renderLane_bar_geometry_witness :
  exists st, stackOverlaps overlappingPair (Num 1997) = Ok st /\
    Forall2 placedAs (segs st)
      (renderBars "persona" 0
         [mkSeg (period "2010-01-01" "2012-01-01") (Num 156) (Num 180) (Some 0%nat);
          mkSeg (period "2011-01-01" "2013-01-01") (Num 168) (Num 192) (Some 1%nat)]).
Proof.
  destruct (renderLane_bar_geometry "Cargos" "" overlappingPair "persona" (Num 1997)
              (mkLane "<strong>Cargos</strong><small></small>" (Num 90)
                 (renderBars "persona" 0
                    [mkSeg (period "2010-01-01" "2012-01-01") (Num 156) (Num 180) (Some 0%nat);
                     mkSeg (period "2011-01-01" "2013-01-01") (Num 168) (Num 192) (Some 1%nat)]))
              eq_refl) as (st & Hst & Hgeo & _).
  exists st. split; [exact Hst | exact Hgeo].
Defined.

(** Claim C8 as stated fails: the width of the claim leaves out the ten
    pixels of the origin in the right edge.  The bar of months 156..180 is
    448 pixels wide, not 438. *)
Lemma renderLane_width_not_spec :
  exists lane b,
    renderLane "Cargos" "" [period "2010-01-01" "2012-01-01"] "persona" (Num 1997)
      = Ok lane /\
    bars lane = [b] /\
    bar_left b = Num 2818 /\ bar_width b = Num 448 /\
    specBarWidth 18 (mkSeg (period "2010-01-01" "2012-01-01") (Num 156) (Num 180) (Some 0%nat))
      = Num 438 /\
    bar_width b <>
      specBarWidth 18 (mkSeg (period "2010-01-01" "2012-01-01") (Num 156) (Num 180) (Some 0%nat)).
Proof.
  eexists. eexists. split; [vm_compute; reflexivity|].
  split; [reflexivity|]. repeat split. discriminate.
Qed.

(** ** Stacking and the month width *)

(** The stacking that a rendering pass performs: the bounds first, then
    [stackOverlaps] from their start year. *)
Definition stackingOfPass (env : Env) (items : list Item) : result Stacked :=
  b <- getTimelineBounds env items ;;
  stackOverlaps items (startYear b).

Definition rowsOf (r : result View) : result RowsContent :=
  v <- r ;; Ok (rows v).

(** Claim C9.  Two passes that differ only in the configured month width
    stack alike: the bounds, the segments with their rows and the row count
    are the same, and so is everything the pass draws in the lane. *)
Theorem stacking_ignores_month_width cur w1 w2 :
  (forall items,
     getTimelineBounds (mkEnv cur w1) items = getTimelineBounds (mkEnv cur w2) items /\
     stackingOfPass (mkEnv cur w1) items = stackingOfPass (mkEnv cur w2) items) /\
  (forall type selected,
     rowsOf (renderTimeline (mkEnv cur w1) type selected) =
     rowsOf (renderTimeline (mkEnv cur w2) type selected)).
Proof.
  split.
  - intros items. split; reflexivity.
  - intros type [sel|]; [|reflexivity].
    unfold renderTimeline, rowsOf.
    change (getTimelineBounds (mkEnv cur w2)) with (getTimelineBounds (mkEnv cur w1)).
    destruct (getTimelineBounds (mkEnv cur w1) _) as [b|e]; [|reflexivity].
    simpl. destruct (match cargos sel with Some l => l | None => [] end);
      [reflexivity|].
    destruct (isPersona type);
      match goal with |- context [renderLane ?a ?b ?c ?d ?e] =>
        destruct (renderLane a b c d e) end; reflexivity.
Qed.

(** The month width does reach the pass: the canvas follows it. *)
Example canvasWidth_follows_month_width :
  setCanvasWidth (mkEnv 2026 (Num 18)) (Num 1997) (Num 2026) = Num 6500 /\
  setCanvasWidth (mkEnv 2026 (Num 24)) (Num 1997) (Num 2026) = Num 8660.
Proof. split; reflexivity. Qed.

(** ** Records without a date *)

Definition isString (v : jsval) : bool :=
  match v with JStr _ => true | _ => false end.

Definition hasStringDates (i : Item) : bool :=
  isString (inicio i) && isString (fin i).

Lemma parseDate_string v : isString v = true -> exists d, parseDate v = Ok d.
Proof. destruct v; try discriminate. simpl. eauto. Qed.

Lemma parseDate_not_string v : isString v = false -> parseDate v = Throw TypeError.
Proof. destruct v; try discriminate; reflexivity. Qed.

Lemma newDate_NaN_year m d : newDate NaN m d = InvalidDate.
Proof. reflexivity. Qed.

Lemma newDate_NaN_month y d : newDate y NaN d = InvalidDate.
Proof. destruct y; reflexivity. Qed.

(** A date string whose year or month is not a number, or that has no
    month, gives an invalid date. *)
Lemma parseDate_unparseable str :
  let parts := map Str.Number (Str.split "-" str) in
  nth_error parts 0 = Some NaN \/ nth_error parts 1 = Some NaN \/
  nth_error parts 1 = None ->
  parseDate (JStr str) = Ok InvalidDate.
Proof.
  intros parts H.
  change (parseDate (JStr str)) with
    (Ok (newDate (elemOr NaN (nth_error parts 0))
                 (JS.sub (elemOr NaN (nth_error parts 1)) (Num 1))
                 (JS.or (elemOr NaN (nth_error parts 2)) (Num 1)))).
  f_equal. destruct H as [H|[H|H]]; rewrite H.
  - apply newDate_NaN_year.
  - apply newDate_NaN_month.
  - apply newDate_NaN_month.
Qed.

Lemma toSeg_ok sy i :
  hasStringDates i = true ->
  exists s, toSeg sy i = Ok s /\ it s = i /\
    (forall d, parseDate (inicio i) = Ok d -> _start s = monthIndex d sy) /\
    (forall d, parseDate (fin i) = Ok d -> _end s = monthIndex d sy).
Proof.
  unfold hasStringDates. intros H. apply andb_true_iff in H. destruct H as [H1 H2].
  destruct (parseDate_string _ H1) as [d1 E1].
  destruct (parseDate_string _ H2) as [d2 E2].
  unfold toSeg. rewrite E1, E2. simpl. eexists. split; [reflexivity|].
  repeat split; simpl; intros d Hd; congruence.
Qed.

Lemma toSeg_throw sy i :
  hasStringDates i = false -> toSeg sy i = Throw TypeError.
Proof.
  unfold hasStringDates, toSeg. intros H. apply andb_false_iff in H.
  destruct H as [H|H].
  - rewrite (parseDate_not_string _ H). reflexivity.
  - rewrite (parseDate_not_string _ H).
    destruct (parseDate (inicio i)) as [d|[]]; reflexivity.
Qed.

(** Coordinates of a segment come from the dates of its record. *)
Definition coordinatesOf (sy : jsnum) (s : Seg) : Prop :=
  (forall d, parseDate (inicio (it s)) = Ok d -> _start s = monthIndex d sy) /\
  (forall d, parseDate (fin (it s)) = Ok d -> _end s = monthIndex d sy).

Lemma mapM_toSeg_ok sy items :
  forallb hasStringDates items = true ->
  exists mapped, mapM (toSeg sy) items = Ok mapped /\
    map it mapped = items /\ Forall (coordinatesOf sy) mapped.
Proof.
  induction items as [|i t IH]; simpl; intros H.
  - exists []. repeat split; constructor.
  - apply andb_true_iff in H. destruct H as [Hi Ht].
    destruct (toSeg_ok sy i Hi) as (s & Es & Eit & Hs & He).
    destruct (IH Ht) as (mapped & Em & Emap & Hall).
    exists (s :: mapped). rewrite Es, Em. simpl.
    split; [reflexivity|]. split; [congruence|].
    constructor; [|exact Hall]. unfold coordinatesOf. rewrite Eit. auto.
Qed.

Lemma mapM_toSeg_throw sy items :
  forallb hasStringDates items = false ->
  mapM (toSeg sy) items = Throw TypeError.
Proof.
  induction items as [|i t IH]; simpl; intros H; [discriminate|].
  apply andb_false_iff in H.
  destruct (hasStringDates i) eqn:Hi.
  - destruct H as [H|H]; [discriminate|].
    destruct (toSeg_ok sy i Hi) as (s & Es & _). rewrite Es. simpl.
    rewrite (IH H). reflexivity.
  - rewrite (toSeg_throw _ _ Hi). reflexivity.
Qed.

Lemma stackLoop_items l rowsEnd placed final :
  stackLoop l rowsEnd = (placed, final) ->
  map it placed = map it l /\
  forall P : jsnum -> jsnum -> Item -> Prop,
    Forall (fun s => P (_start s) (_end s) (it s)) l ->
    Forall (fun s => P (_start s) (_end s) (it s)) placed.
Proof.
  intros H. apply stackLoop_shape in H.
  induction H as [|s p l' placed' [r ->] _ [IH1 IH2]]; simpl.
  - split; [reflexivity | auto].
  - split; [congruence|]. intros P HP. inversion HP; subst.
    constructor; [assumption | auto].
Qed.

(** [stackOverlaps] drops nothing: with string dates throughout it returns
    the records, every one with its coordinates; otherwise it throws. *)
Lemma stackOverlaps_keeps items sy :
  (forallb hasStringDates items = true ->
   exists st, stackOverlaps items sy = Ok st /\
     Permutation (map it (segs st)) items /\
     Forall (coordinatesOf sy) (segs st)) /\
  (forallb hasStringDates items = false ->
   stackOverlaps items sy = Throw TypeError).
Proof.
  split; intros H.
  - destruct (mapM_toSeg_ok sy items H) as (mapped & Em & Emap & Hall).
    rewrite (stackOverlaps_unfold _ _ _ Em). eexists. split; [reflexivity|].
    simpl.
    destruct (stackLoop (ArraySort.sort compareSegs mapped) []) as [placed final] eqn:Hl.
    destruct (stackLoop_items _ _ _ _ Hl) as [Hit Hkeep]. simpl. split.
    + rewrite Hit, <- Emap. apply Permutation_map, sort_perm.
    + apply (Hkeep (fun st_ en i =>
        (forall d, parseDate (inicio i) = Ok d -> st_ = monthIndex d sy) /\
        (forall d, parseDate (fin i) = Ok d -> en = monthIndex d sy))).
      apply sort_Forall. exact Hall.
  - unfold stackOverlaps. rewrite (mapM_toSeg_throw _ _ H). reflexivity.
Qed.

Lemma hasStringDates_years i :
  if hasStringDates i then ~ throws i else throws i.
Proof.
  unfold hasStringDates, throws, years.
  destruct (inicio i); simpl; try reflexivity;
    destruct (fin i); simpl; try reflexivity; discriminate.
Qed.

Lemma getTimelineBounds_strings env items :
  forallb hasStringDates items = true ->
  exists b, getTimelineBounds env items = Ok b.
Proof.
  intros H. destruct items as [|x t]; [eexists; reflexivity|].
  rewrite getTimelineBounds_nonempty by discriminate.
  rewrite foldM_widen_ok; [eexists; reflexivity|].
  apply Forall_forall. intros y Hy.
  rewrite forallb_forall in H. specialize (H y Hy).
  pose proof (hasStringDates_years y) as Hyears. rewrite H in Hyears. exact Hyears.
Qed.

Lemma getTimelineBounds_not_strings env items :
  forallb hasStringDates items = false ->
  getTimelineBounds env items = Throw TypeError.
Proof.
  intros H. assert (Hne : items <> []) by (intros ->; discriminate).
  rewrite getTimelineBounds_nonempty by assumption.
  rewrite foldM_widen_throw; [reflexivity|].
  apply Exists_exists.
  assert (Hex : exists y, In y items /\ hasStringDates y = false).
  { clear Hne. induction items as [|x t IH]; [discriminate|]. simpl in H.
    destruct (hasStringDates x) eqn:Hx.
    - destruct (IH H) as (y & Hy & Hb). exists y. split; [right|]; assumption.
    - exists x. split; [left; reflexivity | assumption]. }
  destruct Hex as (y & Hy & Hb). exists y. split; [assumption|].
  pose proof (hasStringDates_years y) as Hyears. rewrite Hb in Hyears. exact Hyears.
Qed.

(** A date string that does not parse: its year or its month is not a
    number, or it has no month (as the empty string). *)
Definition unparseable (v : jsval) : Prop :=
  exists str, v = JStr str /\
    let parts := map Str.Number (Str.split "-" str) in
    nth_error parts 0 = Some NaN \/ nth_error parts 1 = Some NaN \/
    nth_error parts 1 = None.

(** A date that does not parse leaves the coordinate NaN. *)
Definition unparsedIsNaN (s : Seg) : Prop :=
  (unparseable (inicio (it s)) -> _start s = NaN) /\
  (unparseable (fin (it s)) -> _end s = NaN).

Lemma unparseable_invalid v : unparseable v -> parseDate v = Ok InvalidDate.
Proof. intros (str & -> & H). apply parseDate_unparseable, H. Qed.

Lemma coordinatesOf_unparsed sy s : coordinatesOf sy s -> unparsedIsNaN s.
Proof.
  intros [Hs He]. split; intros H; apply unparseable_invalid in H.
  - rewrite (Hs _ H). reflexivity.
  - rewrite (He _ H). reflexivity.
Qed.

(** Claim C3, as amended.  A rendering pass excludes no record.  When the
    start and end of every record of the entity are strings, the pass
    returns without an exception, and the lane holds one bar for each
    record: the stacking returns all the records (a permutation of them),
    each with the month coordinates of its dates, NaN for a date that does
    not parse (wrong year or month, empty string).  When the start or end
    of some record is not a string, the pass throws a TypeError. *)
Theorem renderTimeline_keeps_every_record env type sel items :
  cargos sel = Some items -> items <> [] ->
  (forallb hasStringDates items = true ->
     exists view lane st,
       renderTimeline env type (Some sel) = Ok view /\
       rows view = LaneRows lane /\
       stackOverlaps items (currentStartYear view) = Ok st /\
       Permutation (map it (segs st)) items /\
       Forall unparsedIsNaN (segs st) /\
       Forall2 placedAs (segs st) (bars lane)) /\
  (forallb hasStringDates items = false ->
     renderTimeline env type (Some sel) = Throw TypeError).
Proof.
  intros Hc Hne. unfold renderTimeline. rewrite Hc. split; intros H.
  - destruct (getTimelineBounds_strings env items H) as [b Hb]. rewrite Hb.
    destruct (proj1 (stackOverlaps_keeps items (startYear b)) H)
      as (st & Hst & Hperm & Hcoord).
    destruct items as [|x t]; [congruence|].
    cbv beta iota delta [JS.bind]. unfold renderLane. rewrite Hst.
    cbv beta iota delta [JS.bind].
    destruct (isPersona type); eexists; eexists; exists st;
      (split; [reflexivity|]); (split; [reflexivity|]);
      (split; [exact Hst|]); (split; [exact Hperm|]);
      (split; [eapply Forall_impl; [apply coordinatesOf_unparsed | exact Hcoord]
              | apply renderBars_geometry]).
  - rewrite (getTimelineBounds_not_strings env items H). reflexivity.
Qed.

Definition undated : Entity :=
  mkEntity (JStr "X") (Some [period "" ""]).

Definition nodate : Entity :=
  mkEntity (JStr "X")
    (Some [mkItem JUndefined (JStr "2020-01-01") JNull JNull JNull JNull None]).

Lemma renderTimeline_keeps_every_record_witness :
  exists view lane st,
    renderTimeline env2026 "persona" (Some undated) = Ok view /\
    rows view = LaneRows lane /\
    stackOverlaps [period "" ""] (currentStartYear view) = Ok st /\
    Permutation (map it (segs st)) [period "" ""] /\
    Forall unparsedIsNaN (segs st) /\
    Forall2 placedAs (segs st) (bars lane).
Proof.
  apply (renderTimeline_keeps_every_record env2026 "persona" undated
           [period "" ""] eq_refl ltac:(discriminate)).
  reflexivity.
Defined.

(** Claim C3 as stated fails twice.  A record with empty dates reaches the
    stacking and gets a bar, at position NaN; and a record whose start is
    missing makes the pass throw. *)
Lemma renderTimeline_lays_out_undated :
  (exists view lane b,
     renderTimeline env2026 "persona" (Some undated) = Ok view /\
     rows view = LaneRows lane /\ bars lane = [b] /\
     tip_inicio b = JStr "" /\ bar_left b = NaN) /\
  renderTimeline env2026 "persona" (Some nodate) = Throw TypeError.
Proof.
  split; [|reflexivity].
  eexists. eexists. eexists. split; [vm_compute; reflexivity|].
  repeat split.
Qed.

(** ** The tooltip: anchors and toggling *)

Section TooltipPhases.
Import Tooltip.

(** Neither the content nor the schedule is part of the phase. *)
Lemma phase_schedule t : phase (scheduleTooltipPosition t) = phase t.
Proof.
  unfold scheduleTooltipPosition. destruct (truthyHandle (rafId t)); reflexivity.
Qed.

(** A tooltip shown on [a]: the state [t] with the anchor and the class
    set. *)
Definition shownAt (a : nat) (t : Tip) : Tip :=
  setShow true (setActiveBar (Some a) t).

(** From a shown tooltip, [showTip] on [b] passes only through states
    shown on [b], and ends shown on [b], whether or not the content can be
    built. *)
Lemma showTip_from_shown a t b :
  Forall (fun u => phase u = SHOWN (bar_id b)) (fst (showTipSteps b (shownAt a t))) /\
  phase (last (fst (showTipSteps b (shownAt a t))) (shownAt a t)) = SHOWN (bar_id b).
Proof.
  unfold showTipSteps.
  destruct (buildTooltipContent _ _ _ _ _ _) as [html|e]; simpl.
  - split.
    + repeat constructor. rewrite phase_schedule. reflexivity.
    + rewrite phase_schedule. reflexivity.
  - split; [repeat constructor | reflexivity].
Qed.

Definition showRequests (b : Bar) : list Event :=
  [MouseEnter b; Focus b; KeyDown b "Enter"; KeyDown b " "].

Lemma showRequest_from_shown a t b ev :
  In ev (showRequests b) ->
  Forall (fun u => phase u = SHOWN (bar_id b)) (steps (shownAt a t) ev) /\
  phase (step (shownAt a t) ev) = SHOWN (bar_id b).
Proof.
  destruct (showTip_from_shown a t b) as [Hall Hlast].
  unfold step. intros [<-|[<-|[<-|[<-|[]]]]]; simpl steps;
    rewrite ?app_nil_r; auto.
Qed.

(** Claim C6.  While the tooltip is shown on bar [a]: a show request for
    another bar [b], by hover, focus, click or keyboard, goes through shown
    states only and ends shown on [b]; a show request for [a] itself by
    hover, focus or keyboard leaves it shown on [a], and a click on [a]
    hides it. *)
Theorem tooltip_switch_and_toggle t a b :
  (bar_id b <> a ->
   forall ev, In ev (Click b :: showRequests b) ->
     Forall (fun u => phase u = SHOWN (bar_id b)) (steps (shownAt a t) ev) /\
     phase (step (shownAt a t) ev) = SHOWN (bar_id b)) /\
  (bar_id b = a ->
   phase (step (shownAt a t) (Click b)) = HIDDEN /\
   forall ev, In ev (showRequests b) ->
     Forall (fun u => phase u = SHOWN a) (steps (shownAt a t) ev) /\
     phase (step (shownAt a t) ev) = SHOWN a).
Proof.
  split.
  - intros Hne ev [<-|Hev]; [|apply showRequest_from_shown; assumption].
    unfold step. simpl steps.
    replace (Nat.eqb a (bar_id b)) with false
      by (symmetry; apply Nat.eqb_neq; congruence).
    simpl. apply showTip_from_shown.
  - intros <-. split.
    + unfold step. simpl steps. rewrite Nat.eqb_refl. reflexivity.
    + intros ev Hev. apply showRequest_from_shown. assumption.
Qed.
End TooltipPhases.

Definition sampleBar (id : nat) : Bar :=
  renderBar "persona" id
    (mkSeg (period "2010-01-01" "2012-01-01") (Num 156) (Num 180) (Some id)).

Lemma tooltip_switch_and_toggle_witness :
  Tooltip.phase
    (Tooltip.step (shownAt 0 (Tooltip.initial 0)) (Tooltip.Click (sampleBar 1)))
    = Tooltip.SHOWN 1 /\
  Tooltip.phase
    (Tooltip.step (shownAt 0 (Tooltip.initial 0)) (Tooltip.Click (sampleBar 0)))
    = Tooltip.HIDDEN.
Proof.
  split.
  - destruct (tooltip_switch_and_toggle (Tooltip.initial 0) 0 (sampleBar 1))
      as [H _].
    apply (H ltac:(discriminate) (Tooltip.Click (sampleBar 1))).
    left. reflexivity.
  - destruct (tooltip_switch_and_toggle (Tooltip.initial 0) 0 (sampleBar 0))
      as [_ H].
    apply (H eq_refl).
Defined.

(** ** The tooltip: one position update at a time *)

Section TooltipFrames.
Import Tooltip.

(** At most one callback waits, and [rafId] holds its handle exactly while
    it waits. *)
Definition coalesced (t : Tip) : Prop :=
  match rafId t with
  | Some h => pending t = [h] /\ (1 <= h)%nat
  | None => pending t = []
  end.

Lemma coalesced_frame_fields t t' :
  rafId t' = rafId t -> pending t' = pending t -> coalesced t -> coalesced t'.
Proof. unfold coalesced. intros -> ->. auto. Qed.

Lemma schedule_coalesced t : coalesced t -> coalesced (scheduleTooltipPosition t).
Proof.
  unfold coalesced, scheduleTooltipPosition.
  destruct (rafId t) as [h|] eqn:Hr; simpl.
  - intros [Hp Hh]. destruct h; [lia|]. simpl. rewrite Hr. auto.
  - intros Hp. simpl. rewrite Hp. split; [reflexivity | lia].
Qed.

(** With a callback waiting, a trigger changes nothing. *)
Lemma schedule_noop t :
  coalesced t -> rafId t <> None -> scheduleTooltipPosition t = t.
Proof.
  unfold coalesced, scheduleTooltipPosition.
  destruct (rafId t) as [h|]; [|congruence].
  intros [_ Hh] _. destruct h; [lia | reflexivity].
Qed.

Lemma hideTipSteps_frame t :
  Forall (fun u => rafId u = rafId t /\ pending u = pending t) (hideTipSteps t).
Proof. repeat constructor. Qed.

Lemma showTipSteps_coalesced b t :
  coalesced t -> Forall coalesced (fst (showTipSteps b t)).
Proof.
  intros H. unfold showTipSteps.
  destruct (buildTooltipContent _ _ _ _ _ _); simpl.
  - repeat constructor; try exact H. apply schedule_coalesced. exact H.
  - repeat constructor. exact H.
Qed.

Lemma updateTooltipPosition_frame lay t :
  rafId (updateTooltipPosition lay t) = rafId t /\
  pending (updateTooltipPosition lay t) = pending t.
Proof.
  unfold updateTooltipPosition. destruct (activeBar t); [|auto].
  destruct (negb (show t)); [auto|].
  match goal with |- context [if ?c then _ else _] => destruct c end; auto.
Qed.

Lemma frameCallback_frame lay t :
  rafId (frameCallback lay t) = None /\
  pending (frameCallback lay t) = pending t.
Proof.
  unfold frameCallback.
  destruct (updateTooltipPosition_frame lay (setRafId None t)) as [-> ->].
  auto.
Qed.

Lemma frameCallbacks_frame lay (waiting : list nat) : forall t,
  pending (fold_left (fun s _ => frameCallback lay s) waiting t) = pending t /\
  (waiting <> [] ->
   rafId (fold_left (fun s _ => frameCallback lay s) waiting t) = None).
Proof.
  induction waiting as [|h rest IH]; intros t; simpl; [split; congruence|].
  destruct (IH (frameCallback lay t)) as [Hp Hr].
  destruct (frameCallback_frame lay t) as [Hr1 Hp1].
  split; [congruence|]. intros _.
  destruct rest as [|h' rest']; [exact Hr1 | apply Hr; discriminate].
Qed.

(** After a frame nothing waits and the flag is clear. *)
Lemma animationFrame_clears lay t :
  coalesced t ->
  rafId (animationFrame lay t) = None /\ pending (animationFrame lay t) = [].
Proof.
  unfold coalesced, animationFrame. intros H.
  match goal with |- context [fold_left ?f ?l ?z] =>
    destruct (frameCallbacks_frame lay l z) as [Hp Hr] end.
  split; [|exact Hp].
  destruct (rafId t) as [h|] eqn:Hraf.
  - destruct H as [Hpend _]. apply Hr. rewrite Hpend. discriminate.
  - rewrite H. reflexivity.
Qed.

Lemma last_Forall {A} (P : A -> Prop) l d : P d -> Forall P l -> P (last l d).
Proof.
  intros Hd H. revert d Hd. induction H as [|x l Hx Hl IH]; intros d Hd; simpl; auto.
  destruct l; auto.
Qed.

Lemma steps_coalesced t ev : coalesced t -> Forall coalesced (steps t ev).
Proof.
  intros H.
  assert (Hhide : forall u, coalesced u -> Forall coalesced (hideTipSteps u)).
  { intros u Hu. eapply Forall_impl; [|apply hideTipSteps_frame].
    intros v [Hr Hp]. eapply coalesced_frame_fields; eauto. }
  destruct ev; simpl; auto using showTipSteps_coalesced.
  - destruct (_ && _); auto using showTipSteps_coalesced.
  - apply Forall_app. split.
    + destruct (isActivation key); auto using showTipSteps_coalesced.
    + destruct (isEscape key); [|constructor]. apply Hhide.
      apply last_Forall; [exact H|].
      destruct (isActivation key); auto using showTipSteps_coalesced.
  - destruct (isEscape key); auto.
  - destruct (negb (show t)); [constructor|]. destruct onBar; auto.
  - repeat constructor. apply schedule_coalesced, H.
  - repeat constructor. apply schedule_coalesced, H.
  - repeat constructor. unfold coalesced.
    destruct (animationFrame_clears lay t H) as [-> ->]. reflexivity.
Qed.

Lemma step_coalesced t ev : coalesced t -> coalesced (step t ev).
Proof.
  intros H. unfold step. apply last_Forall; [exact H|].
  apply steps_coalesced, H.
Qed.

Lemma run_coalesced evs : forall t, coalesced t -> coalesced (run t evs).
Proof.
  induction evs as [|ev evs IH]; intros t H; simpl; auto.
  apply IH, step_coalesced, H.
Qed.

(** Claim C7.  In every state that the controller reaches, at most one
    position update waits for a frame, and one waits exactly when [rafId]
    is set; a scroll or a resize that comes while one waits changes
    nothing; and when the frame callback has run, nothing waits and
    [rafId] is clear. *)
Theorem tooltip_position_coalesced handles evs :
  let t := run (initial handles) evs in
  (List.length (pending t) <= 1)%nat /\
  (rafId t = None <-> pending t = []) /\
  (rafId t <> None -> step t Scroll = t /\ step t Resize = t) /\
  (forall ev, (ev = Scroll \/ ev = Resize) ->
     (List.length (pending (step t ev)) = 1)%nat) /\
  (forall lay, rafId (step t (AnimationFrame lay)) = None /\
               pending (step t (AnimationFrame lay)) = []).
Proof.
  intros t.
  assert (H : coalesced t) by (apply run_coalesced; reflexivity).
  split; [|split; [|split; [|split]]].
  - unfold coalesced in H. destruct (rafId t); [destruct H as [-> _]|rewrite H];
      simpl; lia.
  - unfold coalesced in H. destruct (rafId t) as [h|].
    + destruct H as [-> _]. split; discriminate.
    + split; auto.
  - intros Hr. unfold step. simpl. rewrite (schedule_noop t H Hr). auto.
  - intros ev Hev.
    assert (Hs : step t ev = scheduleTooltipPosition t)
      by (destruct Hev as [-> | ->]; reflexivity).
    rewrite Hs. pose proof (schedule_coalesced t H) as Hc.
    unfold scheduleTooltipPosition, coalesced in *.
    destruct (rafId t) as [h|] eqn:Hr.
    + destruct H as [Hp Hh]. destruct h; [lia|]. simpl. rewrite Hp. reflexivity.
    + simpl. rewrite H. reflexivity.
  - intros lay. unfold step. simpl. apply animationFrame_clears, H.
Qed.

Lemma tooltip_position_coalesced_witness :
  let t := run (initial 0) [MouseEnter (sampleBar 0); Scroll] in
  rafId t = Some 1%nat /\ pending t = [1%nat] /\
  step t Scroll = t /\ step t Resize = t.
Proof.
  destruct (tooltip_position_coalesced 0 [MouseEnter (sampleBar 0); Scroll])
    as (_ & _ & H & _).
  split; [reflexivity|]. split; [reflexivity|].
  apply H. discriminate.
Defined.
End TooltipFrames.

(** ** Escaping *)

Section Escaping.
Local Open Scope string_scope.

(** The characters that open or close a tag or an attribute value. *)
Definition isMarkup (c : ascii) : bool :=
  Ascii.eqb c "<" || Ascii.eqb c ">" || Ascii.eqb c Str.dquote ||
  Ascii.eqb c Str.squote.

(** The markup characters of a string, in order. *)
Fixpoint skeleton (s : string) : string :=
  match s with
  | EmptyString => EmptyString
  | String c t => if isMarkup c then String c (skeleton t) else skeleton t
  end.

Definition entities : list string :=
  ["&amp;"; "&lt;"; "&gt;"; "&quot;"; "&#039;"].

Fixpoint startsWith (e s : string) : bool :=
  match e with
  | EmptyString => true
  | String a e' =>
      match s with
      | String b s' => Ascii.eqb a b && startsWith e' s'
      | EmptyString => false
      end
  end.

Definition entityAt (s : string) : bool :=
  existsb (fun e => startsWith e s) entities.

(** Every ampersand of the string starts an entity. *)
Fixpoint ampersandsOk (s : string) : bool :=
  match s with
  | EmptyString => true
  | String c t => (if Ascii.eqb c "&" then entityAt s else true) && ampersandsOk t
  end.

Lemma skeleton_app a b : skeleton (a ++ b) = skeleton a ++ skeleton b.
Proof.
  induction a as [|c a IH]; simpl; [reflexivity|].
  destruct (isMarkup c); simpl; congruence.
Qed.

Lemma escapeChar_cases c :
  (escapeChar c = Str.str1 c /\ isMarkup c = false /\ Ascii.eqb c "&" = false) \/
  In (escapeChar c) entities.
Proof.
  unfold escapeChar, isMarkup, entities.
  destruct (Ascii.eqb c "&") eqn:E1; [right; simpl; tauto|].
  destruct (Ascii.eqb c "<") eqn:E2; [right; simpl; tauto|].
  destruct (Ascii.eqb c ">") eqn:E3; [right; simpl; tauto|].
  destruct (Ascii.eqb c Str.dquote) eqn:E4; [right; simpl; tauto|].
  destruct (Ascii.eqb c Str.squote) eqn:E5; [right; simpl; tauto|].
  left. auto.
Qed.

Lemma skeleton_entity e : In e entities -> skeleton e = EmptyString.
Proof.
  intros [<-|[<-|[<-|[<-|[<-|[]]]]]]; reflexivity.
Qed.

Lemma skeleton_escapeString s : skeleton (escapeString s) = EmptyString.
Proof.
  induction s as [|c t IH]; simpl; [reflexivity|].
  rewrite skeleton_app, IH.
  destruct (escapeChar_cases c) as [(-> & Hm & _)|He].
  - simpl. rewrite Hm. reflexivity.
  - rewrite (skeleton_entity _ He). reflexivity.
Qed.

Lemma ampersandsOk_entity e r :
  In e entities -> ampersandsOk r = true -> ampersandsOk (e ++ r) = true.
Proof.
  intros [<-|[<-|[<-|[<-|[<-|[]]]]]] Hr; simpl; rewrite Hr; reflexivity.
Qed.

Lemma ampersandsOk_escapeString s : ampersandsOk (escapeString s) = true.
Proof.
  induction s as [|c t IH]; simpl; [reflexivity|].
  destruct (escapeChar_cases c) as [(-> & _ & Ha)|He].
  - simpl. rewrite Ha, IH. reflexivity.
  - apply ampersandsOk_entity; assumption.
Qed.

Lemma ampersandsOk_at s : ampersandsOk s = true ->
  forall pre post, s = pre ++ String "&" post ->
  entityAt (String "&" post) = true.
Proof.
  intros H pre. revert s H. induction pre as [|c pre IH]; intros s H post E.
  - subst. simpl in H. apply andb_true_iff in H. destruct H as [H _]. exact H.
  - subst. simpl in H. apply andb_true_iff in H. destruct H as [_ H].
    eapply IH; eauto.
Qed.

Lemma skeleton_none s :
  skeleton s = EmptyString ->
  forall c, In c (list_ascii_of_string s) -> isMarkup c = false.
Proof.
  induction s as [|a t IH]; simpl; intros H c Hc; [contradiction|].
  destruct (isMarkup a) eqn:Ha; [discriminate|].
  destruct Hc as [<-|Hc]; auto.
Qed.

Lemma digitChar_plain d : 0 <= d < 10 -> isMarkup (Str.digitChar d) = false.
Proof.
  intros H.
  assert (E : d = 0 \/ d = 1 \/ d = 2 \/ d = 3 \/ d = 4 \/ d = 5 \/ d = 6 \/
              d = 7 \/ d = 8 \/ d = 9) by lia.
  repeat (destruct E as [->|E]; [reflexivity|]). subst. reflexivity.
Qed.

Lemma skeleton_posDigits fuel : forall n acc,
  skeleton (Str.posDigits fuel n acc) = skeleton acc.
Proof.
  induction fuel as [|f IH]; intros n acc; [reflexivity|].
  assert (Hd : skeleton (String (Str.digitChar (n mod 10)) acc) = skeleton acc).
  { cbn [skeleton]. rewrite digitChar_plain; [reflexivity|].
    apply Z.mod_pos_bound. lia. }
  cbn [Str.posDigits].
  destruct (n / 10 =? 0)%Z; [exact Hd|]. rewrite IH. exact Hd.
Qed.

Lemma skeleton_ofNum a : skeleton (Str.ofNum a) = EmptyString.
Proof.
  destruct a as [|z]; [reflexivity|]. unfold Str.ofNum, Str.ofZ.
  destruct (z <? 0)%Z; cbn [skeleton]; rewrite ?skeleton_posDigits; reflexivity.
Qed.

Lemma skeleton_monthName i : skeleton (monthName i) = EmptyString.
Proof.
  destruct i as [|z]; [reflexivity|]. unfold monthName.
  destruct (z <? 0)%Z; [reflexivity|].
  generalize (Z.to_nat z). intros n.
  do 12 (destruct n as [|n]; [reflexivity|]). destruct n; reflexivity.
Qed.

Lemma skeleton_formatMY v str : formatMY v = Ok str -> skeleton str = EmptyString.
Proof.
  unfold formatMY. destruct (parseDate v) as [d|]; cbn [JS.bind]; [|discriminate].
  intros H; inversion H; subst.
  rewrite skeleton_app, skeleton_monthName.
  change (skeleton (String " " (Str.ofNum (getFullYear d))))
    with (skeleton (Str.ofNum (getFullYear d))).
  apply skeleton_ofNum.
Qed.

Lemma skeleton_escapeHtml v : skeleton (escapeHtml v) = EmptyString.
Proof. apply skeleton_escapeString. Qed.

Lemma skeleton_attr name value :
  skeleton value = EmptyString ->
  skeleton (attr name value) = skeleton name ++ skeleton "=" ++ dq ++ dq.
Proof.
  intros H. unfold attr. rewrite !skeleton_app, H. reflexivity.
Qed.

(** The markup characters of a bar, whatever the record says. *)
Definition barSkeleton : string :=
  Eval vm_compute in
    skeleton (bar_innerHTML
                (renderBar "persona" 0 (mkSeg (period "" "") NaN NaN None))).

Lemma skeleton_bar mode id s :
  skeleton (bar_innerHTML (renderBar mode id s)) = barSkeleton.
Proof.
  unfold renderBar. cbv beta zeta. cbn [bar_innerHTML].
  rewrite !skeleton_app, !skeleton_attr, !skeleton_escapeHtml
    by (first [apply skeleton_escapeHtml | reflexivity]).
  reflexivity.
Qed.

Lemma skeleton_pill tema : skeleton (pill tema) = skeleton (pill JUndefined).
Proof.
  unfold pill. rewrite !skeleton_app, !skeleton_escapeHtml. reflexivity.
Qed.

Lemma skeleton_pills (temas : list jsval) :
  skeleton (join (map pill temas)) =
  skeleton (join (map pill (repeat JUndefined (List.length temas)))).
Proof.
  induction temas as [|x t IH]; [reflexivity|].
  cbn [List.length repeat map join].
  rewrite !skeleton_app, IH, (skeleton_pill x). reflexivity.
Qed.

(** The markup characters of a tooltip with [n] topics. *)
Definition tooltipSkeleton (n : nat) : string :=
  skeleton (tooltipMarkup "" "" JUndefined "" "" (repeat JUndefined n)).

Lemma skeleton_tooltipMarkup title sub nivel from to temas :
  skeleton from = EmptyString -> skeleton to = EmptyString ->
  skeleton (tooltipMarkup title sub nivel from to temas) =
  tooltipSkeleton (List.length temas).
Proof.
  intros Hfrom Hto. unfold tooltipSkeleton, tooltipMarkup.
  destruct temas as [|x t].
  - cbn [List.length repeat].
    rewrite !skeleton_app, !skeleton_escapeHtml, Hfrom, Hto. reflexivity.
  - cbn [List.length repeat].
    rewrite !skeleton_app, !skeleton_escapeHtml, Hfrom, Hto.
    rewrite (skeleton_pills (x :: t)). reflexivity.
Qed.

Lemma buildTooltipContent_inv title sub nivel inicio fin temas html :
  buildTooltipContent title sub nivel inicio fin temas = Ok html ->
  exists from to, formatMY inicio = Ok from /\ formatMY fin = Ok to /\
    html = tooltipMarkup title sub nivel from to temas.
Proof.
  unfold buildTooltipContent.
  destruct (formatMY inicio) as [from|]; cbn [JS.bind]; [|discriminate].
  destruct (formatMY fin) as [to|]; cbn [JS.bind]; [|discriminate].
  intros H. exists from, to. split; [reflexivity|]. split; [reflexivity|].
  congruence.
Qed.

Lemma skeleton_tooltip title sub nivel inicio fin temas html :
  buildTooltipContent title sub nivel inicio fin temas = Ok html ->
  skeleton html = tooltipSkeleton (List.length temas).
Proof.
  intros H.
  destruct (buildTooltipContent_inv _ _ _ _ _ _ _ H) as (from & to & Hf & Ht & ->).
  apply skeleton_tooltipMarkup; eapply skeleton_formatMY; eauto.
Qed.
End Escaping.

Lemma isMarkup_false c :
  isMarkup c = false ->
  c <> "<"%char /\ c <> ">"%char /\ c <> Str.dquote /\ c <> Str.squote.
Proof.
  unfold isMarkup. intros H.
  repeat (apply orb_false_iff in H; destruct H as [H ?]).
  repeat split; apply Ascii.eqb_neq; assumption.
Qed.

(** Claim C10.  Whatever its argument, the result of [escapeHtml] has none
    of the characters less-than, greater-than, double quote and apostrophe,
    and each of its ampersands starts one of the five entities.  In the
    markup of a bar and of a tooltip the texts of the record stand escaped:
    the markup characters of a bar are the same for all records and modes,
    and those of a tooltip depend on the number of topics only. *)
Theorem escapeHtml_neutralizes_markup :
  (forall v,
     (forall c, In c (list_ascii_of_string (escapeHtml v)) ->
        c <> "<"%char /\ c <> ">"%char /\ c <> Str.dquote /\ c <> Str.squote) /\
     (forall pre post, escapeHtml v = (pre ++ String "&" post)%string ->
        exists e, In e entities /\ startsWith e (String "&" post) = true)) /\
  (forall mode id s mode' id' s',
     skeleton (bar_innerHTML (renderBar mode id s)) =
     skeleton (bar_innerHTML (renderBar mode' id' s'))) /\
  (forall title sub nivel inicio fin temas html
          title' sub' nivel' inicio' fin' temas' html',
     buildTooltipContent title sub nivel inicio fin temas = Ok html ->
     buildTooltipContent title' sub' nivel' inicio' fin' temas' = Ok html' ->
     List.length temas = List.length temas' ->
     skeleton html = skeleton html').
Proof.
  split; [|split].
  - intros v. split.
    + intros c Hc. apply isMarkup_false.
      eapply skeleton_none; [apply skeleton_escapeHtml | exact Hc].
    + intros pre post E.
      pose proof (ampersandsOk_at _ (ampersandsOk_escapeString (toString v))
                    pre post E) as H.
      unfold entityAt in H. apply existsb_exists in H. exact H.
  - intros. rewrite !skeleton_bar. reflexivity.
  - intros until html'. intros H H' Hlen.
    rewrite (skeleton_tooltip _ _ _ _ _ _ _ H), (skeleton_tooltip _ _ _ _ _ _ _ H').
    rewrite Hlen. reflexivity.
Qed.

Lemma escapeHtml_neutralizes_markup_witness :
  skeleton (tooltipMarkup "<b>" "x" (JStr "a") "ene 2010" "dic 2012" [JStr "<i>"]) =
  skeleton (tooltipMarkup "t" "s" JNull "feb 2000" "mar 2001" [JStr "plain"]).
Proof.
  destruct escapeHtml_neutralizes_markup as (_ & _ & H).
  apply (H "<b>"%string "x"%string (JStr "a") (JStr "2010-01-01") (JStr "2012-12-01")
           [JStr "<i>"] _
           "t"%string "s"%string JNull (JStr "2000-02-01") (JStr "2001-03-01")
           [JStr "plain"] _ eq_refl eq_refl eq_refl).
Defined.

(** * Further properties of the script *)

(** ** Clamping and the place of the tooltip *)

Section TooltipPlace.
Import Tooltip.
Local Open Scope Q_scope.

Lemma clamp_within value min max :
  min <= clamp value min max /\
  (min <= max -> clamp value min max <= max).
Proof.
  unfold clamp. split; [apply Q.le_max_l|].
  intros H. apply Q.max_lub; [exact H | apply Q.le_min_l].
Qed.

(** [clamp] never goes under [min]; with [min <= max] it stays in the
    range and leaves alone a value that is in it; with [max < min] it gives
    [min]. *)
Theorem clamp_range value min max :
  min <= clamp value min max /\
  (min <= max -> clamp value min max <= max) /\
  (min <= value -> value <= max -> clamp value min max == value) /\
  (max < min -> clamp value min max == min).
Proof.
  unfold clamp. split; [apply Q.le_max_l|]. split; [|split].
  - intros H. apply Q.max_lub; [exact H | apply Q.le_min_l].
  - intros H1 H2. rewrite (Q.min_r _ _ H2). apply Q.max_r. exact H1.
  - intros H. apply Q.max_l.
    apply Qle_trans with max; [apply Q.le_min_l | apply Qlt_le_weak; exact H].
Qed.

Lemma clamp_range_witness :
  12 <= clamp 5 12 100 /\ clamp 5 12 100 <= 100 /\ clamp 50 12 100 == 50 /\
  clamp 50 12 3 == 12.
Proof.
  destruct (clamp_range 5 12 100) as (H1 & H2 & _).
  destruct (clamp_range 50 12 100) as (_ & _ & H3 & _).
  destruct (clamp_range 50 12 3) as (_ & _ & _ & H4).
  split; [exact H1|]. split; [apply H2; discriminate|].
  split; [apply H3; discriminate | apply H4; reflexivity].
Defined.

(** The test of [updateTooltipPosition] for an anchor that has left the
    panel. *)
Definition anchorOutside (lay : Layout) (a : nat) : bool :=
  Qlt_bool (right (barRect lay a)) (left (panelRect lay)) ||
  Qlt_bool (right (panelRect lay)) (left (barRect lay a)) ||
  Qlt_bool (bottom (barRect lay a)) (top (panelRect lay)) ||
  Qlt_bool (bottom (panelRect lay)) (top (barRect lay a)).

Lemma updateTooltipPosition_inside lay t a :
  activeBar t = Some a -> show t = true ->
  anchorOutside lay a = false ->
  phase (updateTooltipPosition lay t) = SHOWN a /\
  exists x y, styleLeftTop (updateTooltipPosition lay t) = Some (x, y) /\
    12 <= x /\ 12 <= y.
Proof.
  intros Ha Hs Hout. unfold updateTooltipPosition, anchorOutside in *.
  rewrite Ha, Hs. cbn [negb]. rewrite Hout.
  split; [unfold phase; cbn; rewrite Ha, Hs; reflexivity|].
  eexists. eexists. split; [reflexivity|].
  split; apply clamp_within.
Qed.

(** For a tooltip shown on [a], [updateTooltipPosition] hides it when the
    bar of [a] has left the panel, without moving it or changing its
    content; otherwise it keeps it shown on [a], with its content, and puts
    it at least 12 pixels from the left and top edges of the panel.  (The
    margins to the right and bottom edges come out of subtractions that the
    script rounds; nothing is stated about them.) *)
Theorem updateTooltipPosition_place lay t a :
  activeBar t = Some a -> show t = true ->
  let t' := updateTooltipPosition lay t in
  innerHTML t' = innerHTML t /\
  (anchorOutside lay a = true ->
     phase t' = HIDDEN /\ styleLeftTop t' = styleLeftTop t) /\
  (anchorOutside lay a = false ->
     phase t' = SHOWN a /\
     exists x y, styleLeftTop t' = Some (x, y) /\ 12 <= x /\ 12 <= y).
Proof.
  intros Ha Hs. unfold updateTooltipPosition, anchorOutside. rewrite Ha, Hs.
  cbn [negb]. cbv zeta. split; [|split; intros Hout; rewrite Hout].
  - match goal with |- context [if ?c then _ else _] => destruct c end;
      reflexivity.
  - split; reflexivity.
  - split; [unfold phase; cbn; rewrite Ha, Hs; reflexivity|].
    eexists. eexists. split; [reflexivity|].
    unfold clamp. split; apply Q.le_max_l.
Qed.
End TooltipPlace.

Definition sampleLayout : Tooltip.Layout :=
  Tooltip.mkLayout
    (Tooltip.mkRect 0 0 800 400 800 400)
    (fun _ => Tooltip.mkRect 100 200 180 228 80 28)
    (Tooltip.mkRect 0 0 200 100 200 100).

Lemma updateTooltipPosition_place_witness :
  Tooltip.phase
    (Tooltip.updateTooltipPosition sampleLayout (shownAt 0 (Tooltip.initial 0)))
    = Tooltip.SHOWN 0.
Proof.
  destruct (updateTooltipPosition_place sampleLayout
              (shownAt 0 (Tooltip.initial 0)) 0%nat eq_refl eq_refl)
    as (_ & _ & H).
  destruct (H eq_refl) as [Hphase _]. exact Hphase.
Defined.

(** ** The tooltip: what the handlers keep and what dismisses it *)

Section TooltipInvariants.
Import Tooltip.

(** The tooltip is not shown without an anchor, and [aria-hidden] says
    whether it is hidden. *)
Definition consistent (t : Tip) : Prop :=
  (show t = true -> activeBar t <> None) /\ ariaHidden t = negb (show t).

Lemma schedule_fields t :
  activeBar (scheduleTooltipPosition t) = activeBar t /\
  show (scheduleTooltipPosition t) = show t /\
  ariaHidden (scheduleTooltipPosition t) = ariaHidden t /\
  styleLeftTop (scheduleTooltipPosition t) = styleLeftTop t.
Proof.
  unfold scheduleTooltipPosition. destruct (truthyHandle (rafId t)); auto.
Qed.

Lemma hideTip_consistent t : consistent (hideTip t).
Proof. split; [discriminate | reflexivity]. Qed.

Lemma showTip_consistent b t :
  consistent t -> consistent (last (fst (showTipSteps b t)) t).
Proof.
  intros [Ha Hh]. unfold showTipSteps.
  destruct (buildTooltipContent _ _ _ _ _ _); cbn [fst last].
  - destruct (schedule_fields
                (setAriaHidden false (setShow true
                   (setInnerHTML a (setActiveBar (Some (bar_id b)) t)))))
      as (E1 & E2 & E3 & _).
    split; [rewrite E1; discriminate | rewrite E2, E3; reflexivity].
  - split; [discriminate | exact Hh].
Qed.

Lemma updateTooltipPosition_consistent lay t :
  consistent t -> consistent (updateTooltipPosition lay t).
Proof.
  intros H. unfold updateTooltipPosition.
  destruct (activeBar t) eqn:Ha; [|exact H].
  destruct (negb (show t)); [exact H|].
  match goal with |- context [if ?c then _ else _] => destruct c end.
  - apply hideTip_consistent.
  - destruct H as [H1 H2]. split; cbn; [rewrite Ha; discriminate | exact H2].
Qed.

Lemma frameCallbacks_consistent lay (waiting : list nat) : forall t,
  consistent t ->
  consistent (fold_left (fun s _ => frameCallback lay s) waiting t).
Proof.
  induction waiting as [|h rest IH]; intros t H; [exact H|].
  cbn [fold_left]. apply IH. unfold frameCallback.
  apply updateTooltipPosition_consistent. exact H.
Qed.

Lemma last_app_cons {A} (l : list A) x l' d :
  last (l ++ x :: l') d = last (x :: l') d.
Proof.
  induction l as [|y l IH]; [reflexivity|].
  cbn [app]. rewrite <- IH. destruct (l ++ x :: l') eqn:E; [|reflexivity].
  destruct l; discriminate.
Qed.

Lemma step_consistent t ev : consistent t -> consistent (step t ev).
Proof.
  intros H. unfold step.
  destruct ev; cbn [steps];
    try apply hideTip_consistent; try (apply showTip_consistent; exact H).
  - destruct (_ && _); [apply hideTip_consistent | apply showTip_consistent; exact H].
  - destruct (isEscape key).
    + unfold hideTipSteps. rewrite last_app_cons. split; [discriminate | reflexivity].
    + rewrite app_nil_r.
      destruct (isActivation key); [apply showTip_consistent; exact H | exact H].
  - destruct (isEscape key); [apply hideTip_consistent | exact H].
  - destruct (negb (show t)); [exact H|].
    destruct onBar; [exact H | apply hideTip_consistent].
  - destruct H as [H1 H2]. destruct (schedule_fields t) as (E1 & E2 & E3 & _).
    split; cbn [last]; [rewrite E1, E2; exact H1 | rewrite E2, E3; exact H2].
  - destruct H as [H1 H2]. destruct (schedule_fields t) as (E1 & E2 & E3 & _).
    split; cbn [last]; [rewrite E1, E2; exact H1 | rewrite E2, E3; exact H2].
  - cbn [last]. unfold animationFrame. apply frameCallbacks_consistent. exact H.
Qed.

(** Whatever the events, the handlers keep the tooltip consistent: shown
    only with an anchor, and [aria-hidden] the opposite of shown. *)
Theorem tooltip_stays_consistent t evs :
  consistent t -> consistent (run t evs).
Proof.
  revert t. induction evs as [|ev evs IH]; intros t H; [exact H|].
  cbn [run fold_left]. apply IH, step_consistent, H.
Qed.
End TooltipInvariants.

Lemma tooltip_stays_consistent_witness :
  consistent
    (Tooltip.run (Tooltip.initial 0)
       [Tooltip.MouseEnter (sampleBar 0); Tooltip.Scroll;
        Tooltip.AnimationFrame sampleLayout; Tooltip.Click (sampleBar 0)]).
Proof.
  apply (tooltip_stays_consistent (Tooltip.initial 0)).
  split; [discriminate | reflexivity].
Defined.

Section TooltipDismiss.
Import Tooltip.

Definition dismissals (b : Bar) : list Event :=
  [MouseLeave b; Blur b; DocKeyDown "Escape"; KeyDown b "Escape"; Render;
   PointerDown false].

(** Leaving a bar, losing focus, the Escape key, a new rendering pass and a
    pointer going down outside the bars all end with the tooltip hidden;
    none of them touches the frame callback that may be waiting.  A pointer
    going down on a bar changes nothing. *)
Theorem tooltip_dismissed t b :
  (forall ev, In ev (dismissals b) ->
     phase (step t ev) = HIDDEN /\
     rafId (step t ev) = rafId t /\ pending (step t ev) = pending t) /\
  step t (PointerDown true) = t.
Proof.
  split.
  - intros ev [<-|[<-|[<-|[<-|[<-|[<-|[]]]]]]]; try (repeat split; reflexivity).
    unfold step, phase. cbn [steps]. destruct (show t) eqn:Hs; cbn.
    + repeat split; reflexivity.
    + rewrite Hs. destruct (activeBar t); repeat split; reflexivity.
  - unfold step. cbn [steps]. destruct (negb (show t)); reflexivity.
Qed.

Lemma frameCallbacks_hidden lay (waiting : list nat) : forall t,
  phase t = HIDDEN ->
  let t' := fold_left (fun s _ => frameCallback lay s) waiting t in
  activeBar t' = activeBar t /\ show t' = show t /\
  styleLeftTop t' = styleLeftTop t /\ innerHTML t' = innerHTML t.
Proof.
  induction waiting as [|h rest IH]; intros t H; [cbn; auto|].
  cbn [fold_left].
  assert (E : frameCallback lay t = setRafId None t).
  { unfold frameCallback, updateTooltipPosition, phase in *. cbn.
    destruct (activeBar t); [|reflexivity].
    destruct (show t); [discriminate | reflexivity]. }
  rewrite E. apply (IH (setRafId None t)). exact H.
Qed.

(** A frame callback that runs after the tooltip was hidden moves nothing
    and shows nothing: the tooltip stays hidden, where it was, with the
    content it had. *)
Theorem stale_frame_is_harmless lay t :
  phase t = HIDDEN ->
  let t' := step t (AnimationFrame lay) in
  phase t' = HIDDEN /\ styleLeftTop t' = styleLeftTop t /\
  innerHTML t' = innerHTML t /\ pending t' = [].
Proof.
  intros H. unfold step. cbn [steps last]. unfold animationFrame.
  match goal with |- context [fold_left ?f ?l ?z] =>
    destruct (frameCallbacks_hidden lay l z H) as (Ea & Es & Ey & Eh);
    destruct (frameCallbacks_frame lay l z) as [Ep _] end.
  cbv zeta. split; [|split; [exact Ey | split; [exact Eh | exact Ep]]].
  unfold phase in *. rewrite Ea, Es. exact H.
Qed.

Lemma updateTooltipPosition_html lay t :
  innerHTML (updateTooltipPosition lay t) = innerHTML t.
Proof.
  unfold updateTooltipPosition. destruct (activeBar t); [|reflexivity].
  destruct (negb (show t)); [reflexivity|].
  match goal with |- context [if ?c then _ else _] => destruct c end; reflexivity.
Qed.

Lemma schedule_waits t :
  coalesced t ->
  exists h, rafId (scheduleTooltipPosition t) = Some h /\
            pending (scheduleTooltipPosition t) = [h].
Proof.
  intros H. pose proof (schedule_coalesced t H) as Hs.
  assert (Hr : rafId (scheduleTooltipPosition t) <> None).
  { unfold scheduleTooltipPosition, coalesced in *.
    destruct (rafId t) as [h|] eqn:E; [|discriminate].
    destruct H as [_ Hh]. destruct h; [lia|]. cbn. congruence. }
  unfold coalesced in Hs.
  destruct (rafId (scheduleTooltipPosition t)) as [h|]; [|congruence].
  exists h. split; [reflexivity | apply Hs].
Qed.

(** After a show request whose content builds, one frame callback waits;
    when it runs with the anchor inside the panel, the tooltip is still
    shown on that bar, with that content, at a place at least 12 pixels
    from the left and top of the panel, and nothing waits any more. *)
Theorem show_then_frame lay t b html :
  coalesced t ->
  buildTooltipContent (tooltipTitle b) (tooltipSub b) (tip_nivel b)
    (tip_inicio b) (tip_fin b) (tip_temas b) = Ok html ->
  anchorOutside lay (bar_id b) = false ->
  let t1 := step t (MouseEnter b) in
  let t2 := step t1 (AnimationFrame lay) in
  List.length (pending t1) = 1%nat /\
  phase t2 = SHOWN (bar_id b) /\ innerHTML t2 = html /\
  rafId t2 = None /\ pending t2 = [] /\
  exists x y, styleLeftTop t2 = Some (x, y) /\ (12 <= x)%Q /\ (12 <= y)%Q.
Proof.
  intros Hc Hhtml Hin. cbv zeta.
  assert (E1 : step t (MouseEnter b) =
               scheduleTooltipPosition
                 (setAriaHidden false (setShow true
                    (setInnerHTML html (setActiveBar (Some (bar_id b)) t))))).
  { unfold step. cbn [steps]. unfold showTipSteps. rewrite Hhtml. reflexivity. }
  rewrite E1.
  set (u := setAriaHidden false (setShow true
              (setInnerHTML html (setActiveBar (Some (bar_id b)) t)))).
  assert (Hu : coalesced u) by exact Hc.
  pose proof (schedule_coalesced u Hu) as Hs.
  destruct (schedule_fields u) as (Fa & Fs & _ & _).
  assert (Hh : innerHTML (scheduleTooltipPosition u) = html).
  { unfold scheduleTooltipPosition. destruct (truthyHandle (rafId u)); reflexivity. }
  destruct (schedule_waits u Hu) as (h & Hr & Hp).
  set (s := scheduleTooltipPosition u) in *.
  split; [rewrite Hp; reflexivity|].
  unfold step. cbn [steps last]. unfold animationFrame. rewrite Hp.
  cbn [fold_left]. unfold frameCallback.
  set (s0 := setRafId None
               (mkTip (activeBar s) (show s) (ariaHidden s) (innerHTML s)
                      (styleLeftTop s) (rafId s) [] (lastHandle s))).
  destruct (updateTooltipPosition_inside lay s0 (bar_id b) Fa Fs Hin)
    as (Hphase & x & y & Hxy & Hx & Hy).
  destruct (updateTooltipPosition_frame lay s0) as [Hr0 Hp0].
  split; [exact Hphase|]. split.
  { rewrite updateTooltipPosition_html. exact Hh. }
  split; [rewrite Hr0; reflexivity|]. split; [rewrite Hp0; reflexivity|].
  exists x, y. auto.
Qed.
End TooltipDismiss.

(** The tooltip shown on a bar and hidden again before the frame: the
    callback that the show requested still waits. *)
Definition hiddenBeforeFrame : Tooltip.Tip :=
  Tooltip.run (Tooltip.initial 0)
    [Tooltip.MouseEnter (sampleBar 0); Tooltip.MouseLeave (sampleBar 0)].

Lemma stale_frame_is_harmless_witness :
  Tooltip.pending hiddenBeforeFrame = [1%nat] /\
  Tooltip.phase
    (Tooltip.step hiddenBeforeFrame (Tooltip.AnimationFrame sampleLayout))
    = Tooltip.HIDDEN /\
  Tooltip.styleLeftTop
    (Tooltip.step hiddenBeforeFrame (Tooltip.AnimationFrame sampleLayout))
    = Tooltip.styleLeftTop hiddenBeforeFrame /\
  Tooltip.innerHTML
    (Tooltip.step hiddenBeforeFrame (Tooltip.AnimationFrame sampleLayout))
    = Tooltip.innerHTML hiddenBeforeFrame /\
  Tooltip.pending
    (Tooltip.step hiddenBeforeFrame (Tooltip.AnimationFrame sampleLayout))
    = [].
Proof.
  split; [vm_compute; reflexivity|].
  apply (stale_frame_is_harmless sampleLayout hiddenBeforeFrame).
  vm_compute. reflexivity.
Defined.

Lemma show_then_frame_witness :
  Tooltip.phase
    (Tooltip.step
       (Tooltip.step (Tooltip.initial 0) (Tooltip.MouseEnter (sampleBar 0)))
       (Tooltip.AnimationFrame sampleLayout))
    = Tooltip.SHOWN 0 /\
  Tooltip.rafId
    (Tooltip.step
       (Tooltip.step (Tooltip.initial 0) (Tooltip.MouseEnter (sampleBar 0)))
       (Tooltip.AnimationFrame sampleLayout))
    = None.
Proof.
  destruct (show_then_frame sampleLayout (Tooltip.initial 0) (sampleBar 0) _
              (eq_refl : coalesced (Tooltip.initial 0)) eq_refl eq_refl)
    as (_ & Hphase & _ & Hraf & _).
  split; [exact Hphase | exact Hraf].
Defined.

(** ** Escaping keeps the text *)

Section EscapeText.
Local Open Scope string_scope.

(** One of the five characters that [escapeHtml] replaces. *)
Definition isSpecial (c : ascii) : bool :=
  Ascii.eqb c "&" || isMarkup c.

Fixpoint plain (s : string) : bool :=
  match s with
  | EmptyString => true
  | String c t => negb (isSpecial c) && plain t
  end.

Lemma escapeChar_plain c : isSpecial c = false -> escapeChar c = Str.str1 c.
Proof.
  unfold isSpecial, isMarkup, escapeChar. intros H.
  destruct (Ascii.eqb c "&"); [discriminate H|].
  destruct (Ascii.eqb c "<"); [discriminate H|].
  destruct (Ascii.eqb c ">"); [discriminate H|].
  destruct (Ascii.eqb c Str.dquote); [discriminate H|].
  destruct (Ascii.eqb c Str.squote); [discriminate H|].
  reflexivity.
Qed.

Lemma escapeChar_special c :
  isSpecial c = true ->
  String.length (escapeChar c) <> 1%nat.
Proof.
  unfold isSpecial, isMarkup, escapeChar. intros H.
  destruct (Ascii.eqb c "&"); [discriminate|].
  destruct (Ascii.eqb c "<"); [discriminate|].
  destruct (Ascii.eqb c ">"); [discriminate|].
  destruct (Ascii.eqb c Str.dquote); [discriminate|].
  destruct (Ascii.eqb c Str.squote); [discriminate|].
  discriminate H.
Qed.

Lemma length_append a b :
  String.length (a ++ b) = (String.length a + String.length b)%nat.
Proof. induction a as [|c a IH]; cbn; congruence. Qed.

Lemma escapeString_length s :
  (String.length s <= String.length (escapeString s))%nat /\
  (String.length (escapeString s) = String.length s -> plain s = true).
Proof.
  induction s as [|c t [IH1 IH2]]; [split; reflexivity|].
  cbn [escapeString plain String.length]. rewrite length_append.
  destruct (isSpecial c) eqn:Hc.
  - pose proof (escapeChar_special c Hc) as Hlen.
    assert (Hpos : (1 <= String.length (escapeChar c))%nat).
    { unfold escapeChar.
      repeat match goal with |- context [if ?b then _ else _] => destruct b end;
        cbn; lia. }
    split; lia.
  - rewrite (escapeChar_plain c Hc). cbn [Str.str1 String.length negb andb].
    split; [lia|]. intros H. apply IH2. lia.
Qed.

(** Text without any of the five characters goes through [escapeHtml]
    unchanged, and it is the only text that does: any other text grows. *)
Theorem escapeString_plain s :
  (plain s = true -> escapeString s = s) /\
  (escapeString s = s -> plain s = true) /\
  (plain s = false ->
   (String.length s < String.length (escapeString s))%nat).
Proof.
  split; [|split].
  - induction s as [|c t IH]; [reflexivity|]. cbn [plain escapeString].
    intros H. apply andb_true_iff in H. destruct H as [Hc Ht].
    apply negb_true_iff in Hc. rewrite (escapeChar_plain c Hc), (IH Ht).
    reflexivity.
  - intros H. apply (proj2 (escapeString_length s)). rewrite H. reflexivity.
  - intros H. destruct (escapeString_length s) as [H1 H2].
    destruct (Nat.eq_dec (String.length (escapeString s)) (String.length s))
      as [E|E]; [rewrite (H2 E) in H; discriminate | lia].
Qed.

Lemma escapeString_plain_witness :
  escapeString "Secretaria de Salud" = "Secretaria de Salud".
Proof.
  apply (proj1 (escapeString_plain "Secretaria de Salud")). reflexivity.
Defined.
End EscapeText.

Section EscapeInjective.
Local Open Scope string_scope.

Fixpoint dropChars (n : nat) (s : string) : string :=
  match n, s with
  | S k, String _ t => dropChars k t
  | _, _ => s
  end.

(** The character that an escaped text starts with, and the rest of the
    escaped text. *)
Definition unescapeHead (s : string) : option (ascii * string) :=
  if startsWith "&amp;" s then Some ("&"%char, dropChars 5 s)
  else if startsWith "&lt;" s then Some ("<"%char, dropChars 4 s)
  else if startsWith "&gt;" s then Some (">"%char, dropChars 4 s)
  else if startsWith "&quot;" s then Some (Str.dquote, dropChars 6 s)
  else if startsWith "&#039;" s then Some (Str.squote, dropChars 6 s)
  else match s with
       | EmptyString => None
       | String c t => Some (c, t)
       end.

Lemma unescapeHead_escapeChar c r :
  unescapeHead (escapeChar c ++ r) = Some (c, r).
Proof.
  unfold escapeChar.
  destruct (Ascii.eqb c "&") eqn:E1; [apply Ascii.eqb_eq in E1; subst; reflexivity|].
  destruct (Ascii.eqb c "<") eqn:E2; [apply Ascii.eqb_eq in E2; subst; reflexivity|].
  destruct (Ascii.eqb c ">") eqn:E3; [apply Ascii.eqb_eq in E3; subst; reflexivity|].
  destruct (Ascii.eqb c Str.dquote) eqn:E4;
    [apply Ascii.eqb_eq in E4; subst; reflexivity|].
  destruct (Ascii.eqb c Str.squote) eqn:E5;
    [apply Ascii.eqb_eq in E5; subst; reflexivity|].
  unfold unescapeHead. cbn [Str.str1 append startsWith].
  rewrite (Ascii.eqb_sym "&" c), E1. reflexivity.
Qed.

(** [escapeHtml] loses nothing: two texts with the same escaped form are
    the same text. *)
Theorem escapeString_injective s1 : forall s2,
  escapeString s1 = escapeString s2 -> s1 = s2.
Proof.
  induction s1 as [|c1 t1 IH]; intros [|c2 t2] H; cbn [escapeString] in H.
  - reflexivity.
  - apply (f_equal unescapeHead) in H.
    rewrite unescapeHead_escapeChar in H. discriminate H.
  - apply (f_equal unescapeHead) in H.
    rewrite unescapeHead_escapeChar in H. discriminate H.
  - apply (f_equal unescapeHead) in H.
    rewrite !unescapeHead_escapeChar in H.
    injection H as -> Ht. f_equal. apply IH, Ht.
Qed.

Lemma escapeString_injective_witness : "a<b" = "a<b".
Proof. apply (escapeString_injective "a<b" "a<b"). reflexivity. Defined.
End EscapeInjective.

(** ** The calendar *)

Section Calendar.
Import Cal.

(** The steps of [civilFromDays] from the day of the 400-year era on. *)
Definition yoeOf (doe : Z) : Z :=
  (doe - doe / 1460 + doe / 36524 - doe / 146096) / 365.

Definition doyOf (doe : Z) : Z :=
  doe - (365 * yoeOf doe + yoeOf doe / 4 - yoeOf doe / 100).

Definition monthOf (doe : Z) : Z :=
  let mp := (5 * doyOf doe + 2) / 153 in
  if mp <? 10 then mp + 3 else mp - 9.

Lemma civilFromDays_era era doe :
  0 <= doe <= 146096 ->
  civilFromDays (era * 146097 + doe - 719468) =
    ((if monthOf doe <=? 2 then yoeOf doe + era * 400 + 1
      else yoeOf doe + era * 400),
     monthOf doe - 1).
Proof.
  intros H. unfold civilFromDays. cbv zeta.
  replace (era * 146097 + doe - 719468 + 719468) with (doe + era * 146097) by lia.
  rewrite Z.div_add by lia. rewrite (Z.div_small doe 146097) by lia.
  replace (doe + era * 146097 - (0 + era) * 146097) with doe by lia.
  reflexivity.
Qed.

(** A day of the era, counted in centuries [c], four-year cycles [q], years
    [r] and days [doy]: the last year of a cycle has a day more, except in
    the last cycle of the first three centuries. *)
Definition dayOfEra (c q r doy : Z) : Z :=
  36524 * c + 1461 * q + 365 * r + doy.

Definition inYear (c q r doy : Z) : Prop :=
  0 <= c <= 3 /\ 0 <= q <= 24 /\ 0 <= r <= 3 /\ 0 <= doy /\
  (doy <= 364 \/ (doy = 365 /\ r = 3 /\ (q <= 23 \/ c = 3))).

Lemma yoeOf_dayOfEra c q r doy :
  inYear c q r doy ->
  yoeOf (dayOfEra c q r doy) = 100 * c + 4 * q + r.
Proof.
  intros (Hc & Hq & Hr & Hd & Hlen). unfold yoeOf, dayOfEra.
  assert (Ec : c = 0 \/ c = 1 \/ c = 2 \/ c = 3) by lia.
  assert (Er : r = 0 \/ r = 1 \/ r = 2 \/ r = 3) by lia.
  destruct Ec as [Ec|[Ec|[Ec|Ec]]]; destruct Er as [Er|[Er|[Er|Er]]]; subst c r;
    Z.div_mod_to_equations; lia.
Qed.

Lemma doyOf_dayOfEra c q r doy :
  inYear c q r doy -> doyOf (dayOfEra c q r doy) = doy.
Proof.
  intros H. unfold doyOf. rewrite (yoeOf_dayOfEra _ _ _ _ H).
  destruct H as (Hc & Hq & Hr & Hd & Hlen). unfold dayOfEra.
  Z.div_mod_to_equations. lia.
Qed.

Lemma dayOfEra_exists doe :
  0 <= doe <= 146096 ->
  exists c q r doy, inYear c q r doy /\ doe = dayOfEra c q r doy.
Proof.
  intros H.
  set (c := Z.min 3 (doe / 36524)).
  set (d1 := doe - 36524 * c).
  set (q := d1 / 1461).
  set (d2 := d1 - 1461 * q).
  set (r := Z.min 3 (d2 / 365)).
  exists c, q, r, (d2 - 365 * r). unfold inYear, dayOfEra.
  subst r d2 q d1 c. Z.div_mod_to_equations. lia.
Qed.

(** The month of a date is one of the twelve. *)
Lemma civilFromDays_month n : 0 <= snd (civilFromDays n) <= 11.
Proof.
  pose proof (Z.div_mod (n + 719468) 146097 ltac:(lia)) as Hdm.
  pose proof (Z.mod_pos_bound (n + 719468) 146097 ltac:(lia)) as Hb.
  replace n with ((n + 719468) / 146097 * 146097 + (n + 719468) mod 146097 - 719468)
    by lia.
  rewrite civilFromDays_era by lia. cbn [snd].
  destruct (dayOfEra_exists ((n + 719468) mod 146097) ltac:(lia))
    as (c & q & r & doy & Hin & ->).
  unfold monthOf. rewrite (doyOf_dayOfEra _ _ _ _ Hin).
  destruct Hin as (_ & _ & _ & Hd & Hlen).
  destruct ((5 * doy + 2) / 153 <? 10) eqn:E;
    [apply Z.ltb_lt in E | apply Z.ltb_ge in E];
    Z.div_mod_to_equations; lia.
Qed.
End Calendar.


Section MonthIndex.
Import Cal.

(** The month index tells the year and the month apart: it is the months
    since January of the start year, so two dates have the same index
    exactly when they have the same year and month. *)
Theorem monthIndex_decodes n sy :
  exists i, monthIndex (Day n) (Num sy) = Num i /\
    getFullYear (Day n) = Num (sy + i / 12) /\
    getMonth (Day n) = Num (i mod 12) /\
    forall n', monthIndex (Day n') (Num sy) = Num i <->
               civilFromDays n' = civilFromDays n.
Proof.
  pose proof (civilFromDays_month n) as Hm.
  unfold monthIndex, getFullYear, getMonth. cbn [JS.sub JS.mul JS.add JS.lift2].
  destruct (civilFromDays n) as [yr mo] eqn:E. cbn [fst snd] in *.
  exists ((yr - sy) * 12 + mo). split; [reflexivity|].
  assert (Hdiv : ((yr - sy) * 12 + mo) / 12 = yr - sy).
  { rewrite Z.add_comm, Z.div_add by lia. rewrite Z.div_small by lia. lia. }
  assert (Hmod : ((yr - sy) * 12 + mo) mod 12 = mo).
  { rewrite Z.add_comm, Z.mod_add by lia. apply Z.mod_small. lia. }
  split; [f_equal; lia|]. split; [f_equal; lia|].
  intros n'. pose proof (civilFromDays_month n') as Hm'.
  destruct (civilFromDays n') as [yr' mo'] eqn:E'. cbn [fst snd] in *.
  split; intros H.
  - injection H as H. assert (yr' = yr /\ mo' = mo) by lia.
    destruct H0; subst; reflexivity.
  - injection H as -> ->. reflexivity.
Qed.
End MonthIndex.

(** ** Dates in order *)

Section MonthOrder.
Import Cal.

(** Year and month of a day as one number: twelve times the year plus the
    month. *)
Definition monthNumber (n : Z) : Z :=
  fst (civilFromDays n) * 12 + snd (civilFromDays n).

Lemma monthNumber_era era c q r doy :
  inYear c q r doy ->
  monthNumber (era * 146097 + dayOfEra c q r doy - 719468) =
    12 * (100 * c + 4 * q + r + era * 400) + (5 * doy + 2) / 153 + 2.
Proof.
  intros Hin. unfold monthNumber.
  assert (Hr : 0 <= dayOfEra c q r doy <= 146096).
  { destruct Hin as (Hc & Hq & Hr & Hd & Hlen). unfold dayOfEra. lia. }
  rewrite civilFromDays_era by exact Hr. unfold monthOf.
  rewrite (yoeOf_dayOfEra _ _ _ _ Hin), (doyOf_dayOfEra _ _ _ _ Hin).
  destruct Hin as (_ & _ & _ & Hd & Hlen).
  assert (Hmp : 0 <= (5 * doy + 2) / 153 <= 11) by (Z.div_mod_to_equations; lia).
  set (mp := (5 * doy + 2) / 153) in *.
  destruct (mp <? 10) eqn:E; [apply Z.ltb_lt in E | apply Z.ltb_ge in E].
  - destruct (mp + 3 <=? 2) eqn:E2; [apply Z.leb_le in E2; lia|].
    cbn [fst snd]. lia.
  - destruct (mp - 9 <=? 2) eqn:E2; [|apply Z.leb_gt in E2; lia].
    cbn [fst snd]. lia.
Qed.

Lemma dayOfEra_order c q r doy c' q' r' doy' :
  inYear c q r doy -> inYear c' q' r' doy' ->
  dayOfEra c q r doy <= dayOfEra c' q' r' doy' ->
  12 * (100 * c + 4 * q + r) + (5 * doy + 2) / 153 <=
  12 * (100 * c' + 4 * q' + r') + (5 * doy' + 2) / 153.
Proof.
  intros (Hc & Hq & Hr & Hd & Hlen) (Hc' & Hq' & Hr' & Hd' & Hlen') Hle.
  unfold dayOfEra in Hle.
  assert (Hmp : 0 <= (5 * doy + 2) / 153 <= 11) by (Z.div_mod_to_equations; lia).
  assert (Hmp' : 0 <= (5 * doy' + 2) / 153 <= 11) by (Z.div_mod_to_equations; lia).
  destruct (Z.lt_trichotomy (100 * c + 4 * q + r) (100 * c' + 4 * q' + r'))
    as [Hlt|[Heq|Hgt]].
  - lia.
  - assert (c = c' /\ q = q' /\ r = r') as (-> & -> & ->) by lia.
    assert (doy <= doy') by lia.
    Z.div_mod_to_equations. lia.
  - exfalso. lia.
Qed.

(** A later day is in the same month or in a later one. *)
Lemma monthNumber_mono n n' : n <= n' -> monthNumber n <= monthNumber n'.
Proof.
  intros Hle.
  pose proof (Z.div_mod (n + 719468) 146097 ltac:(lia)) as Hdm.
  pose proof (Z.mod_pos_bound (n + 719468) 146097 ltac:(lia)) as Hb.
  pose proof (Z.div_mod (n' + 719468) 146097 ltac:(lia)) as Hdm'.
  pose proof (Z.mod_pos_bound (n' + 719468) 146097 ltac:(lia)) as Hb'.
  destruct (dayOfEra_exists ((n + 719468) mod 146097) ltac:(lia))
    as (c & q & r & doy & Hin & E).
  destruct (dayOfEra_exists ((n' + 719468) mod 146097) ltac:(lia))
    as (c' & q' & r' & doy' & Hin' & E').
  set (era := (n + 719468) / 146097) in *.
  set (era' := (n' + 719468) / 146097) in *.
  replace n with (era * 146097 + dayOfEra c q r doy - 719468) by lia.
  replace n' with (era' * 146097 + dayOfEra c' q' r' doy' - 719468) by lia.
  rewrite (monthNumber_era _ _ _ _ _ Hin), (monthNumber_era _ _ _ _ _ Hin').
  assert (Hera : era <= era').
  { unfold era, era'. apply Z.div_le_mono; lia. }
  destruct (Z.eq_dec era era') as [Ee|Ne].
  - rewrite <- Ee in *.
    assert (Hd : dayOfEra c q r doy <= dayOfEra c' q' r' doy') by lia.
    pose proof (dayOfEra_order _ _ _ _ _ _ _ _ Hin Hin' Hd). lia.
  - destruct Hin as (Hc & Hq & Hr & Hd & Hlen).
    destruct Hin' as (Hc' & Hq' & Hr' & Hd' & Hlen').
    assert (Hmp : 0 <= (5 * doy + 2) / 153 <= 11) by (Z.div_mod_to_equations; lia).
    assert (Hmp' : 0 <= (5 * doy' + 2) / 153 <= 11) by (Z.div_mod_to_equations; lia).
    lia.
Qed.

(** Dates in order make an interval: a record whose dates parse, with a
    start date that is not after the end date, is an interval. *)
Lemma isInterval_of_dates i n1 n2 :
  parseDate (inicio i) = Ok (Day n1) -> parseDate (fin i) = Ok (Day n2) ->
  n1 <= n2 -> isInterval i = true.
Proof.
  intros E1 E2 Hle. unfold isInterval. rewrite E1, E2.
  pose proof (monthNumber_mono _ _ Hle) as Hm. unfold monthNumber in Hm.
  unfold monthIndex, getFullYear, getMonth.
  cbn [JS.add JS.sub JS.mul JS.lift2 JS.le JS.cmp2].
  apply Z.leb_le. lia.
Qed.
End MonthOrder.

(** ** The grid *)

Record GridLine : Type := mkLine {
  line_isYear : bool;
  line_left : Z
}.

Record YearLabel : Type := mkLabel {
  label_left : Z;
  label_text : string
}.

(** What [buildGrid] puts in the grid: the width it gives the canvas, the
    markup of the year row, the month lines and the year labels. *)
Record Grid : Type := mkGrid {
  grid_width : jsnum;
  yearRowHTML : string;
  gridLines : list GridLine;
  yearLabels : list YearLabel
}.

(** The values of [i] in [for (let i = 0; i <= n; i++)]. *)
Definition upTo (n : jsnum) : list Z :=
  match n with
  | Num z => map Z.of_nat (seq 0 (Z.to_nat (z + 1)))
  | NaN => []
  end.

Definition buildGrid (env : Env) (startYear endYear : jsnum) : Grid :=
  let totalM := totalMonths startYear endYear in
  mkGrid
    (setCanvasWidth env startYear endYear)
    ("<span>" ++ Str.ofNum startYear ++ " → " ++ Str.ofNum endYear ++ "</span>")%string
    (map (fun i => mkLine (i mod 12 =? 0) (10 + i * MONTH_PX)) (upTo totalM))
    (match startYear with
     | Num s =>
         map (fun k => mkLabel (10 + (k * 12) * MONTH_PX + 6) (Str.ofZ (s + k)))
             (upTo (JS.sub endYear startYear))
     | NaN => []
     end).

Lemma upTo_length z : 0 <= z + 1 -> Z.of_nat (List.length (upTo (Num z))) = z + 1.
Proof. intros H. cbn [upTo]. rewrite length_map, length_seq. lia. Qed.

Lemma upTo_In n i : In i (upTo (Num n)) <-> 0 <= i <= n.
Proof.
  cbn [upTo]. rewrite in_map_iff. split.
  - intros (k & <- & Hk). apply in_seq in Hk. lia.
  - intros H. exists (Z.to_nat i). split; [lia|]. apply in_seq. lia.
Qed.

Lemma gridLines_In env s e l :
  In l (gridLines (buildGrid env (Num s) (Num e))) <->
  exists i, 0 <= i <= (e - s + 1) * 12 /\ l = mkLine (i mod 12 =? 0) (10 + i * 18).
Proof.
  unfold buildGrid. cbn [gridLines]. unfold totalMonths, MONTH_PX.
  cbn [JS.sub JS.add JS.mul JS.lift2]. rewrite in_map_iff. split.
  - intros (i & <- & Hi). apply upTo_In in Hi. eauto.
  - intros (i & Hi & ->). exists i. split; [reflexivity | apply upTo_In; exact Hi].
Qed.

Lemma yearLabels_In env s e l :
  In l (yearLabels (buildGrid env (Num s) (Num e))) <->
  exists y, s <= y <= e /\
    l = mkLabel (10 + ((y - s) * 12) * 18 + 6) (Str.ofZ y).
Proof.
  unfold buildGrid. cbn [yearLabels]. unfold MONTH_PX.
  cbn [JS.sub JS.lift2]. rewrite in_map_iff. split.
  - intros (k & <- & Hk). apply upTo_In in Hk. exists (s + k).
    split; [lia|]. replace (s + k - s) with k by lia. reflexivity.
  - intros (y & Hy & ->). exists (y - s).
    replace (s + (y - s)) with y by lia.
    split; [reflexivity | apply upTo_In; lia].
Qed.

(** For a range of years from [s] to [e], [s <= e]: there is one line for
    each month and one more, 18 pixels apart from 10 on; the lines of the
    months that are multiples of 12 are the year lines; there is one label
    for each year, 6 pixels right of the year line of its January, with the
    year for text; and at the month width of 18 the canvas ends 10 pixels
    after the last line. *)
Theorem buildGrid_lines env s e :
  s <= e ->
  let g := buildGrid env (Num s) (Num e) in
  let total := (e - s + 1) * 12 in
  Z.of_nat (List.length (gridLines g)) = total + 1 /\
  (forall l, In l (gridLines g) <->
     exists i, 0 <= i <= total /\ l = mkLine (i mod 12 =? 0) (10 + i * 18)) /\
  Z.of_nat (List.length (yearLabels g)) = e - s + 1 /\
  (forall l, In l (yearLabels g) <->
     exists y, s <= y <= e /\
       l = mkLabel (10 + ((y - s) * 12) * 18 + 6) (Str.ofZ y)) /\
  (forall l, In l (yearLabels g) ->
     In (mkLine true (label_left l - 6)) (gridLines g)) /\
  (getMonthWidth env = Num 18 -> grid_width g = Num (10 + total * 18 + 10)).
Proof.
  intros Hse g total. unfold g.
  split; [|split; [apply gridLines_In|split; [|split; [apply yearLabels_In|split]]]].
  - unfold buildGrid. cbn [gridLines]. unfold totalMonths.
    cbn [JS.sub JS.add JS.mul JS.lift2]. fold total.
    rewrite length_map. apply upTo_length. unfold total. lia.
  - unfold buildGrid. cbn [yearLabels JS.sub JS.lift2].
    rewrite length_map, upTo_length by lia. lia.
  - intros l Hl. apply yearLabels_In in Hl. destruct Hl as (y & Hy & ->).
    cbn [label_left]. apply gridLines_In. exists ((y - s) * 12).
    split; [lia|].
    rewrite Z.mod_mul by lia. cbn [Z.eqb]. f_equal. lia.
  - intros Hw. unfold buildGrid. cbn [grid_width].
    unfold setCanvasWidth, totalMonths. rewrite Hw.
    cbn [JS.sub JS.add JS.mul JS.lift2]. fold total. f_equal. lia.
Qed.

Lemma buildGrid_lines_witness :
  Z.of_nat (List.length (gridLines (buildGrid env2026 (Num 2000) (Num 2001)))) = 25 /\
  Z.of_nat (List.length (yearLabels (buildGrid env2026 (Num 2000) (Num 2001)))) = 2.
Proof.
  destruct (buildGrid_lines env2026 2000 2001 ltac:(discriminate))
    as (H1 & _ & H2 & _).
  split; [exact H1 | exact H2].
Defined.

(** Without numbers for the years the grid is empty: no line and no label
    when the start year is NaN, and none either when the end year is. *)
Lemma buildGrid_without_bounds env y :
  gridLines (buildGrid env NaN y) = [] /\ yearLabels (buildGrid env NaN y) = [] /\
  gridLines (buildGrid env y NaN) = [] /\ yearLabels (buildGrid env y NaN) = [] /\
  grid_width (buildGrid env NaN y) = NaN /\ grid_width (buildGrid env y NaN) = NaN.
Proof. destruct y; repeat split; reflexivity. Qed.

(** ** More on the stacking *)

Section StackingOrder.

Lemma stackOverlaps_inv items sy st :
  stackOverlaps items sy = Ok st ->
  exists mapped, mapM (toSeg sy) items = Ok mapped /\
    st = mkStacked (fst (stackLoop (ArraySort.sort compareSegs mapped) []))
           (List.length (snd (stackLoop (ArraySort.sort compareSegs mapped) []))).
Proof.
  intros H. destruct (mapM (toSeg sy) items) as [mapped|e] eqn:Hm.
  - exists mapped. split; [reflexivity|].
    rewrite (stackOverlaps_unfold _ _ _ Hm) in H. congruence.
  - unfold stackOverlaps in H. rewrite Hm in H. discriminate.
Qed.

Lemma mapM_length {A B} (f : A -> result B) l : forall l',
  mapM f l = Ok l' -> List.length l' = List.length l.
Proof.
  induction l as [|x t IH]; simpl; intros l' H.
  - inversion H. reflexivity.
  - destruct (f x); simpl in H; [|discriminate].
    destruct (mapM f t) as [t'|]; simpl in H; [|discriminate].
    inversion H; subst. simpl. f_equal. apply IH. reflexivity.
Qed.

Lemma stackLoop_length l rowsEnd placed final :
  stackLoop l rowsEnd = (placed, final) -> List.length placed = List.length l.
Proof.
  intros H. apply stackLoop_shape in H.
  induction H; simpl; congruence.
Qed.

(** Every row that the loop leaves open was open before it or holds a
    segment, and the loop opens at most one row for each segment. *)
Lemma stackLoop_rows_used l : forall rowsEnd placed final,
  stackLoop l rowsEnd = (placed, final) ->
  (List.length final <= List.length rowsEnd + List.length l)%nat /\
  forall r, (r < List.length final)%nat ->
    (r < List.length rowsEnd)%nat \/ exists p, In p placed /\ _row p = Some r.
Proof.
  induction l as [|s rest IH]; intros rowsEnd placed final H.
  - inversion H; subst. split; [simpl; lia | auto].
  - apply stackLoop_cons in H.
    destruct H as (r0 & rowsEnd' & placed' & Ha & Hl & ->).
    destruct (IH _ _ _ Hl) as [Hlen Hused].
    pose proof (assignRow_length _ _ _ _ _ Ha) as Hlen'.
    destruct (assignRow_spec _ _ _ _ _ Ha) as (Hr0 & _).
    split; [simpl; lia|].
    intros r Hr. destruct (Hused r Hr) as [Hold|(p & Hp & Hrow)].
    + destruct (Nat.lt_ge_cases r (List.length rowsEnd)) as [Hlt|Hge]; [left; exact Hlt|].
      right. exists (setRow r0 s). split; [left; reflexivity|].
      simpl. f_equal. lia.
    + right. exists p. split; [right; exact Hp | exact Hrow].
Qed.

(** The rows of a stacking are numbered without gaps.  Whatever the records,
    when [stackOverlaps] returns there is one segment for each record, every
    segment has a row below [rowCount], every row below [rowCount] holds a
    segment, and there are no more rows than records; there is no row only
    when there is no record. *)
Theorem stackOverlaps_rows_used items sy st :
  stackOverlaps items sy = Ok st ->
  List.length (segs st) = List.length items /\
  (rowCount st <= List.length items)%nat /\
  Forall (fun p => exists r, _row p = Some r /\ (r < rowCount st)%nat) (segs st) /\
  (forall r, (r < rowCount st)%nat -> exists p, In p (segs st) /\ _row p = Some r) /\
  (rowCount st = 0%nat <-> items = []).
Proof.
  intros H. destruct (stackOverlaps_inv _ _ _ H) as (mapped & Hm & ->).
  destruct (stackLoop (ArraySort.sort compareSegs mapped) []) as [placed final] eqn:Hl.
  cbn [segs rowCount fst snd].
  pose proof (mapM_length _ _ _ Hm) as Hlen.
  pose proof (Permutation_length (sort_perm compareSegs mapped)) as Hsort.
  pose proof (stackLoop_length _ _ _ _ Hl) as Hplaced.
  destruct (stackLoop_rows_used _ _ _ _ Hl) as [Hle Hused].
  destruct (stackLoop_rows _ _ _ _ Hl) as [_ Hrows].
  cbn [List.length] in Hle.
  split; [lia|]. split; [lia|]. split; [exact Hrows|]. split.
  - intros r Hr. destruct (Hused r Hr) as [Hold|Hp]; [simpl in Hold; lia | exact Hp].
  - split.
    + intros Hz. destruct items as [|x t]; [reflexivity|]. exfalso.
      destruct placed as [|p placed']; [simpl in *; lia|].
      inversion Hrows as [|? ? (r & _ & Hr) _]; subst. lia.
    + intros ->. simpl in Hlen. lia.
Qed.

Definition overlappingPairStacked : Stacked :=
  mkStacked
    [mkSeg (period "2010-01-01" "2012-01-01") (Num 156) (Num 180) (Some 0%nat);
     mkSeg (period "2011-01-01" "2013-01-01") (Num 168) (Num 192) (Some 1%nat)]
    2.

Lemma stackOverlaps_rows_used_witness :
  List.length (segs overlappingPairStacked) = List.length overlappingPair /\
  (rowCount overlappingPairStacked <= List.length overlappingPair)%nat /\
  Forall (fun p => exists r, _row p = Some r /\
                     (r < rowCount overlappingPairStacked)%nat)
         (segs overlappingPairStacked) /\
  (forall r, (r < rowCount overlappingPairStacked)%nat ->
     exists p, In p (segs overlappingPairStacked) /\ _row p = Some r) /\
  (rowCount overlappingPairStacked = 0%nat <-> overlappingPair = []).
Proof.
  apply (stackOverlaps_rows_used overlappingPair (Num 1997) overlappingPairStacked).
  reflexivity.
Defined.

(** *** The order of the segments *)

(** Both coordinates are numbers. *)
Definition numericSeg (s : Seg) : Prop :=
  JS.isFinite (_start s) = true /\ JS.isFinite (_end s) = true.

(** [a] comes no later than [b] by start month, then by end month. *)
Definition inOrder (a b : Seg) : Prop :=
  JS.lt (_start a) (_start b) = true \/
  (_start a = _start b /\ JS.le (_end a) (_end b) = true).

Lemma sort_inOrder l :
  Forall numericSeg l -> ForallOrdPairs inOrder (ArraySort.sort compareSegs l).
Proof.
  apply sort_sorted; unfold numericSeg, inOrder, ArraySort.sortCompare.
  - intros a b c [H1|[E1 H1]] [H2|[E2 H2]].
    + left. js_solve.
    + left. rewrite <- E2. exact H1.
    + left. rewrite E1. exact H2.
    + right. split; [congruence | js_solve].
  - intros x y [X1 X2] [Y1 Y2].
    unfold compareSegs.
    destruct (_start x) as [|sx]; [discriminate|].
    destruct (_start y) as [|sy']; [discriminate|].
    destruct (_end x) as [|ex]; [discriminate|].
    destruct (_end y) as [|ey]; [discriminate|].
    unfold JS.or, JS.truthy, JS.sub, JS.lift2, JS.lt, JS.le, JS.cmp2.
    destruct (sy' - sx =? 0) eqn:E; cbn [negb]; intros H.
    + apply Z.eqb_eq in E. right. split; [f_equal; lia | apply Z.leb_le; lia].
    + apply Z.eqb_neq in E. left. apply Z.ltb_lt. lia.
  - intros x y [X1 X2] [Y1 Y2].
    unfold compareSegs.
    destruct (_start x) as [|sx]; [discriminate|].
    destruct (_start y) as [|sy']; [discriminate|].
    destruct (_end x) as [|ex]; [discriminate|].
    destruct (_end y) as [|ey]; [discriminate|].
    unfold JS.or, JS.truthy, JS.sub, JS.lift2, JS.lt, JS.le, JS.cmp2.
    destruct (sy' - sx =? 0) eqn:E; cbn [negb]; intros H.
    + apply Z.eqb_eq in E. right. split; [f_equal; lia | apply Z.leb_le; lia].
    + apply Z.eqb_neq in E. left. apply Z.ltb_lt. lia.
Qed.

Lemma Forall2_In_r {A B} (R : A -> B -> Prop) l l' y :
  Forall2 R l l' -> In y l' -> exists x, In x l /\ R x y.
Proof.
  induction 1 as [|a b l l' Hab _ IH]; intros Hy; [contradiction|].
  destruct Hy as [<-|Hy].
  - exists a. split; [left; reflexivity | exact Hab].
  - destruct (IH Hy) as (x & Hx & HR). exists x. split; [right; exact Hx | exact HR].
Qed.

(** A relation on the coordinates survives the loop, which only fills in
    rows. *)
Lemma FOP_placed (R : Seg -> Seg -> Prop) l placed :
  (forall a b ra rb, R a b -> R (setRow ra a) (setRow rb b)) ->
  Forall2 (fun s p => exists r, p = setRow r s) l placed ->
  ForallOrdPairs R l -> ForallOrdPairs R placed.
Proof.
  intros HR H. induction H as [|s p l' placed' [r ->] Hrest IH]; intros Hl.
  - constructor.
  - inversion Hl as [|? ? Hs Hl']; subst. constructor; [|auto].
    rewrite Forall_forall in Hs |- *. intros q Hq.
    destruct (Forall2_In_r _ _ _ _ Hrest Hq) as (q0 & Hq0 & rq & ->).
    apply HR. auto.
Qed.

(** When both dates of every record parse, the segments come back in order
    of start month, and in order of end month among those that start
    together. *)
Theorem stackOverlaps_sorted items sy mapped :
  mapM (toSeg sy) items = Ok mapped ->
  Forall numericSeg mapped ->
  exists st, stackOverlaps items sy = Ok st /\
    ForallOrdPairs inOrder (segs st).
Proof.
  intros Hm Hn. rewrite (stackOverlaps_unfold _ _ _ Hm).
  eexists. split; [reflexivity|]. cbn [segs].
  destruct (stackLoop (ArraySort.sort compareSegs mapped) []) as [placed final] eqn:Hl.
  cbn [fst]. eapply FOP_placed; [|eapply stackLoop_shape; exact Hl|apply sort_inOrder, Hn].
  intros a b ra rb H. exact H.
Qed.

Lemma stackOverlaps_sorted_witness :
  exists st, stackOverlaps overlappingPair (Num 1997) = Ok st /\
    ForallOrdPairs inOrder (segs st).
Proof.
  apply (stackOverlaps_sorted overlappingPair (Num 1997)
           [mkSeg (period "2010-01-01" "2012-01-01") (Num 156) (Num 180) None;
            mkSeg (period "2011-01-01" "2013-01-01") (Num 168) (Num 192) None]).
  - reflexivity.
  - repeat constructor.
Defined.

(** *** Records with the same range *)

(** The segment spans the months [a] to [e]. *)
Definition sameRange (a e : Z) (s : Seg) : bool :=
  match _start s, _end s with
  | Num x, Num y => (x =? a) && (y =? e)
  | _, _ => false
  end.

Lemma sameRange_compare a e x y :
  sameRange a e x = true -> sameRange a e y = true ->
  ArraySort.sortCompare compareSegs y x = 0.
Proof.
  unfold sameRange, ArraySort.sortCompare, compareSegs.
  destruct (_start x), (_end x), (_start y), (_end y); try discriminate.
  intros H1 H2. apply andb_true_iff in H1. apply andb_true_iff in H2.
  destruct H1 as [H1 H1']. destruct H2 as [H2 H2'].
  apply Z.eqb_eq in H1. apply Z.eqb_eq in H1'.
  apply Z.eqb_eq in H2. apply Z.eqb_eq in H2'. subst.
  unfold JS.or, JS.truthy, JS.sub, JS.lift2.
  rewrite !Z.sub_diag. reflexivity.
Qed.

Lemma insertBack_sameRange a e x racc :
  filter (sameRange a e) (ArraySort.insertBack compareSegs x racc) =
  filter (sameRange a e) (x :: racc).
Proof.
  induction racc as [|y t IH]; [reflexivity|].
  cbn [ArraySort.insertBack].
  destruct (ArraySort.sortCompare compareSegs y x >? 0) eqn:Hc; [|reflexivity].
  cbn [filter] in *. rewrite IH.
  destruct (sameRange a e x) eqn:Hx; [|reflexivity].
  destruct (sameRange a e y) eqn:Hy; [|reflexivity].
  rewrite (sameRange_compare _ _ _ _ Hx Hy) in Hc. discriminate.
Qed.

Lemma sort_sameRange a e l :
  filter (sameRange a e) (ArraySort.sort compareSegs l) = filter (sameRange a e) l.
Proof.
  unfold ArraySort.sort.
  assert (G : forall racc,
    filter (sameRange a e)
      (rev (fold_left (fun racc x => ArraySort.insertBack compareSegs x racc) l racc)) =
    filter (sameRange a e) (rev racc) ++ filter (sameRange a e) l).
  { induction l as [|x t IH]; intros racc; cbn [fold_left].
    - rewrite app_nil_r. reflexivity.
    - rewrite IH.
      rewrite (filter_rev _ (ArraySort.insertBack compareSegs x racc)).
      rewrite insertBack_sameRange, <- filter_rev. cbn [rev].
      change (x :: t) with ([x] ++ t).
      rewrite !filter_app, <- app_assoc. reflexivity. }
  rewrite G. reflexivity.
Qed.

Lemma placed_sameRange a e l placed :
  Forall2 (fun s p => exists r, p = setRow r s) l placed ->
  map it (filter (sameRange a e) placed) = map it (filter (sameRange a e) l).
Proof.
  induction 1 as [|s p l' placed' [r ->] _ IH]; [reflexivity|].
  cbn [filter]. change (sameRange a e (setRow r s)) with (sameRange a e s).
  destruct (sameRange a e s); cbn [map]; rewrite IH; reflexivity.
Qed.

(** The sort is stable.  When both dates of every record parse, the
    comparator is a consistent order, and the records that span the same
    months, from [a] to [e], come out of [stackOverlaps] in the order they
    had in the data. *)
Theorem stackOverlaps_stable items sy mapped a e :
  mapM (toSeg sy) items = Ok mapped ->
  Forall numericSeg mapped ->
  map it mapped = items /\
  exists st, stackOverlaps items sy = Ok st /\
    map it (filter (sameRange a e) (segs st)) =
    map it (filter (sameRange a e) mapped).
Proof.
  intros Hm _. split.
  - revert mapped Hm. induction items as [|i t IH]; intros mapped Hm.
    + inversion Hm. reflexivity.
    + cbn [mapM] in Hm. unfold toSeg at 1 in Hm.
      destruct (parseDate (inicio i)); [|discriminate].
      destruct (parseDate (fin i)); [|discriminate].
      cbn [JS.bind] in Hm.
      destruct (mapM (toSeg sy) t) as [t'|]; [|discriminate].
      cbn [JS.bind] in Hm. inversion Hm; subst. cbn [map it]. f_equal.
      apply IH. reflexivity.
  - rewrite (stackOverlaps_unfold _ _ _ Hm). eexists. split; [reflexivity|].
    cbn [segs].
    destruct (stackLoop (ArraySort.sort compareSegs mapped) []) as [placed final] eqn:Hl.
    cbn [fst]. rewrite (placed_sameRange _ _ _ _ (stackLoop_shape _ _ _ _ Hl)).
    rewrite sort_sameRange. reflexivity.
Qed.

Definition recordA : Item := period "2010-01-01" "2012-01-01".
Definition recordB : Item :=
  mkItem (JStr "2011-01-01") (JStr "2013-01-01") (JStr "b")
         JUndefined JUndefined JUndefined None.
Definition recordC : Item :=
  mkItem (JStr "2011-01-15") (JStr "2013-01-20") (JStr "c")
         JUndefined JUndefined JUndefined None.

Lemma stackOverlaps_stable_witness :
  exists st, stackOverlaps [recordB; recordA; recordC] (Num 1997) = Ok st /\
    map it (filter (sameRange 168 192) (segs st)) = [recordB; recordC].
Proof.
  destruct (stackOverlaps_stable [recordB; recordA; recordC] (Num 1997)
              [mkSeg recordB (Num 168) (Num 192) None;
               mkSeg recordA (Num 156) (Num 180) None;
               mkSeg recordC (Num 168) (Num 192) None] 168 192 eq_refl)
    as (_ & st & Hst & Hsame).
  - repeat constructor.
  - exists st. split; [exact Hst | exact Hsame].
Defined.

(** *** The lowest free row *)

(** The segment [q] is open at the month where [p] starts. *)
Definition openAtStart (q p : Seg) : Prop :=
  JS.le (_start q) (_start p) = true /\ JS.le (_start p) (_end q) = true.

Lemma rowTops_step pre rowsEnd s rest r rowsEnd' :
  rowTops pre rowsEnd (s :: rest) ->
  proper s -> Forall (startsNoLater s) rest ->
  assignRow (_start s) (_end s) rowsEnd 0 = (r, rowsEnd') ->
  rowTops (pre ++ [setRow r s]) rowsEnd' rest.
Proof.
  intros Htops Hps Hs Ha.
  destruct (assignRow_spec _ _ _ _ _ Ha) as (_ & Hnew & Hother & _).
  intros r' x Hx. destruct (Nat.eq_dec r' r) as [->|Hne].
  - exists (setRow r s). rewrite Hnew in Hx. inversion Hx; subst.
    split; [apply in_or_app; right; left; reflexivity|].
    repeat split; auto.
  - rewrite Hother in Hx by assumption.
    destruct (Htops r' x Hx) as (y & Hy & Hrow & Hend & Hproper & Hle).
    exists y. split; [apply in_or_app; left; exact Hy|].
    inversion Hle; subst. repeat split; auto.
Qed.

Lemma stackLoop_lowest rest : forall pre rowsEnd placed final,
  stackLoop rest rowsEnd = (placed, final) ->
  ForallOrdPairs startsNoLater rest -> Forall proper rest ->
  rowTops pre rowsEnd rest ->
  forall l1 p l2 r j, placed = l1 ++ p :: l2 ->
    _row p = Some r -> (j < r)%nat ->
    exists q, In q (pre ++ l1) /\ _row q = Some j /\ openAtStart q p.
Proof.
  induction rest as [|s rest IH];
    intros pre rowsEnd placed final H Hsorted Hprop Htops l1 p l2 r j Hp Hr Hj.
  - inversion H; subst. destruct l1; discriminate.
  - apply stackLoop_cons in H.
    destruct H as (r0 & rowsEnd' & placed' & Ha & Hl & ->).
    inversion Hsorted as [|? ? Hs Hrest]; subst.
    inversion Hprop as [|? ? Hps Hprest]; subst.
    destruct l1 as [|p1 l1'].
    + cbn [app] in Hp. inversion Hp; subst. cbn [setRow _row] in Hr.
      inversion Hr; subst. clear Hr Hp.
      destruct (assignRow_spec _ _ _ _ _ Ha) as (Hle & _ & _ & _ & Hscan).
      destruct (nth_error rowsEnd j) as [x|] eqn:Hx;
        [|apply nth_error_None in Hx; lia].
      destruct (Htops j x Hx) as (y & Hy & Hrow & Hend & Hproper & Hnl).
      exists y. rewrite app_nil_r. split; [exact Hy|]. split; [exact Hrow|].
      pose proof (Hscan j x Hj Hx) as Hngt.
      inversion Hnl as [|? ? Hys _]; subst.
      unfold openAtStart. cbn [setRow _start _end].
      unfold startsNoLater in Hys. split; [exact Hys|].
      unfold proper in Hps, Hproper.
      revert Hys Hngt Hps Hproper. clear. js_solve.
    + cbn [app] in Hp. inversion Hp; subst.
      destruct (IH (pre ++ [setRow r0 s]) rowsEnd' (l1' ++ p :: l2) final Hl Hrest Hprest
                  (rowTops_step _ _ _ _ _ _ Htops Hps Hs Ha)
                  l1' p l2 r j eq_refl Hr Hj) as (q & Hq & Hrow & Hopen).
      exists q. rewrite <- app_assoc in Hq. split; [exact Hq|]. split; assumption.
Qed.

Lemma proper_sorted mapped :
  Forall proper mapped ->
  ForallOrdPairs startsNoLater (ArraySort.sort compareSegs mapped) /\
  Forall proper (ArraySort.sort compareSegs mapped).
Proof.
  intros Hp. split.
  - apply sort_by_start. eapply Forall_impl; [apply proper_numericStart | exact Hp].
  - apply sort_Forall, Hp.
Qed.

(** Each segment gets the lowest row that is free.  When no record starts
    after it ends (both dates parsing), [stackOverlaps] returns and, for a
    segment in row [r] and any lower row [j], an earlier segment of the
    result lies in row [j] and is still open at the month where the segment
    starts. *)
Theorem stackOverlaps_lowest_free_row items sy mapped :
  mapM (toSeg sy) items = Ok mapped ->
  Forall proper mapped ->
  exists st, stackOverlaps items sy = Ok st /\
    forall i p r j, nth_error (segs st) i = Some p -> _row p = Some r ->
      (j < r)%nat ->
      exists k q, (k < i)%nat /\ nth_error (segs st) k = Some q /\
        _row q = Some j /\ openAtStart q p.
Proof.
  intros Hm Hp. rewrite (stackOverlaps_unfold _ _ _ Hm).
  eexists. split; [reflexivity|]. cbn [segs].
  destruct (stackLoop (ArraySort.sort compareSegs mapped) []) as [placed final] eqn:Hl.
  cbn [fst]. intros i p r j Hi Hr Hj.
  destruct (nth_error_split _ _ Hi) as (l1 & l2 & -> & Hlen).
  destruct (proper_sorted _ Hp) as [Hsorted Hprop].
  assert (Htops : rowTops [] [] (ArraySort.sort compareSegs mapped))
    by (intros r' x Hx; destruct r'; discriminate).
  destruct (stackLoop_lowest _ _ _ _ _ Hl Hsorted Hprop Htops l1 p l2 r j eq_refl Hr Hj)
    as (q & Hq & Hrow & Hopen).
  cbn [app] in Hq. destruct (In_nth_error _ _ Hq) as [k Hk].
  assert (Hlt : (k < List.length l1)%nat)
    by (apply nth_error_Some; congruence).
  exists k, q. split; [lia|]. split; [|split; assumption].
  rewrite nth_error_app1 by exact Hlt. exact Hk.
Qed.

Lemma stackOverlaps_lowest_free_row_witness :
  exists st, stackOverlaps overlappingPair (Num 1997) = Ok st /\
    forall i p r j, nth_error (segs st) i = Some p -> _row p = Some r ->
      (j < r)%nat ->
      exists k q, (k < i)%nat /\ nth_error (segs st) k = Some q /\
        _row q = Some j /\ openAtStart q p.
Proof.
  apply (stackOverlaps_lowest_free_row overlappingPair (Num 1997)
           [mkSeg (period "2010-01-01" "2012-01-01") (Num 156) (Num 180) None;
            mkSeg (period "2011-01-01" "2013-01-01") (Num 168) (Num 192) None]).
  - reflexivity.
  - repeat constructor.
Defined.

(** *** Records that do not overlap *)

Definition apart (a b : Seg) : Prop := overlaps a b = false.

Lemma FOP_perm {A} (R : A -> A -> Prop) l :
  ForallOrdPairs R l ->
  forall l', Permutation l l' ->
  (forall a b, R a b -> R b a) ->
  ForallOrdPairs R l'.
Proof.
  intros H l' Hperm Hsym. revert H.
  induction Hperm as [|x l1 l2 Hp IH|x y l1|l1 l2 l3 H12 IH12 H23 IH23]; intros H.
  - constructor.
  - inversion H as [|? ? Hx Hl]; subst. constructor; [|auto].
    rewrite Forall_forall in Hx |- *. intros z Hz. apply Hx.
    eapply Permutation_in; [symmetry; exact Hp | exact Hz].
  - inversion H as [|? ? Hy Hl]; subst.
    inversion Hl as [|? ? Hx Hl']; subst.
    inversion Hy as [|? ? Hyx Hyl]; subst.
    constructor; [constructor; [apply Hsym; exact Hyx | exact Hx]|].
    constructor; assumption.
  - auto.
Qed.

(** Records of which no two share a month all go in row 0.  When no record
    starts after it ends and the month ranges of the records are pairwise
    disjoint, every segment of the result has row 0, and there is one row,
    or none when there is no record. *)
Theorem stackOverlaps_single_row items sy mapped :
  mapM (toSeg sy) items = Ok mapped ->
  Forall proper mapped ->
  ForallOrdPairs apart mapped ->
  exists st, stackOverlaps items sy = Ok st /\
    Forall (fun p => _row p = Some 0%nat) (segs st) /\
    (rowCount st <= 1)%nat.
Proof.
  intros Hm Hp Hap.
  rewrite (stackOverlaps_unfold _ _ _ Hm).
  eexists. split; [reflexivity|]. cbn [segs rowCount].
  destruct (stackLoop (ArraySort.sort compareSegs mapped) []) as [placed final] eqn:Hl.
  cbn [fst snd].
  destruct (stackLoop_rows _ _ _ _ Hl) as [_ Hrows].
  destruct (stackLoop_rows_used _ _ _ _ Hl) as [_ Hused].
  destruct (proper_sorted _ Hp) as [Hsorted Hprop].
  assert (Htops : rowTops [] [] (ArraySort.sort compareSegs mapped))
    by (intros r' x Hx; destruct r'; discriminate).
  assert (Hplaced : ForallOrdPairs apart placed /\ Forall proper placed).
  { split.
    - eapply FOP_placed; [|eapply stackLoop_shape; exact Hl|].
      + intros a b ra rb H. exact H.
      + eapply FOP_perm; [exact Hap | symmetry; apply sort_perm|].
        unfold apart, overlaps. intros a b H. rewrite andb_comm. exact H.
    - destruct (stackLoop_items _ _ _ _ Hl) as [_ Hkeep].
      apply (Hkeep (fun st_ en _ => JS.le st_ en = true)). exact Hprop. }
  destruct Hplaced as [Hapart Hproper].
  assert (Hzero : Forall (fun p => _row p = Some 0%nat) placed).
  { apply Forall_forall. intros p Hin.
    destruct (In_nth_error _ _ Hin) as [i Hi].
    rewrite Forall_forall in Hrows. destruct (Hrows p Hin) as (r & Hr & _).
    destruct r as [|r]; [exact Hr|]. exfalso.
    destruct (nth_error_split _ _ Hi) as (l1 & l2 & E & Hlen).
    destruct (stackLoop_lowest _ _ _ _ _ Hl Hsorted Hprop Htops l1 p l2 (S r) 0%nat E Hr
                ltac:(lia)) as (q & Hq & _ & Hopen).
    cbn [app] in Hq. destruct (In_nth_error _ _ Hq) as [k Hk].
    assert (Hlt : (k < List.length l1)%nat) by (apply nth_error_Some; congruence).
    assert (Hk' : nth_error placed k = Some q)
      by (rewrite E, nth_error_app1 by exact Hlt; exact Hk).
    pose proof (FOP_nth _ _ Hapart k i q p ltac:(lia) Hk' Hi) as Hno.
    rewrite Forall_forall in Hproper. pose proof (Hproper p Hin) as Hpp.
    destruct Hopen as [H1 H2]. unfold apart, overlaps in Hno. unfold proper in Hpp.
    revert H1 H2 Hno Hpp. clear. js_solve. }
  split; [exact Hzero|].
  destruct (Nat.le_gt_cases (List.length final) 1) as [Hle|Hgt]; [exact Hle|].
  exfalso. destruct (Hused 1%nat Hgt) as [Hold|(p & Hin & Hrow)];
    [simpl in Hold; lia|].
  rewrite Forall_forall in Hzero. rewrite (Hzero p Hin) in Hrow. discriminate.
Qed.

Lemma stackOverlaps_single_row_witness :
  exists st, stackOverlaps [period "2005-01-01" "2006-12-01";
                            period "2001-01-01" "2002-12-01"] (Num 1997) = Ok st /\
    Forall (fun p => _row p = Some 0%nat) (segs st) /\
    (rowCount st <= 1)%nat.
Proof.
  apply (stackOverlaps_single_row _ (Num 1997)
           [mkSeg (period "2005-01-01" "2006-12-01") (Num 96) (Num 119) None;
            mkSeg (period "2001-01-01" "2002-12-01") (Num 48) (Num 71) None]).
  - reflexivity.
  - repeat constructor.
  - repeat constructor.
Defined.

End StackingOrder.

(** ** More on the lane *)

Section LaneLayout.

Lemma renderBars_nth mode l : forall id i b,
  nth_error (renderBars mode id l) i = Some b ->
  exists s, nth_error l i = Some s /\ placedAs s b.
Proof.
  induction l as [|s t IH]; intros id i b H.
  - destruct i; discriminate.
  - destruct i as [|i]; cbn [renderBars nth_error] in *.
    + inversion H; subst. exists s. split; [reflexivity|]. repeat split.
    + eapply IH. exact H.
Qed.

Lemma placed_proper l rowsEnd placed final :
  stackLoop l rowsEnd = (placed, final) -> Forall proper l -> Forall proper placed.
Proof.
  intros Hl Hp. destruct (stackLoop_items _ _ _ _ Hl) as [_ Hkeep].
  apply (Hkeep (fun st_ en _ => JS.le st_ en = true)). exact Hp.
Qed.

(** The bars of a row do not run into one another.  When no record starts
    after it ends, two bars of the lane with the same top are apart: the
    earlier one ends, in pixels, no further right than the later one
    starts. *)
Theorem renderLane_bars_apart title subtitle items mode sy lane mapped :
  renderLane title subtitle items mode sy = Ok lane ->
  mapM (toSeg sy) items = Ok mapped ->
  Forall proper mapped ->
  forall i j a b, (i < j)%nat ->
    nth_error (bars lane) i = Some a -> nth_error (bars lane) j = Some b ->
    bar_top a = bar_top b ->
    exists la wa lb, bar_left a = Num la /\ bar_width a = Num wa /\
      bar_left b = Num lb /\ la + wa <= lb.
Proof.
  intros Hlane Hm Hp i j a b Hij Ha Hb Htop.
  destruct (renderLane_inv _ _ _ _ _ _ Hlane) as (st & Hst & Hbars).
  rewrite (stackOverlaps_unfold _ _ _ Hm) in Hst. inversion Hst; subst st; clear Hst.
  cbn [segs] in Hbars. rewrite Hbars in Ha, Hb.
  destruct (stackLoop (ArraySort.sort compareSegs mapped) []) as [placed final] eqn:Hl.
  cbn [fst] in Ha, Hb.
  destruct (renderBars_nth _ _ _ _ _ Ha) as (sa & Hsa & Ha1 & Ha2 & Ha3).
  destruct (renderBars_nth _ _ _ _ _ Hb) as (sb & Hsb & Hb1 & Hb2 & Hb3).
  destruct (proper_sorted _ Hp) as [Hsorted Hprop].
  pose proof (stackLoop_chain _ _ _ _ Hl (compat_of_sorted _ Hsorted)) as Hchain.
  pose proof (placed_proper _ _ _ _ Hl Hprop) as Hpl.
  destruct (stackLoop_rows _ _ _ _ Hl) as [_ Hrows].
  rewrite Forall_forall in Hpl, Hrows.
  pose proof (Hpl _ (nth_error_In _ _ Hsa)) as Hpa.
  pose proof (Hpl _ (nth_error_In _ _ Hsb)) as Hpb.
  destruct (Hrows _ (nth_error_In _ _ Hsa)) as (ra & Hra & _).
  destruct (Hrows _ (nth_error_In _ _ Hsb)) as (rb & Hrb & _).
  assert (Hrow : _row sa = _row sb).
  { rewrite Ha3, Hb3 in Htop. unfold barTop in Htop. rewrite Hra, Hrb in *.
    cbn [rowNumber JS.add JS.mul JS.lift2] in Htop.
    assert (E : 6 + Z.of_nat ra * (28 + 6) = 6 + Z.of_nat rb * (28 + 6))
      by congruence.
    f_equal. lia. }
  pose proof (FOP_nth _ _ Hchain i j sa sb Hij Hsa Hsb Hrow) as Hgt.
  rewrite Ha1, Ha2, Hb1. unfold barWidth, barLeft.
  unfold proper in Hpa, Hpb.
  destruct (_start sa) as [|s1]; [discriminate|].
  destruct (_end sa) as [|e1]; [discriminate|].
  destruct (_start sb) as [|s2]; [discriminate|].
  cbn [JS.add JS.sub JS.mul JS.max JS.lift2].
  eexists. eexists. eexists. split; [reflexivity|]. split; [reflexivity|].
  split; [reflexivity|].
  unfold JS.le, JS.gt, JS.cmp2 in Hpa, Hgt.
  apply Z.leb_le in Hpa. rewrite Z.gtb_ltb in Hgt. apply Z.ltb_lt in Hgt. lia.
Qed.

Definition consecutivePeriods : list Item :=
  [period "2005-01-01" "2006-12-01"; period "2001-01-01" "2004-12-01"].

Definition consecutiveLane : Lane :=
  mkLane "<strong>Cargos</strong><small>Barras</small>" (Num 90)
    (renderBars "persona" 0
       [mkSeg (period "2001-01-01" "2004-12-01") (Num 48) (Num 95) (Some 0%nat);
        mkSeg (period "2005-01-01" "2006-12-01") (Num 96) (Num 119) (Some 0%nat)]).

Lemma renderLane_bars_apart_witness :
  exists la wa lb,
    bar_left (renderBar "persona" 0
                (mkSeg (period "2001-01-01" "2004-12-01") (Num 48) (Num 95)
                       (Some 0%nat))) = Num la /\
    bar_width (renderBar "persona" 0
                 (mkSeg (period "2001-01-01" "2004-12-01") (Num 48) (Num 95)
                        (Some 0%nat))) = Num wa /\
    bar_left (renderBar "persona" 1
                (mkSeg (period "2005-01-01" "2006-12-01") (Num 96) (Num 119)
                       (Some 0%nat))) = Num lb /\
    la + wa <= lb.
Proof.
  apply (renderLane_bars_apart "Cargos" "Barras" consecutivePeriods "persona"
           (Num 1997) consecutiveLane
           [mkSeg (period "2005-01-01" "2006-12-01") (Num 96) (Num 119) None;
            mkSeg (period "2001-01-01" "2004-12-01") (Num 48) (Num 95) None]
           ltac:(vm_compute; reflexivity) eq_refl
           ltac:(repeat constructor) 0%nat 1%nat).
  - lia.
  - reflexivity.
  - reflexivity.
  - reflexivity.
Defined.

(** The lane is tall enough for its bars.  The minimum height of a lane is
    the greater of 90 and 34 pixels for each row plus 10; every bar has a
    row, its top is at least 6, and its bottom edge, 28 pixels below its
    top, is at least 10 pixels above the minimum height. *)
Theorem renderLane_height title subtitle items mode sy lane :
  renderLane title subtitle items mode sy = Ok lane ->
  exists st h, stackOverlaps items sy = Ok st /\
    minHeight lane = Num h /\
    h = Z.max 90 (Z.of_nat (rowCount st) * 34 + 10) /\
    Forall (fun b => exists t, bar_top b = Num t /\ 6 <= t /\
                       t + LANE_BAR_H + 10 <= h) (bars lane).
Proof.
  unfold renderLane. intros H.
  destruct (stackOverlaps items sy) as [st|] eqn:Hst; [|discriminate].
  cbn [JS.bind] in H. inversion H; subst lane; clear H.
  exists st. eexists. split; [reflexivity|].
  cbn [minHeight bars JS.add JS.mul JS.max JS.lift2].
  split; [reflexivity|]. split; [unfold LANE_BAR_H, STACK_GAP; reflexivity|].
  destruct (stackOverlaps_inv _ _ _ Hst) as (mapped & Hm & ->).
  cbn [segs rowCount].
  destruct (stackLoop (ArraySort.sort compareSegs mapped) []) as [placed final] eqn:Hl.
  cbn [fst snd].
  destruct (stackLoop_rows _ _ _ _ Hl) as [_ Hrows].
  pose proof (renderBars_geometry mode placed 0) as Hgeo.
  clear Hl Hst Hm. revert Hrows Hgeo.
  generalize (renderBars mode 0 placed). intros bs Hrows Hgeo.
  induction Hgeo as [|s b l bs' (_ & _ & Ht) _ IH]; [constructor|].
  inversion Hrows as [|? ? (r & Hr & Hlt) Hrest]; subst.
  constructor; [|apply IH; exact Hrest].
  rewrite Ht. unfold barTop. rewrite Hr.
  cbn [rowNumber JS.add JS.mul JS.lift2]. eexists. split; [reflexivity|].
  unfold LANE_BAR_H, STACK_GAP. lia.
Qed.

Lemma renderLane_height_witness :
  exists st h, stackOverlaps consecutivePeriods (Num 1997) = Ok st /\
    minHeight consecutiveLane = Num h /\
    h = Z.max 90 (Z.of_nat (rowCount st) * 34 + 10) /\
    Forall (fun b => exists t, bar_top b = Num t /\ 6 <= t /\
                       t + LANE_BAR_H + 10 <= h) (bars consecutiveLane).
Proof.
  apply (renderLane_height "Cargos" "Barras" consecutivePeriods "persona"
           (Num 1997) consecutiveLane).
  vm_compute. reflexivity.
Defined.

End LaneLayout.

(** ** The records on the grid *)

Section OnGrid.

Lemma years_inv i ys ye :
  years i = Ok (Num ys, Num ye) ->
  exists n1 n2, parseDate (inicio i) = Ok (Day n1) /\
    parseDate (fin i) = Ok (Day n2) /\
    fst (civilFromDays n1) = ys /\ fst (civilFromDays n2) = ye.
Proof.
  unfold years. destruct (parseDate (inicio i)) as [d1|]; [|discriminate].
  destruct (parseDate (fin i)) as [d2|]; [|discriminate].
  cbn [JS.bind]. intros H.
  destruct d1 as [|n1]; [discriminate|]. destruct d2 as [|n2]; [discriminate|].
  cbn [getFullYear] in H. exists n1, n2. repeat split; congruence.
Qed.

Lemma validDates_strings items :
  Forall validDates items -> forallb hasStringDates items = true.
Proof.
  intros H. apply forallb_forall. intros i Hi.
  rewrite Forall_forall in H. destruct (H i Hi) as (ys & ye & Hy).
  pose proof (hasStringDates_years i) as Hs.
  destruct (hasStringDates i); [reflexivity|].
  unfold throws in Hs. congruence.
Qed.

Lemma getTimelineBounds_extent env items :
  items <> [] -> Forall validDates items ->
  exists sy ey,
    getTimelineBounds env items = Ok (mkBounds (Num sy) (Num ey)) /\
    sy <= 1997 <= ey /\
    (forall i ys ye, In i items -> years i = Ok (Num ys, Num ye) ->
       sy <= ys /\ ye <= ey).
Proof.
  intros Hne Hv.
  destruct (getTimelineBounds_valid env items Hne Hv)
    as (lo & hi & Hb & (Hlo1 & Hlo2 & _) & (Hhi1 & Hhi2 & _)).
  exists (Z.min 1997 lo), (Z.max (END_YEAR_DEFAULT env) hi).
  split; [exact Hb|]. split; [lia|].
  intros i ys ye Hi Hy.
  assert (Hs : startOf i = Num ys) by (unfold startOf; rewrite Hy; reflexivity).
  assert (He : endOf i = Num ye) by (unfold endOf; rewrite Hy; reflexivity).
  pose proof (Hlo2 i ys Hi Hs). pose proof (Hhi2 i ye Hi He). lia.
Qed.

(** The bounds contain every record.  For records whose dates all parse,
    at least one of them, [getTimelineBounds] returns numbers for both
    years; no record starts in a year before the start year or ends in a
    year after the end year; the start year is the lesser of 1997 and the
    current year unless it is the year some record starts in, and the end
    year the greater of them unless it is the year some record ends in. *)
Theorem getTimelineBounds_covers env items :
  items <> [] -> Forall validDates items ->
  exists sy ey,
    getTimelineBounds env items = Ok (mkBounds (Num sy) (Num ey)) /\
    (forall i ys ye, In i items -> years i = Ok (Num ys, Num ye) ->
       sy <= ys /\ ye <= ey) /\
    (sy = Z.min 1997 (END_YEAR_DEFAULT env) \/
     exists i ye, In i items /\ years i = Ok (Num sy, ye)) /\
    (ey = Z.max 1997 (END_YEAR_DEFAULT env) \/
     exists i ys, In i items /\ years i = Ok (ys, Num ey)).
Proof.
  intros Hne Hv.
  destruct (getTimelineBounds_valid env items Hne Hv)
    as (lo & hi & Hb & (Hlo1 & Hlo2 & Hlo3) & (Hhi1 & Hhi2 & Hhi3)).
  exists (Z.min 1997 lo), (Z.max (END_YEAR_DEFAULT env) hi).
  split; [exact Hb|]. split; [|split].
  - intros i ys ye Hi Hy.
    assert (Hs : startOf i = Num ys) by (unfold startOf; rewrite Hy; reflexivity).
    assert (He : endOf i = Num ye) by (unfold endOf; rewrite Hy; reflexivity).
    pose proof (Hlo2 i ys Hi Hs). pose proof (Hhi2 i ye Hi He). lia.
  - destruct Hlo3 as [->|(x & Hx & Hs)]; [left; lia|].
    destruct (Z.le_gt_cases 1997 lo) as [Hle|Hgt].
    + left. lia.
    + right. rewrite Z.min_r by lia. unfold startOf in Hs.
      destruct (years x) as [[a b]|] eqn:Hy; [|discriminate].
      cbn [fst] in Hs. subst a. exists x, b. split; [exact Hx | exact Hy].
  - destruct Hhi3 as [->|(x & Hx & He)]; [left; lia|].
    destruct (Z.le_gt_cases hi (END_YEAR_DEFAULT env)) as [Hle|Hgt].
    + left. lia.
    + right. rewrite Z.max_r by lia. unfold endOf in He.
      destruct (years x) as [[a b]|] eqn:Hy; [|discriminate].
      cbn [snd] in He. subst b. exists x, a. split; [exact Hx | exact Hy].
Qed.

Lemma getTimelineBounds_covers_witness :
  exists sy ey,
    getTimelineBounds env2026 overlappingPair = Ok (mkBounds (Num sy) (Num ey)) /\
    (forall i ys ye, In i overlappingPair -> years i = Ok (Num ys, Num ye) ->
       sy <= ys /\ ye <= ey) /\
    (sy = Z.min 1997 (END_YEAR_DEFAULT env2026) \/
     exists i ye, In i overlappingPair /\ years i = Ok (Num sy, ye)) /\
    (ey = Z.max 1997 (END_YEAR_DEFAULT env2026) \/
     exists i ys, In i overlappingPair /\ years i = Ok (ys, Num ey)).
Proof.
  apply (getTimelineBounds_covers env2026 overlappingPair).
  - discriminate.
  - constructor; [exists 2010, 2012; reflexivity|].
    constructor; [exists 2011, 2013; reflexivity|]. constructor.
Defined.

(** The months of a record with valid dates, counted from a start year that
    is no later than the year the record starts in, up to an end year no
    earlier than the year it ends in. *)
Lemma coordinates_in_grid sy ey s :
  coordinatesOf (Num sy) s ->
  (exists ys ye, years (it s) = Ok (Num ys, Num ye) /\ sy <= ys /\ ye <= ey) ->
  exists m e, _start s = Num m /\ _end s = Num e /\
    0 <= m /\ e < (ey - sy + 1) * 12.
Proof.
  intros [Hs He] (ys & ye & Hy & Hlo & Hhi).
  destruct (years_inv _ _ _ Hy) as (n1 & n2 & H1 & H2 & E1 & E2).
  rewrite (Hs _ H1), (He _ H2). unfold monthIndex, getFullYear, getMonth.
  rewrite E1, E2. cbn [JS.add JS.sub JS.mul JS.lift2].
  pose proof (civilFromDays_month n1). pose proof (civilFromDays_month n2).
  eexists. eexists. split; [reflexivity|]. split; [reflexivity|]. lia.
Qed.

(** A bar that starts on the line of month [m] of the grid and spans the
    months to [e]. *)
Definition onGrid (g : Grid) (total : Z) (b : Bar) : Prop :=
  exists m e w,
    0 <= m /\ e < total /\
    bar_left b = Num (10 + m * 18) /\
    bar_width b = Num w /\
    w = Z.max 18 ((e - m + 1) * 18 - 2) /\
    (m <= e -> In (mkLine (m mod 12 =? 0) (10 + m * 18)) (gridLines g) /\
               10 + m * 18 + w <= 10 + total * 18).

(** The bars sit on the grid that is drawn with them.  In a pass over
    records whose dates all parse, [renderTimeline] returns; the grid built
    for the bounds of the pass has the width of the canvas; and every bar
    whose record does not end before it starts has its left edge on the
    grid line of its start month and its right edge no further right than
    the last grid line. *)
Theorem renderTimeline_bars_on_grid env type sel items :
  cargos sel = Some items -> items <> [] -> Forall validDates items ->
  exists view lane sy ey,
    renderTimeline env type (Some sel) = Ok view /\
    rows view = LaneRows lane /\
    currentStartYear view = Num sy /\ currentEndYear view = Num ey /\
    sy <= ey /\
    grid_width (buildGrid env (Num sy) (Num ey)) = canvasWidth view /\
    Forall (onGrid (buildGrid env (Num sy) (Num ey)) ((ey - sy + 1) * 12))
           (bars lane).
Proof.
  intros Hc Hne Hv.
  destruct (getTimelineBounds_extent env items Hne Hv)
    as (sy & ey & Hb & Hsy' & Hcov).
  assert (Hsy : sy <= ey) by lia.
  pose proof (validDates_strings _ Hv) as Hstr.
  destruct (proj1 (stackOverlaps_keeps items (Num sy)) Hstr)
    as (st & Hst & Hperm & Hcoord).
  assert (Hgrid : Forall (fun s => exists m e, _start s = Num m /\ _end s = Num e /\
                            0 <= m /\ e < (ey - sy + 1) * 12) (segs st)).
  { rewrite Forall_forall in Hcoord, Hv |- *. intros s Hs.
    apply (coordinates_in_grid sy ey s (Hcoord s Hs)).
    assert (Hi : In (it s) items)
      by (eapply Permutation_in; [exact Hperm | apply in_map; exact Hs]).
    destruct (Hv _ Hi) as (ys & ye & Hy). exists ys, ye.
    split; [exact Hy | exact (Hcov _ _ _ Hi Hy)]. }
  unfold renderTimeline. rewrite Hc, Hb.
  destruct items as [|x t]; [congruence|].
  cbv beta iota delta [JS.bind]. cbn [startYear endYear].
  unfold renderLane. rewrite Hst. cbv beta iota delta [JS.bind].
  assert (Hbars : forall mode,
    Forall (onGrid (buildGrid env (Num sy) (Num ey)) ((ey - sy + 1) * 12))
           (renderBars mode 0 (segs st))).
  { intros mode. pose proof (renderBars_geometry mode (segs st) 0) as Hgeo.
    revert Hgrid Hgeo. generalize (renderBars mode 0 (segs st)), (segs st).
    intros bs l Hgrid Hgeo.
    induction Hgeo as [|s b l' bs' (Hl & Hw & _) _ IH]; [constructor|].
    inversion Hgrid as [|? ? (m & e & Hm & He & H0 & H1) Hrest]; subst.
    constructor; [|apply IH; exact Hrest].
    exists m, e, (Z.max 18 ((e - m + 1) * 18 - 2)).
    split; [exact H0|]. split; [exact H1|].
    rewrite Hl, Hw. unfold barWidth, barLeft. rewrite Hm, He.
    cbn [JS.add JS.sub JS.mul JS.max JS.lift2].
    split; [reflexivity|]. split; [f_equal; lia|]. split; [reflexivity|].
    intros Hme. split; [|lia].
    apply gridLines_In. exists m. split; [lia | reflexivity]. }
  destruct (isPersona type); eexists; eexists; exists sy, ey;
    (split; [reflexivity|]); (split; [reflexivity|]);
    (split; [reflexivity|]); (split; [reflexivity|]);
    (split; [exact Hsy|]); (split; [reflexivity|]); apply Hbars.
Qed.

Definition ana : Entity := mkEntity (JStr "Ana") (Some overlappingPair).

Lemma renderTimeline_bars_on_grid_witness :
  exists view lane sy ey,
    renderTimeline env2026 "persona" (Some ana) = Ok view /\
    rows view = LaneRows lane /\
    currentStartYear view = Num sy /\ currentEndYear view = Num ey /\
    sy <= ey /\
    grid_width (buildGrid env2026 (Num sy) (Num ey)) = canvasWidth view /\
    Forall (onGrid (buildGrid env2026 (Num sy) (Num ey)) ((ey - sy + 1) * 12))
           (bars lane).
Proof.
  apply (renderTimeline_bars_on_grid env2026 "persona" ana overlappingPair).
  - reflexivity.
  - discriminate.
  - constructor; [exists 2010, 2012; reflexivity|].
    constructor; [exists 2011, 2013; reflexivity|]. constructor.
Defined.

End OnGrid.

(** ** Dates in the tooltip *)

Section FormatDates.

Lemma monthName_index z :
  0 <= z <= 11 ->
  exists name, nth_error months (Z.to_nat z) = Some name /\ monthName (Num z) = name.
Proof.
  intros Hz. unfold monthName.
  destruct (z <? 0) eqn:E; [apply Z.ltb_lt in E; lia|].
  destruct (nth_error months (Z.to_nat z)) as [name|] eqn:Hn.
  - exists name. split; [reflexivity|]. apply nth_error_nth. exact Hn.
  - apply nth_error_None in Hn. cbn [months List.length] in Hn. lia.
Qed.

(** What the tooltip prints for a date.  For a string that parses to a
    date, [formatMY] gives one of the twelve month names, the one of the
    month of the date, a space and the year; for a string that does not, it
    gives the text undefined NaN; for a value that is not a string it
    throws a TypeError. *)
Theorem formatMY_shape v :
  match v with
  | JStr str =>
      exists d, parseDate v = Ok d /\
        match d with
        | Day n =>
            exists name,
              nth_error months (Z.to_nat (snd (civilFromDays n))) = Some name /\
              formatMY v =
                Ok (name ++ " " ++ Str.ofZ (fst (civilFromDays n)))%string
        | InvalidDate => formatMY v = Ok "undefined NaN"%string
        end
  | _ => formatMY v = Throw TypeError
  end.
Proof.
  destruct v as [| |str]; try reflexivity.
  unfold formatMY. destruct (parseDate (JStr str)) as [d|] eqn:Hd;
    [|discriminate].
  exists d. split; [reflexivity|]. cbn [JS.bind].
  destruct d as [|n]; [reflexivity|].
  cbn [getMonth getFullYear Str.ofNum].
  destruct (monthName_index _ (civilFromDays_month n)) as (name & Hn & ->).
  exists name. split; [exact Hn | reflexivity].
Qed.

End FormatDates.

(** ** Scrolling *)

Section Scrolling.

(** [scrollToToday], given the date that [new Date()] returns and the start
    year of the last pass: the new scroll position. *)
Definition scrollToToday (env : Env) (now : Date) (currentStartYear : jsnum)
  : jsnum :=
  let idx := monthIndex now currentStartYear in
  JS.max (Num 0) (JS.sub (JS.mul idx (getMonthWidth env)) (Num 260)).

(** Where a pass leaves the scroller does not depend on the records.  A
    pass over an entity that returns with a lane sets the scroll position
    to the greater of 0 and 120 month widths less 200 pixels, which is 1960
    at the month width of 18, provided the start year is a number, and to
    NaN when it is not; a pass that returns with the empty state leaves the
    scroll position alone. *)
Theorem renderTimeline_scroll env type sel :
  match renderTimeline env type sel with
  | Ok view =>
      match rows view with
      | LaneRows _ =>
          exists x, scrollLeft view = Some x /\
            match currentStartYear view, getMonthWidth env with
            | Num _, Num w => x = Num (Z.max 0 (120 * w - 200))
            | _, _ => x = NaN
            end
      | EmptyState _ => scrollLeft view = None
      end
  | Throw _ => True
  end.
Proof.
  unfold renderTimeline. destruct sel as [sel|]; [|reflexivity].
  destruct (getTimelineBounds env _) as [b|]; [|exact I].
  cbv beta iota delta [JS.bind].
  destruct (match cargos sel with Some l => l | None => [] end) as [|i t];
    [reflexivity|].
  assert (Hx : match startYear b, getMonthWidth env with
               | Num _, Num w =>
                   scrollNearYear env (JS.add (startYear b) (Num 10)) (startYear b) =
                     Num (Z.max 0 (120 * w - 200))
               | _, _ =>
                   scrollNearYear env (JS.add (startYear b) (Num 10)) (startYear b) = NaN
               end).
  { unfold scrollNearYear. destruct (startYear b) as [|s]; [reflexivity|].
    destruct (getMonthWidth env) as [|w]; [reflexivity|].
    cbn [JS.add JS.sub JS.mul JS.max JS.lift2]. f_equal. f_equal. lia. }
  destruct (isPersona type);
    match goal with
    | |- context [renderLane ?a ?b ?c ?d ?e] =>
        destruct (renderLane a b c d e) as [ln|]; [|exact I]
    end;
    cbv beta iota delta [JS.bind]; cbn [rows scrollLeft currentStartYear];
    eexists; (split; [reflexivity|]); exact Hx.
Qed.

Lemma getTimelineBounds_window env items :
  Forall validDates items ->
  exists sy ey,
    getTimelineBounds env items = Ok (mkBounds (Num sy) (Num ey)) /\
    sy <= 1997 /\ END_YEAR_DEFAULT env <= ey.
Proof.
  intros Hv. destruct items as [|i t].
  - exists 1997, (END_YEAR_DEFAULT env). split; [reflexivity | lia].
  - destruct (getTimelineBounds_valid env (i :: t) ltac:(discriminate) Hv)
      as (lo & hi & Hb & _ & _).
    eexists. eexists. split; [exact Hb | lia].
Qed.

(** The Today button finds the current month on the grid.  After a pass
    over records whose dates all parse (or over none), at the month width
    of 18 and with today in a year from 1997 to the year the page was
    loaded in, the month of today is a month of the grid and has its line
    there; the new scroll position is not negative, and that line is at
    the position or right of it, by no more than 270 pixels. *)
Theorem scrollToToday_on_grid env items n :
  Forall validDates items ->
  getMonthWidth env = Num 18 ->
  1997 <= fst (civilFromDays n) <= END_YEAR_DEFAULT env ->
  exists sy ey idx x,
    getTimelineBounds env items = Ok (mkBounds (Num sy) (Num ey)) /\
    monthIndex (Day n) (Num sy) = Num idx /\
    0 <= idx < (ey - sy + 1) * 12 /\
    In (mkLine (idx mod 12 =? 0) (10 + idx * 18))
       (gridLines (buildGrid env (Num sy) (Num ey))) /\
    scrollToToday env (Day n) (Num sy) = Num x /\
    0 <= x /\ x <= 10 + idx * 18 <= x + 270.
Proof.
  intros Hv Hw Hyear.
  destruct (getTimelineBounds_window env items Hv) as (sy & ey & Hb & Hsy & Hey).
  pose proof (civilFromDays_month n) as Hmo.
  exists sy, ey. unfold scrollToToday, monthIndex, getFullYear, getMonth.
  rewrite Hw. cbn [JS.add JS.sub JS.mul JS.max JS.lift2].
  eexists. eexists. split; [exact Hb|]. split; [reflexivity|].
  split; [lia|]. split.
  - apply gridLines_In. eexists. split; [|reflexivity]. lia.
  - split; [reflexivity|]. lia.
Qed.

Lemma scrollToToday_on_grid_witness :
  exists sy ey idx x,
    getTimelineBounds env2026 overlappingPair = Ok (mkBounds (Num sy) (Num ey)) /\
    monthIndex (Day 20759) (Num sy) = Num idx /\
    0 <= idx < (ey - sy + 1) * 12 /\
    In (mkLine (idx mod 12 =? 0) (10 + idx * 18))
       (gridLines (buildGrid env2026 (Num sy) (Num ey))) /\
    scrollToToday env2026 (Day 20759) (Num sy) = Num x /\
    0 <= x /\ x <= 10 + idx * 18 <= x + 270.
Proof.
  apply (scrollToToday_on_grid env2026 overlappingPair 20759).
  - constructor; [exists 2010, 2012; reflexivity|].
    constructor; [exists 2011, 2013; reflexivity|]. constructor.
  - reflexivity.
  - cbv. split; discriminate.
Defined.

End Scrolling.

(** ** The list of entities *)

Section Entities.

(** [String.prototype.localeCompare], which depends on the locale of the
    browser: any function to numbers. *)
Variable localeCompare : string -> string -> jsnum.

(** An entry of [PERSONAS] or [INSTITUCIONES]: the entity with its [id]. *)
Record Listed : Type := mkListed {
  listed_id : jsval;
  listed : Entity
}.

Record SelectOption : Type := mkOption {
  opt_value : string;
  opt_text : string;
  opt_disabled : bool;
  opt_selected : bool
}.

(** The entity select after [populateEntities]. *)
Record Select : Type := mkSelect {
  sel_entityType : string;
  sel_options : list SelectOption;
  sel_disabled : bool
}.

Definition placeholder : SelectOption :=
  mkOption EmptyString "Selecciona una opción" true true.

Definition noResults : SelectOption :=
  mkOption EmptyString "Sin resultados" false false.

Definition optionOf (item : Listed) : SelectOption :=
  mkOption (toString (listed_id item))
           (nameOr (nombre (listed item)) "Sin nombre") false false.

(** [(a.nombre || "").localeCompare(b.nombre || "")], the empty string
    standing for a missing name. *)
Definition compareNames (a b : Listed) : jsnum :=
  localeCompare (nameOr (nombre (listed a)) EmptyString)
                (nameOr (nombre (listed b)) EmptyString).

Definition isEmpty {A} (l : list A) : bool :=
  match l with [] => true | _ => false end.

Definition populateEntities (PERSONAS INSTITUCIONES : list Listed)
    (type : string) : Select :=
  let list := if isPersona type then PERSONAS else INSTITUCIONES in
  let sorted := ArraySort.sort compareNames list in
  mkSelect type
    (placeholder :: map optionOf sorted ++
       (if isEmpty sorted then [noResults] else []))
    (isEmpty sorted).

(** [list.find((item) => String(item.id) === String(id))] in
    [renderTimeline], [id] being the value of the select. *)
Definition findSelected (PERSONAS INSTITUCIONES : list Listed)
    (type : string) (id : string) : option Listed :=
  let list := if isPersona type then PERSONAS else INSTITUCIONES in
  find (fun item => String.eqb (toString (listed_id item)) id) list.

Definition entitiesOf (PERSONAS INSTITUCIONES : list Listed) (type : string)
  : list Listed :=
  if isPersona type then PERSONAS else INSTITUCIONES.

Lemma isEmpty_sort (l : list Listed) :
  isEmpty (ArraySort.sort compareNames l) = isEmpty l.
Proof.
  pose proof (Permutation_length (sort_perm compareNames l)) as H.
  destruct l, (ArraySort.sort compareNames _); simpl in *; congruence.
Qed.

(** The options list every entity once.  After [populateEntities] the
    select has the placeholder first, the only option marked selected, with
    an empty value; then one option for each entity of the chosen kind, in
    some order, with the id for value and the name, or Sin nombre, for
    text; with no entity there is the one option Sin resultados instead,
    and the select is disabled exactly then. *)
Theorem populateEntities_options P I type :
  let list := entitiesOf P I type in
  let s := populateEntities P I type in
  sel_entityType s = type /\
  sel_disabled s = isEmpty list /\
  exists rest, sel_options s = placeholder :: rest /\
    Forall (fun o => opt_selected o = false) rest /\
    (list = [] -> rest = [noResults]) /\
    (list <> [] -> Permutation rest (map optionOf list)).
Proof.
  intros list s. unfold s, populateEntities. fold (entitiesOf P I type). fold list.
  cbn [sel_entityType sel_disabled sel_options].
  split; [reflexivity|]. split; [apply isEmpty_sort|].
  eexists. split; [reflexivity|].
  rewrite isEmpty_sort. split; [|split].
  - apply Forall_app. split.
    + apply Forall_forall. intros o Ho. apply in_map_iff in Ho.
      destruct Ho as (x & <- & _). reflexivity.
    + destruct (isEmpty list); repeat constructor.
  - intros ->. reflexivity.
  - intros Hne. destruct list as [|x t] eqn:E; [congruence|].
    cbn [isEmpty]. rewrite app_nil_r. apply Permutation_map, sort_perm.
Qed.

(** Choosing an option shows the entity it names.  When the ids of the
    entities of the chosen kind are distinct as strings, the value of the
    option made from an entity finds that entity again, and a pass over it
    that returns puts the text of the option in the headline. *)
Theorem option_selects_its_entity env P I type item :
  NoDup (map (fun x => toString (listed_id x)) (entitiesOf P I type)) ->
  In item (entitiesOf P I type) ->
  In (optionOf item) (sel_options (populateEntities P I type)) /\
  findSelected P I type (opt_value (optionOf item)) = Some item /\
  forall view, renderTimeline env type (Some (listed item)) = Ok view ->
    headline view = ("Timeline · " ++ opt_text (optionOf item))%string.
Proof.
  intros Hnd Hin. split; [|split].
  - unfold populateEntities. fold (entitiesOf P I type).
    cbn [sel_options]. right. apply in_or_app. left.
    apply in_map. eapply Permutation_in; [symmetry; apply sort_perm | exact Hin].
  - unfold findSelected. fold (entitiesOf P I type).
    cbn [optionOf opt_value].
    induction (entitiesOf P I type) as [|x t IH]; [contradiction|].
    cbn [map] in Hnd. inversion Hnd as [|? ? Hx Ht]; subst.
    cbn [find]. destruct Hin as [->|Hin].
    + rewrite String.eqb_refl. reflexivity.
    + destruct (String.eqb_spec (toString (listed_id x)) (toString (listed_id item)))
        as [E|E]; [|apply IH; assumption].
      exfalso. apply Hx. rewrite E.
      apply (in_map (fun x => toString (listed_id x))). exact Hin.
  - intros view. unfold renderTimeline.
    destruct (getTimelineBounds env _) as [b|]; [|discriminate].
    cbv beta iota delta [JS.bind].
    destruct (match cargos (listed item) with Some l => l | None => [] end) as [|i t].
    + intros H. inversion H; subst. reflexivity.
    + destruct (isPersona type);
        match goal with
        | |- context [renderLane ?a ?b ?c ?d ?e] =>
            destruct (renderLane a b c d e) as [ln|]; [|discriminate]
        end;
        cbv beta iota delta [JS.bind]; intros H; inversion H; subst; reflexivity.
Qed.

End Entities.

Definition listedAna : Listed := mkListed (JStr "7") ana.

Lemma option_selects_its_entity_witness :
  In (optionOf listedAna)
     (sel_options (populateEntities (fun _ _ => Num 0) [listedAna] [] "persona")) /\
  findSelected [listedAna] [] "persona" (opt_value (optionOf listedAna)) =
    Some listedAna /\
  forall view, renderTimeline env2026 "persona" (Some (listed listedAna)) = Ok view ->
    headline view = ("Timeline · " ++ opt_text (optionOf listedAna))%string.
Proof.
  apply (option_selects_its_entity (fun _ _ => Num 0) env2026 [listedAna] []
           "persona" listedAna).
  - repeat constructor. intros [].
  - left. reflexivity.
Defined.

(** ** A start date that does not parse *)

Section UnparsedStart.

Lemma lift2_NaN_r f a : JS.lift2 f a NaN = NaN.
Proof. destruct a; reflexivity. Qed.

Lemma monthIndex_NaN d : monthIndex d NaN = NaN.
Proof.
  unfold monthIndex, JS.add, JS.mul, JS.sub. rewrite lift2_NaN_r. reflexivity.
Qed.

Lemma assignRow_NaN e rowsEnd : forall r,
  assignRow NaN e rowsEnd r = ((r + List.length rowsEnd)%nat, rowsEnd ++ [e]).
Proof.
  induction rowsEnd as [|x rest IH]; intros r; cbn [assignRow].
  - cbn [List.length app]. rewrite Nat.add_0_r. reflexivity.
  - change (JS.gt NaN x) with false. cbv iota. rewrite IH.
    cbn [List.length app]. f_equal. lia.
Qed.

(** Segments without a start month never fit a row that is open: each one
    opens a row. *)
Lemma stackLoop_NaN l : forall rowsEnd placed final,
  Forall (fun s => _start s = NaN) l ->
  stackLoop l rowsEnd = (placed, final) ->
  map _row placed = map Some (seq (List.length rowsEnd) (List.length l)) /\
  List.length final = (List.length rowsEnd + List.length l)%nat.
Proof.
  induction l as [|s rest IH]; intros rowsEnd placed final Hn H.
  - inversion H; subst. split; [reflexivity | cbn; lia].
  - inversion Hn as [|? ? Hs Hrest]; subst.
    apply stackLoop_cons in H.
    destruct H as (r & rowsEnd' & placed' & Ha & Hl & ->).
    rewrite Hs, assignRow_NaN in Ha. inversion Ha; subst. clear Ha.
    destruct (IH _ _ _ Hrest Hl) as [Hrows Hlen].
    rewrite length_app in Hrows, Hlen. cbn [List.length] in Hrows, Hlen.
    split; [|cbn [List.length]; lia].
    cbn [map seq List.length setRow _row]. f_equal.
    rewrite Hrows. f_equal. f_equal. lia.
Qed.

Lemma renderBars_tops mode l : forall id,
  map bar_top (renderBars mode id l) = map barTop l.
Proof.
  induction l as [|s t IH]; intros id; [reflexivity|].
  cbn [renderBars map]. rewrite IH. reflexivity.
Qed.

Lemma unparseable_startOf i :
  hasStringDates i = true -> unparseable (inicio i) -> startOf i = NaN.
Proof.
  intros Hs Hu. unfold startOf, years.
  rewrite (unparseable_invalid _ Hu).
  unfold hasStringDates in Hs. apply andb_true_iff in Hs. destruct Hs as [_ Hf].
  destruct (parseDate_string _ Hf) as [d ->]. reflexivity.
Qed.

(** One start date that does not parse takes the whole timeline down.  When
    the dates of the records are all strings and the start date of one of
    them does not parse, the pass returns with a start year and a canvas
    width that are NaN, the grid drawn for these bounds has no line and no
    label, and the lane has a bar for each record, every one with NaN for
    left and width and each in a row of its own, from row 0 down. *)
Theorem renderTimeline_unparsed_start env type sel items :
  cargos sel = Some items ->
  forallb hasStringDates items = true ->
  Exists (fun i => unparseable (inicio i)) items ->
  exists view lane,
    renderTimeline env type (Some sel) = Ok view /\
    rows view = LaneRows lane /\
    currentStartYear view = NaN /\ canvasWidth view = NaN /\
    gridLines (buildGrid env (currentStartYear view) (currentEndYear view)) = [] /\
    yearLabels (buildGrid env (currentStartYear view) (currentEndYear view)) = [] /\
    Forall (fun b => bar_left b = NaN /\ bar_width b = NaN) (bars lane) /\
    map bar_top (bars lane) =
      map (fun r => Num (6 + Z.of_nat r * 34)) (seq 0 (List.length items)).
Proof.
  intros Hc Hstr Hex.
  assert (Hne : items <> []) by (intros ->; inversion Hex).
  assert (Hb : exists ey, getTimelineBounds env items = Ok (mkBounds NaN ey)).
  { rewrite getTimelineBounds_nonempty by exact Hne.
    rewrite foldM_widen_ok.
    - cbv beta iota delta [JS.bind fst snd]. unfold minStart.
      rewrite over_has_NaN; [eexists; reflexivity|].
      apply Exists_exists. apply Exists_exists in Hex.
      destruct Hex as (i & Hi & Hu). exists i. split; [exact Hi|].
      apply unparseable_startOf; [|exact Hu].
      rewrite forallb_forall in Hstr. apply Hstr, Hi.
    - apply Forall_forall. intros y Hy.
      rewrite forallb_forall in Hstr. specialize (Hstr y Hy).
      pose proof (hasStringDates_years y) as Hyears.
      rewrite Hstr in Hyears. exact Hyears. }
  destruct Hb as [ey Hb].
  destruct (mapM_toSeg_ok NaN items Hstr) as (mapped & Hm & Hit & Hcoord).
  assert (Hnan : Forall (fun s => _start s = NaN /\ _end s = NaN) mapped).
  { rewrite Forall_forall in Hcoord |- *. intros s Hs.
    destruct (Hcoord s Hs) as [H1 H2].
    assert (Hi : In (it s) items) by (rewrite <- Hit; apply in_map; exact Hs).
    rewrite forallb_forall in Hstr. specialize (Hstr _ Hi).
    unfold hasStringDates in Hstr. apply andb_true_iff in Hstr.
    destruct Hstr as [S1 S2].
    destruct (parseDate_string _ S1) as [d1 E1].
    destruct (parseDate_string _ S2) as [d2 E2].
    rewrite (H1 _ E1), (H2 _ E2), !monthIndex_NaN. split; reflexivity. }
  pose proof (stackOverlaps_unfold _ _ _ Hm) as Hst.
  destruct (stackLoop (ArraySort.sort compareSegs mapped) []) as [placed final] eqn:Hl.
  cbn [fst snd] in Hst.
  pose proof (sort_Forall _ _ Hnan) as Hsorted.
  assert (Hplaced : Forall (fun s => _start s = NaN /\ _end s = NaN) placed).
  { destruct (stackLoop_items _ _ _ _ Hl) as [_ Hkeep].
    apply (Hkeep (fun st_ en _ => st_ = NaN /\ en = NaN)). exact Hsorted. }
  destruct (stackLoop_NaN _ _ _ _
              (Forall_impl _ (fun s H => proj1 H) Hsorted) Hl) as [Hrows _].
  assert (Hlen : List.length (ArraySort.sort compareSegs mapped) = List.length items).
  { rewrite (Permutation_length (sort_perm compareSegs mapped)), <- Hit.
    apply eq_sym, length_map. }
  rewrite Hlen in Hrows. cbn [List.length] in Hrows.
  assert (Hbars : forall mode,
    Forall (fun b => bar_left b = NaN /\ bar_width b = NaN) (renderBars mode 0 placed) /\
    map bar_top (renderBars mode 0 placed) =
      map (fun r => Num (6 + Z.of_nat r * 34)) (seq 0 (List.length items))).
  { intros mode. split.
    - pose proof (renderBars_geometry mode placed 0) as Hgeo.
      revert Hplaced Hgeo. clear. generalize (renderBars mode 0 placed).
      intros bs Hplaced Hgeo.
      induction Hgeo as [|s b l' bs' (Hleft & Hw & _) _ IH]; [constructor|].
      inversion Hplaced as [|? ? [Hs He] Hrest]; subst.
      constructor; [|apply IH; exact Hrest].
      rewrite Hleft, Hw. unfold barWidth, barLeft. rewrite Hs, He. split; reflexivity.
    - rewrite renderBars_tops. unfold barTop.
      rewrite <- (map_map _row (fun r => JS.add (Num 6)
                                  (JS.mul (rowNumber r) (Num (28 + 6))))).
      rewrite Hrows, map_map. apply map_ext. intros r. reflexivity. }
  unfold renderTimeline. rewrite Hc, Hb.
  destruct items as [|x t]; [congruence|].
  cbv beta iota delta [JS.bind]. cbn [startYear endYear].
  unfold renderLane. rewrite Hst. cbv beta iota delta [JS.bind]. cbn [segs].
  destruct (buildGrid_without_bounds env ey) as (Hg1 & Hg2 & _ & _ & Hg3 & _).
  destruct (isPersona type); eexists; eexists;
    (split; [reflexivity|]); (split; [reflexivity|]);
    (split; [reflexivity|]);
    cbn [canvasWidth currentStartYear currentEndYear bars];
    (split; [exact Hg3|]); (split; [exact Hg1|]);
    (split; [exact Hg2|]); apply Hbars.
Qed.

Lemma renderTimeline_unparsed_start_witness :
  exists view lane,
    renderTimeline env2026 "persona" (Some undated) = Ok view /\
    rows view = LaneRows lane /\
    currentStartYear view = NaN /\ canvasWidth view = NaN /\
    gridLines (buildGrid env2026 (currentStartYear view) (currentEndYear view)) = [] /\
    yearLabels (buildGrid env2026 (currentStartYear view) (currentEndYear view)) = [] /\
    Forall (fun b => bar_left b = NaN /\ bar_width b = NaN) (bars lane) /\
    map bar_top (bars lane) =
      map (fun r => Num (6 + Z.of_nat r * 34))
          (seq 0 (List.length (match cargos undated with Some l => l | None => [] end))).
Proof.
  apply (renderTimeline_unparsed_start env2026 "persona" undated
           (match cargos undated with Some l => l | None => [] end)).
  - reflexivity.
  - reflexivity.
  - constructor. exists EmptyString. split; [reflexivity|].
    right. right. reflexivity.
Defined.

End UnparsedStart.
